(** * GlyphGL: the glyph atlas packer and the UTF-8 decoders

    A shallow embedding of [glyph_atlas.h] (atlas creation, lookup,
    [next_pow2], the charset decoder)
    and of the renderer of [glyph.h] (creation, release, the text decoder and
    the vertex batch of [glyph_renderer_draw_text]), followed by the properties
    the specification states about them.

    Conventions.
    - A C [int] is a [Z]; every arithmetic result is reduced to the 32-bit
      two's-complement range by [Int.wrap32].  [>>] on an [int] is the
      arithmetic shift [Z.shiftr].
    - A C string is the list of bytes found at the pointer; [strlen] stops at
      the first NUL, and a read at or after the end of the list yields the
      terminator.  A [size_t] index is a [nat].
    - A C array is a list, read with [nth] and written in place with stdpp's
      [alter].  A pointer into [atlas.chars] is the index of the entry.
    - A [float] is an IEEE 754 binary32 number ([spec_float] of the Standard
      Library, 24 bits of precision); every operation rounds to nearest, ties
      to even, as the SSE instructions a C compiler emits for [float] do.
    - Pixel data is not modelled: an image is its two dimensions and whether
      its buffer exists, a glyph bitmap is the pointer to it.  The blit loops
      of the packer only move pixels. *)

From Stdlib Require Import ZArith Lia List Bool.
From Stdlib Require Import Floats.SpecFloat.
From Stdlib Require Import Strings.Byte Strings.String.
From Stdlib Require Import Permutation Sorted.
From stdpp Require Import base list sorting.
Import ListNotations.

#[local] Open Scope Z_scope.

(** * Part I: the program *)

(** ** Machine integers *)

Module Int.

Definition min_signed : Z := - 2 ^ 31.
Definition max_signed : Z := 2 ^ 31 - 1.

(** Two's-complement reduction of a mathematical integer to an [int]. *)
Definition wrap32 (z : Z) : Z := (z + 2 ^ 31) mod 2 ^ 32 - 2 ^ 31.

Definition add (a b : Z) : Z := wrap32 (a + b).
Definition sub (a b : Z) : Z := wrap32 (a - b).
Definition mul (a b : Z) : Z := wrap32 (a * b).

Definition in_range (z : Z) : Prop := min_signed <= z <= max_signed.

End Int.

(** [size_t] arithmetic, on 64 bits. *)
Module Size.

Definition wrap (z : Z) : Z := z mod 2 ^ 64.
Definition add (a b : Z) : Z := wrap (a + b).
Definition mul (a b : Z) : Z := wrap (a * b).

End Size.

(** ** How a call ends

    A call returns, or it is stopped where the C code reads or writes memory
    it does not own: the code has no test at these places, and what the
    machine does from there on is not the program's. *)
Inductive outcome (A : Type) : Type :=
  | Returns (a : A)
  | ReadsNull              (* a read through [chars == NULL] *)
  | ReadsOutside           (* a read outside the [chars] array *)
  | WritesOutside.         (* a write outside the buffer it is aimed at *)

Arguments Returns {A} a.
Arguments ReadsNull {A}.
Arguments ReadsOutside {A}.
Arguments WritesOutside {A}.

#[global] Instance outcome_ret : MRet outcome := fun A a => Returns a.

#[global] Instance outcome_bind : MBind outcome :=
  fun A B f m =>
    match m with
    | Returns a => f a
    | ReadsNull => ReadsNull
    | ReadsOutside => ReadsOutside
    | WritesOutside => WritesOutside
    end.

(** ** Floats *)

Definition float : Type := spec_float.

Module Float.

Definition prec : Z := 24.
Definition emax : Z := 128.

Definition mul (a b : float) : float := SFmul prec emax a b.
Definition div (a b : float) : float := SFdiv prec emax a b.

(** [(float)z] for an [int] [z]. *)
Definition of_int (z : Z) : float := binary_normalize prec emax z 0 false.

Definition zero : float := S754_zero false.

(** [0.5f]. *)
Definition half : float := S754_finite false 8388608 (-24).

End Float.

(** [(int)f] for a float [f]: the value with its fraction cut off.  For a
    value no [int] holds, an infinity or a NaN the conversion is undefined in
    C; the model takes what the [cvttss2si] instruction leaves, [INT_MIN]. *)
Definition float_to_int (f : float) : Z :=
  match f with
  | S754_zero _ => 0
  | S754_finite s m e =>
    let magnitude := Z.shiftl (Z.pos m) e in
    let z := if s then - magnitude else magnitude in
    if (Int.min_signed <=? z) && (z <=? Int.max_signed) then z else Int.min_signed
  | S754_infinity _ | S754_nan => Int.min_signed
  end.

(** ** C strings *)

Definition cstring := list byte.

Fixpoint strlen (s : cstring) : nat :=
  match s with
  | [] => 0%nat
  | b :: rest => if Byte.eqb b x00 then 0%nat else S (strlen rest)
  end.

(** [(unsigned char)str[i]]. *)
Definition uchar_at (str : cstring) (i : nat) : Z :=
  Z.of_N (Byte.to_N (nth i str x00)).

(** ** The two UTF-8 decoders

    Both take the string and [*index] and return the codepoint together with
    the value [*index] holds when the function returns. *)

(** [glyph_atlas_utf8_decode], glyph_atlas.h. *)
Definition glyph_atlas_utf8_decode (str : cstring) (index : nat) : Z * nat :=
  let i := index in
  let c := uchar_at str i in
  let i := S i in
  if c <? 0x80 then (c, i)
  else if Z.land c 0xE0 =? 0xC0 then
    let c2 := uchar_at str i in
    let i := S i in
    (Z.lor (Z.shiftl (Z.land c 0x1F) 6) (Z.land c2 0x3F), i)
  else if Z.land c 0xF0 =? 0xE0 then
    let c2 := uchar_at str i in
    let i := S i in
    let c3 := uchar_at str i in
    let i := S i in
    (Z.lor (Z.lor (Z.shiftl (Z.land c 0x0F) 12) (Z.shiftl (Z.land c2 0x3F) 6))
           (Z.land c3 0x3F), i)
  else if Z.land c 0xF8 =? 0xF0 then
    let c2 := uchar_at str i in
    let i := S i in
    let c3 := uchar_at str i in
    let i := S i in
    let c4 := uchar_at str i in
    let i := S i in
    (Z.lor (Z.lor (Z.lor (Z.shiftl (Z.land c 0x07) 18) (Z.shiftl (Z.land c2 0x3F) 12))
                  (Z.shiftl (Z.land c3 0x3F) 6))
           (Z.land c4 0x3F), i)
  else (0xFFFD, i).

(** [(c & 0xC0) != 0x80]. *)
Definition not_continuation (c : Z) : bool := negb (Z.land c 0xC0 =? 0x80).

(** [glyph_utf8_decode], glyph.h.  The early [return]s leave [*index] as it
    was on entry. *)
Definition glyph_utf8_decode (str : cstring) (index : nat) : Z * nat :=
  let i := index in
  if (strlen str <=? i)%nat then (0, index)
  else
    let c := uchar_at str i in
    let i := S i in
    if c <? 0x80 then (c, i)
    else if Z.land c 0xE0 =? 0xC0 then
      if (strlen str <=? i)%nat then (0xFFFD, index)
      else
        let c2 := uchar_at str i in
        let i := S i in
        if not_continuation c2 then (0xFFFD, index)
        else (Z.lor (Z.shiftl (Z.land c 0x1F) 6) (Z.land c2 0x3F), i)
    else if Z.land c 0xF0 =? 0xE0 then
      if (strlen str <=? i + 1)%nat then (0xFFFD, index)
      else
        let c2 := uchar_at str i in
        let i := S i in
        let c3 := uchar_at str i in
        let i := S i in
        if not_continuation c2 || not_continuation c3 then (0xFFFD, index)
        else (Z.lor (Z.lor (Z.shiftl (Z.land c 0x0F) 12) (Z.shiftl (Z.land c2 0x3F) 6))
                    (Z.land c3 0x3F), i)
    else if Z.land c 0xF8 =? 0xF0 then
      if (strlen str <=? i + 2)%nat then (0xFFFD, index)
      else
        let c2 := uchar_at str i in
        let i := S i in
        let c3 := uchar_at str i in
        let i := S i in
        let c4 := uchar_at str i in
        let i := S i in
        if not_continuation c2 || not_continuation c3 || not_continuation c4
        then (0xFFFD, index)
        else (Z.lor (Z.lor (Z.lor (Z.shiftl (Z.land c 0x07) 18)
                                  (Z.shiftl (Z.land c2 0x3F) 12))
                           (Z.shiftl (Z.land c3 0x3F) 6))
                    (Z.land c4 0x3F), i)
    else (0xFFFD, i).

Inductive glyph_encoding_type_t : Type :=
  | GLYPH_ENCODING_NONE
  | GLYPH_ENCODING_UTF8
  | GLYPH_ENCODING_ASCII.

Definition is_utf8 (t : glyph_encoding_type_t) : bool :=
  match t with GLYPH_ENCODING_UTF8 => true | _ => false end.

(** ** [glyph_atlas__next_pow2] *)

(** One [v |= v >> k] statement. *)
Definition smear (k v : Z) : Z := Z.lor v (Z.shiftr v k).

Definition glyph_atlas__next_pow2 (v : Z) : Z :=
  let v := Int.sub v 1 in
  let v := smear 1 v in
  let v := smear 2 v in
  let v := smear 4 v in
  let v := smear 8 v in
  let v := smear 16 v in
  Int.add v 1.

(** ** Atlas data *)

Record glyph_image_t : Type := {
  img_width : Z;
  img_height : Z;
  img_data : bool            (* [data != NULL] *)
}.

Definition image_zero : glyph_image_t :=
  {| img_width := 0; img_height := 0; img_data := false |}.

(** Modelled from the spec: [glyph_image_create] of glyph_image.h, which is not
    among the sources.  The spec has an image as an owned
    width x height x 3-byte buffer, created with the dimensions asked for. *)
Definition glyph_image_create (w h : Z) : glyph_image_t :=
  {| img_width := w; img_height := h; img_data := true |}.

(** Modelled from the spec: the bytes of the buffer an image owns. *)
Definition image_bytes (img : glyph_image_t) : Z :=
  img_width img * img_height img * 3.

(** [memset(atlas.image.data, 0, atlas_width * atlas_height * 3)].  The length
    is the [int] product, converted to [size_t]; the call writes outside the
    buffer when that is more than the buffer holds. *)
Definition clear_image (img : glyph_image_t) (w h : Z) : outcome glyph_image_t :=
  let length := Size.wrap (Int.mul (Int.mul w h) 3) in
  if length <=? image_bytes img then Returns img else WritesOutside.

Record glyph_atlas_char_t : Type := {
  ch_codepoint : Z;
  ch_x : Z;
  ch_y : Z;
  ch_width : Z;
  ch_height : Z;
  ch_xoff : Z;
  ch_yoff : Z;
  ch_advance : Z
}.

Record glyph_atlas_t : Type := {
  image : glyph_image_t;
  chars : option (list glyph_atlas_char_t);   (* [None] is [NULL] *)
  num_chars : Z;
  pixel_height : float
}.

(** [glyph_atlas_t atlas = {0}]. *)
Definition atlas_zero : glyph_atlas_t :=
  {| image := image_zero; chars := None; num_chars := 0; pixel_height := Float.zero |}.

(** ** What the packer is given

    The TrueType module (glyph_truetype.h) and the allocator are not among the
    sources; the packer is modelled over their results. *)

(** An [unsigned char*] to a glyph bitmap: [None] is [NULL], otherwise the
    address. *)
Definition bitmap_ptr : Type := option N.

(** The outputs of one [glyph_ttf_get_glyph_bitmap] call: the returned
    pointer and the four out-parameters. *)
Record glyph_raster_t : Type := {
  r_bitmap : bitmap_ptr;
  r_width : Z;
  r_height : Z;
  r_xoff : Z;
  r_yoff : Z
}.

(** A loaded font, through the four functions the packer calls on it. *)
Record glyph_font_t : Type := {
  glyph_ttf_scale_for_pixel_height : float -> float;
  glyph_ttf_find_glyph_index : Z -> Z;
  glyph_ttf_get_glyph_bitmap : Z -> float -> float -> glyph_raster_t;
  glyph_ttf_get_glyph_advance : Z -> Z
}.

(** The environment of one [glyph_atlas_create] call.  The allocation of
    [current_row], whose result the code does not test, and the creation of
    the image are taken to succeed. *)
Record host_t : Type := {
  (* [None]: the font could not be loaded *)
  glyph_ttf_load_font_from_file : cstring -> option glyph_font_t;
  (* [GLYPH_MALLOC] for [atlas.chars]: [None] is [NULL]; otherwise the
     indeterminate value found in each cell of the fresh block *)
  malloc_chars : option (nat -> glyph_atlas_char_t);
  (* whether [GLYPH_MALLOC] for [temp_glyphs] and for [glyph_order] succeed *)
  malloc_temp_glyphs : bool;
  malloc_glyph_order : bool;
  glyph_ttf_get_glyph_sdf_bitmap : N -> Z -> Z -> Z -> bitmap_ptr;
  (* [(int)sqrtf(v)] for an [int] [v] *)
  sqrtf_to_int : Z -> Z
}.

Record temp_glyph_t : Type := {
  tg_bitmap : bitmap_ptr;
  tg_width : Z;
  tg_height : Z;
  tg_xoff : Z;
  tg_yoff : Z;
  tg_advance : Z;
  tg_is_default : Z
}.

Definition temp_glyph_zero : temp_glyph_t :=
  {| tg_bitmap := None; tg_width := 0; tg_height := 0; tg_xoff := 0;
     tg_yoff := 0; tg_advance := 0; tg_is_default := 0 |}.

Definition GLYPHGL_ATLAS_WIDTH : Z := 2048.
Definition GLYPHGL_ATLAS_HEIGHT : Z := 2048.

Definition default_charset : cstring :=
  list_byte_of_string " !" ++ [x22] ++
  list_byte_of_string
    "#$%&'()*+,-./0123456789:;<=>?@ABCDEFGHIJKLMNOPQRSTUVWXYZ[\]^_`abcdefghijklmnopqrstuvwxyz{|}~".

(** ** [glyph_atlas_create], before packing *)

(** The counting loop [while (idx < strlen(charset))].  Every decode moves
    [idx] forward, so [strlen charset] iterations are enough; the fuel is
    never used up (see [utf8_count_loop_fuel]). *)
Fixpoint utf8_count_loop (fuel : nat) (charset : cstring) (idx : nat)
    (charset_len : Z) : Z :=
  match fuel with
  | O => charset_len
  | S fuel' =>
    if (idx <? strlen charset)%nat then
      let idx := snd (glyph_atlas_utf8_decode charset idx) in
      utf8_count_loop fuel' charset idx (Int.add charset_len 1)
    else charset_len
  end.

Definition charset_length (char_type : glyph_encoding_type_t) (charset : cstring) : Z :=
  if is_utf8 char_type then utf8_count_loop (strlen charset) charset 0 0
  else Int.wrap32 (Z.of_nat (strlen charset)).

(** Field updates of one entry of [atlas.chars]. *)
Definition set_codepoint (cp : Z) (c : glyph_atlas_char_t) : glyph_atlas_char_t :=
  {| ch_codepoint := cp; ch_x := ch_x c; ch_y := ch_y c; ch_width := ch_width c;
     ch_height := ch_height c; ch_xoff := ch_xoff c; ch_yoff := ch_yoff c;
     ch_advance := ch_advance c |}.

Definition set_advance (a : Z) (c : glyph_atlas_char_t) : glyph_atlas_char_t :=
  {| ch_codepoint := ch_codepoint c; ch_x := ch_x c; ch_y := ch_y c;
     ch_width := ch_width c; ch_height := ch_height c; ch_xoff := ch_xoff c;
     ch_yoff := ch_yoff c; ch_advance := a |}.

Definition set_y (y : Z) (c : glyph_atlas_char_t) : glyph_atlas_char_t :=
  {| ch_codepoint := ch_codepoint c; ch_x := ch_x c; ch_y := y;
     ch_width := ch_width c; ch_height := ch_height c; ch_xoff := ch_xoff c;
     ch_yoff := ch_yoff c; ch_advance := ch_advance c |}.

(** The six assignments that place or clear an entry; codepoint and advance
    are left as they are. *)
Definition set_geometry (x y w h xo yo : Z) (c : glyph_atlas_char_t) : glyph_atlas_char_t :=
  {| ch_codepoint := ch_codepoint c; ch_x := x; ch_y := y; ch_width := w;
     ch_height := h; ch_xoff := xo; ch_yoff := yo; ch_advance := ch_advance c |}.

(** State of the rasterisation loop (phase 1). *)
Record raster_state : Type := {
  rs_charset_idx : nat;
  rs_chars : list glyph_atlas_char_t;
  rs_temp_glyphs : list temp_glyph_t;     (* cells [0 .. i-1], cell [i] is written at iteration [i] *)
  rs_total_width : Z;
  rs_max_height : Z
}.

Section Create.

Variable host : host_t.
Variable ttf_font : glyph_font_t.
Variable pixel_height_arg : float.
Variable charset : cstring.
Variable char_type : glyph_encoding_type_t.
Variable use_sdf : bool.

Definition scale : float := glyph_ttf_scale_for_pixel_height ttf_font pixel_height_arg.

(** One iteration of [for (int i = 0; i < charset_len; i++)]. *)
Definition rasterize_step (st : raster_state) (i : nat) : raster_state :=
  let '(codepoint, charset_idx) :=
    if is_utf8 char_type then glyph_atlas_utf8_decode charset (rs_charset_idx st)
    else (uchar_at charset i, rs_charset_idx st) in
  let glyph_idx := glyph_ttf_find_glyph_index ttf_font codepoint in
  if (glyph_idx =? 0) && negb (codepoint =? 32) then
    {| rs_charset_idx := charset_idx;
       rs_chars := alter (set_codepoint codepoint) i (rs_chars st);
       rs_temp_glyphs := rs_temp_glyphs st ++
         [ {| tg_bitmap := None; tg_width := 0; tg_height := 0; tg_xoff := 0;
              tg_yoff := 0;
              tg_advance := float_to_int (Float.mul pixel_height_arg Float.half);
              tg_is_default := 0 |} ];
       rs_total_width := rs_total_width st;
       rs_max_height := rs_max_height st |}
  else
    let r := glyph_ttf_get_glyph_bitmap ttf_font glyph_idx scale scale in
    let bitmap :=
      match r_bitmap r with
      | Some b =>
        if use_sdf then glyph_ttf_get_glyph_sdf_bitmap host b (r_width r) (r_height r) 4
        else Some b
      | None => None
      end in
    let advance :=
      float_to_int
        (Float.mul (Float.of_int (glyph_ttf_get_glyph_advance ttf_font glyph_idx)) scale) in
    {| rs_charset_idx := charset_idx;
       rs_chars := alter (fun c => set_advance advance (set_codepoint codepoint c)) i
                         (rs_chars st);
       rs_temp_glyphs := rs_temp_glyphs st ++
         [ {| tg_bitmap := bitmap; tg_width := r_width r; tg_height := r_height r;
              tg_xoff := r_xoff r; tg_yoff := r_yoff r; tg_advance := advance;
              tg_is_default := if use_sdf then 1 else 0 |} ];
       rs_total_width := Int.add (rs_total_width st) (Int.add (r_width r) 4);
       rs_max_height :=
         if r_height r >? rs_max_height st then r_height r else rs_max_height st |}.

Definition rasterize_all (chars0 : list glyph_atlas_char_t) (n : nat) : raster_state :=
  fold_left rasterize_step (seq 0 n)
    {| rs_charset_idx := 0; rs_chars := chars0; rs_temp_glyphs := [];
       rs_total_width := 0; rs_max_height := 0 |}.

End Create.

(** ** Phase 2: the bubble sort of [glyph_order] *)

Section Sort.

Variable temp_glyphs : list temp_glyph_t.

(** [temp_glyphs[k].height]. *)
Definition height_of (k : nat) : Z := tg_height (nth k temp_glyphs temp_glyph_zero).

(** The body of the inner loop: compare cells [j] and [j+1], swap them when
    the first is strictly shorter. *)
Definition sort_compare_swap (glyph_order : list nat) (j : nat) : list nat :=
  let a := nth j glyph_order 0%nat in
  let b := nth (S j) glyph_order 0%nat in
  if height_of a <? height_of b
  then <[S j := a]> (<[j := b]> glyph_order)
  else glyph_order.

(** [for (j = 0; j < charset_len - i - 1; j++)]. *)
Definition sort_pass (n : nat) (glyph_order : list nat) (i : nat) : list nat :=
  fold_left sort_compare_swap (seq 0 (n - i - 1)) glyph_order.

(** [glyph_order[i] = i] for all [i], then
    [for (i = 0; i < charset_len - 1; i++)]. *)
Definition sort_glyph_order (n : nat) : list nat :=
  fold_left (sort_pass n) (seq 0 (n - 1)) (seq 0 n).

End Sort.

(** ** Phase 3: packing *)

Definition padding : Z := 4.

Record row_glyph_t : Type := {
  rg_index : nat;
  rg_yoff : Z
}.

(** The variables the packing loop works on. *)
Record pack_state : Type := {
  order_idx : nat;
  pen_x : Z;
  pen_y : Z;
  row_height : Z;
  current_row : list row_glyph_t;          (* cells [0 .. row_count-1] *)
  atlas_width : Z;
  atlas_height : Z;
  atlas_image : glyph_image_t;
  atlas_chars : list glyph_atlas_char_t
}.

Section Pack.

Variable temp_glyphs : list temp_glyph_t.
Variable glyph_order : list nat.
Variable charset_len : nat.

Definition glyph (i : nat) : temp_glyph_t := nth i temp_glyphs temp_glyph_zero.

(** [max_yoff] of a row, starting from 0. *)
Definition row_max_yoff (row : list row_glyph_t) : Z :=
  fold_left (fun max_yoff r =>
               if tg_yoff (glyph (rg_index r)) >? max_yoff
               then tg_yoff (glyph (rg_index r)) else max_yoff)
            row 0.

(** The blit loop over a finished row, as far as [atlas.chars] goes:
    [atlas.chars[idx].y = atlas.chars[idx].y + glyph_top]. *)
Definition align_row (row : list row_glyph_t) (cs : list glyph_atlas_char_t)
    : list glyph_atlas_char_t :=
  let max_yoff := row_max_yoff row in
  fold_left (fun cs r =>
               let idx := rg_index r in
               let glyph_top := Int.sub max_yoff (tg_yoff (glyph idx)) in
               alter (fun c => set_y (Int.add (ch_y c) glyph_top) c) idx cs)
            row cs.

(** The [if (pen_x + width + padding > atlas_width)] block. *)
Definition close_row (st : pack_state) : pack_state :=
  {| order_idx := order_idx st;
     pen_x := padding;
     pen_y := Int.add (pen_y st) (Int.add (row_height st) padding);
     row_height := 0;
     current_row := [];
     atlas_width := atlas_width st;
     atlas_height := atlas_height st;
     atlas_image := atlas_image st;
     atlas_chars := align_row (current_row st) (atlas_chars st) |}.

(** The [if (pen_y + height + padding > atlas_height)] block: the image is
    created anew and cleared.  [order_idx] is set to -1 and the [continue]
    runs the loop increment, so the next iteration starts at 0. *)
Definition grow_and_restart (st : pack_state) : outcome pack_state :=
  let w := Int.mul (atlas_width st) 2 in
  let h := Int.mul (atlas_height st) 2 in
  img ← clear_image (glyph_image_create w h) w h;
  mret {| order_idx := 0;
          pen_x := padding;
          pen_y := padding;
          row_height := 0;
          current_row := [];
          atlas_width := w;
          atlas_height := h;
          atlas_image := img;
          atlas_chars := atlas_chars st |}.

(** The tail of the loop body: the glyph goes into the current row. *)
Definition place_glyph (i : nat) (st : pack_state) : pack_state :=
  let g := glyph i in
  {| order_idx := S (order_idx st);
     pen_x := Int.add (pen_x st) (Int.add (tg_width g) (Int.mul padding 2));
     pen_y := pen_y st;
     row_height := if tg_height g >? row_height st then tg_height g else row_height st;
     current_row := current_row st ++ [ {| rg_index := i; rg_yoff := tg_yoff g |} ];
     atlas_width := atlas_width st;
     atlas_height := atlas_height st;
     atlas_image := atlas_image st;
     atlas_chars :=
       alter (set_geometry (pen_x st) (pen_y st) (tg_width g) (tg_height g)
                           (tg_xoff g) (tg_yoff g))
             i (atlas_chars st) |}.

(** The branch for a glyph with no bitmap or no width. *)
Definition skip_glyph (i : nat) (st : pack_state) : pack_state :=
  {| order_idx := S (order_idx st);
     pen_x := pen_x st;
     pen_y := pen_y st;
     row_height := row_height st;
     current_row := current_row st;
     atlas_width := atlas_width st;
     atlas_height := atlas_height st;
     atlas_image := atlas_image st;
     atlas_chars := alter (set_geometry 0 0 0 0 0 0) i (atlas_chars st) |}.

Definition is_empty_glyph (g : temp_glyph_t) : bool :=
  match tg_bitmap g with None => true | Some _ => false end || (tg_width g =? 0).

(** One iteration of [for (order_idx = 0; order_idx < charset_len; order_idx++)]. *)
Definition pack_step (st : pack_state) : outcome pack_state :=
  let i := nth (order_idx st) glyph_order 0%nat in
  let g := glyph i in
  if is_empty_glyph g then Returns (skip_glyph i st)
  else
    let st :=
      if Int.add (Int.add (pen_x st) (tg_width g)) padding >? atlas_width st
      then close_row st else st in
    if Int.add (Int.add (pen_y st) (tg_height g)) padding >? atlas_height st
    then grow_and_restart st
    else Returns (place_glyph i st).

(** The packing loop.  [None] is a run still inside the loop after [fuel]
    iterations; [Some] is a run that has left the loop or has been stopped. *)
Fixpoint pack_loop (fuel : nat) (st : pack_state) : option (outcome pack_state) :=
  match fuel with
  | O => None
  | S fuel' =>
    if (order_idx st <? charset_len)%nat then
      match pack_step st with
      | Returns st' => pack_loop fuel' st'
      | ReadsNull => Some ReadsNull
      | ReadsOutside => Some ReadsOutside
      | WritesOutside => Some WritesOutside
      end
    else Some (Returns st)
  end.

(** [if (row_count > 0)] after the loop. *)
Definition finish_last_row (st : pack_state) : list glyph_atlas_char_t :=
  match current_row st with
  | [] => atlas_chars st
  | _ :: _ => align_row (current_row st) (atlas_chars st)
  end.

(** From the size estimate to the first iteration: the minimum size, the
    image created and cleared, the pen at the padding. *)
Definition pack_init (size : Z) (chars0 : list glyph_atlas_char_t) : outcome pack_state :=
  let w := if size <? GLYPHGL_ATLAS_WIDTH then GLYPHGL_ATLAS_WIDTH else size in
  let h := if size <? GLYPHGL_ATLAS_HEIGHT then GLYPHGL_ATLAS_HEIGHT else size in
  img ← clear_image (glyph_image_create w h) w h;
  mret {| order_idx := 0;
          pen_x := padding;
          pen_y := padding;
          row_height := 0;
          current_row := [];
          atlas_width := w;
          atlas_height := h;
          atlas_image := img;
          atlas_chars := chars0 |}.

End Pack.

(** ** [glyph_atlas_create] *)

(** The atlas size estimate:
    [next_pow2((int)sqrtf(total_width * max_height) + 256)]. *)
Definition estimate_size (host : host_t) (total_width max_height : Z) : Z :=
  glyph_atlas__next_pow2
    (Int.add (sqrtf_to_int host (Int.mul total_width max_height)) 256).

(** The end of [glyph_atlas_create], from the state in which the packing loop
    was left. *)
Definition finish_atlas (temp_glyphs : list temp_glyph_t) (charset_len : Z)
    (pixel_height_arg : float) (st : pack_state) : glyph_atlas_t :=
  {| image := atlas_image st;
     chars := Some (finish_last_row temp_glyphs st);
     num_chars := charset_len;
     pixel_height := pixel_height_arg |}.

(** [charset] is [None] for a [NULL] pointer.  The result is [None] when the
    packing loop is still running after [fuel] iterations, [Some (Returns atlas)]
    when the call returns [atlas], and [Some WritesOutside] when one of the two
    [memset] calls has stopped it. *)
Definition glyph_atlas_create (host : host_t) (fuel : nat) (font_path : cstring)
    (pixel_height_arg : float) (charset : option cstring)
    (char_type : glyph_encoding_type_t) (use_sdf : bool)
    : option (outcome glyph_atlas_t) :=
  match glyph_ttf_load_font_from_file host font_path with
  | None => Some (Returns atlas_zero)
  | Some ttf_font =>
    let charset := match charset with Some s => s | None => default_charset end in
    let charset_len := charset_length char_type charset in
    let n := Z.to_nat charset_len in
    match malloc_chars host with
    | None =>
      Some (Returns {| image := image_zero; chars := None; num_chars := charset_len;
                       pixel_height := pixel_height_arg |})
    | Some fresh =>
      if negb (malloc_temp_glyphs host) then
        Some (Returns {| image := image_zero; chars := None; num_chars := charset_len;
                         pixel_height := pixel_height_arg |})
      else
        let rs := rasterize_all host ttf_font pixel_height_arg charset char_type use_sdf
                                (map fresh (seq 0 n)) n in
        if negb (malloc_glyph_order host) then
          Some (Returns {| image := image_zero; chars := None; num_chars := charset_len;
                           pixel_height := pixel_height_arg |})
        else
          let temp_glyphs := rs_temp_glyphs rs in
          let glyph_order := sort_glyph_order temp_glyphs n in
          let size := estimate_size host (rs_total_width rs) (rs_max_height rs) in
          match pack_init size (rs_chars rs) with
          | Returns st0 =>
            match pack_loop temp_glyphs glyph_order n fuel st0 with
            | None => None
            | Some (Returns st) =>
              Some (Returns (finish_atlas temp_glyphs charset_len pixel_height_arg st))
            | Some ReadsNull => Some ReadsNull
            | Some ReadsOutside => Some ReadsOutside
            | Some WritesOutside => Some WritesOutside
            end
          | ReadsNull => Some ReadsNull
          | ReadsOutside => Some ReadsOutside
          | WritesOutside => Some WritesOutside
          end
    end
  end.

(** The bitmaps [glyph_atlas_create] has obtained and not freed when it
    returns.  The loop at the end of the function frees every bitmap, and the
    returns before the rasterisation loop have none to free.  The return after
    a failed allocation of [glyph_order] frees [chars], [temp_glyphs] and the
    font, and leaves the bitmaps whose pointers [temp_glyphs] held. *)
Definition glyph_atlas_create_unfreed (host : host_t) (font_path : cstring)
    (pixel_height_arg : float) (charset : option cstring)
    (char_type : glyph_encoding_type_t) (use_sdf : bool) : list N :=
  match glyph_ttf_load_font_from_file host font_path with
  | None => []
  | Some ttf_font =>
    let charset := match charset with Some s => s | None => default_charset end in
    let n := Z.to_nat (charset_length char_type charset) in
    match malloc_chars host with
    | None => []
    | Some fresh =>
      if negb (malloc_temp_glyphs host) then []
      else
        let rs := rasterize_all host ttf_font pixel_height_arg charset char_type use_sdf
                                (map fresh (seq 0 n)) n in
        if negb (malloc_glyph_order host) then omap tg_bitmap (rs_temp_glyphs rs)
        else []
    end
  end.

(** ** [glyph_atlas_find_char] *)

(** What the lookup hands back: [NULL], a pointer to [chars[i]], or a read
    outside the [chars] array (which the C code would perform if it got there). *)
Inductive find_result : Type :=
  | FoundNull
  | FoundAt (i : nat)
  | ReadOutside (i : nat).

(** [for (i = 0; i < num_chars; i++)], from [i] on, with [left] iterations to go. *)
Fixpoint find_char_loop (cs : list glyph_atlas_char_t) (codepoint : Z)
    (i left : nat) : find_result :=
  match left with
  | O => FoundNull
  | S left' =>
    match cs !! i with
    | None => ReadOutside i
    | Some c =>
      if ch_codepoint c =? codepoint then FoundAt i
      else find_char_loop cs codepoint (S i) left'
    end
  end.

(** [atlas] is [None] for a [NULL] pointer. *)
Definition glyph_atlas_find_char (atlas : option glyph_atlas_t) (codepoint : Z)
    : find_result :=
  match atlas with
  | None => FoundNull
  | Some a =>
    match chars a with
    | None => FoundNull
    | Some cs => find_char_loop cs codepoint 0 (Z.to_nat (num_chars a))
    end
  end.

(** ** Calls into the environment

    The rest of [glyph_atlas.h] and the renderer of [glyph.h] work through the
    allocator, stdio, the image writers and OpenGL, none of which is among the
    sources.  Their results are taken from an [env_t]; a function that calls
    them returns its result together with the calls it made, in order.  Calls
    that only bind or configure GL state, and the pixel and vertex data, are
    left out. *)

Definition sizeof_float : Z := 4.

(** [glyph_effect_type_t], glyph_effect.h. *)
Inductive glyph_effect_type_t : Type :=
  | GLYPH_EFFECT_NONE
  | GLYPH_EFFECT_GLOW
  | GLYPH_EFFECT_RAINBOW
  | GLYPH_EFFECT_OUTLINE
  | GLYPH_EFFECT_SHADOW
  | GLYPH_EFFECT_WAVE
  | GLYPH_EFFECT_GRADIENT
  | GLYPH_EFFECT_NEON.

(** A non-[NULL] [const char*] to GLSL source, by the string it points to:
    the two default sources of glyph_gl.h, the seven fragment sources that
    glyph_effect.h builds in its static buffers, or a string of the caller. *)
Inductive shader_source : Type :=
  | vertex_shader_source_cached
  | fragment_shader_source_cached
  | glow_fragment_shader
  | rainbow_fragment_shader
  | outline_fragment_shader
  | shadow_fragment_shader
  | wave_fragment_shader
  | gradient_fragment_shader
  | neon_fragment_shader
  | caller_source (src : cstring).

Record glyph_effect_t : Type := {
  effect_type : glyph_effect_type_t;
  vertex_shader : option shader_source;       (* [None] is [NULL] *)
  fragment_shader : option shader_source
}.

(** One line written by [glyph_atlas_save_metadata] or logged by
    [glyph_atlas_print_info], by its format string and arguments. *)
Inductive text_line : Type :=
  | line_title
  | line_pixel_height (h : float)
  | line_atlas_width (w : Z)
  | line_atlas_height (h : Z)
  | line_atlas_size (w h : Z)
  | line_num_chars (n : Z)
  | line_columns
  | line_char (c : glyph_atlas_char_t)
  | line_char_info (ch : Z) (c : glyph_atlas_char_t).

Inductive event : Type :=
  | call_glyph_atlas_create (result : glyph_atlas_t) (unfreed : list N)
  | call_GLYPH_MALLOC (bytes : Z) (result : option N)
  | call_GLYPH_FREE (ptr : N)
  | call_GLYPH_FREE_chars
  | call_glyph_image_free (img : glyph_image_t)
  | call_glyph_write_png (path : cstring) (img : glyph_image_t)
  | call_glyph_write_bmp (path : cstring) (img : glyph_image_t)
  | call_fopen (path : cstring) (opened : bool)
  | call_fprintf (line : text_line)
  | call_fclose
  | call_GLYPH_LOG (line : text_line)
  | call_glGenTextures (id : Z)
  | call_glTexImage2D (width height : Z)
  | call_glDeleteTextures (id : Z)
  | call_glyph__create_program (vs fs : option shader_source) (id : Z)
  | call_glyph__glDeleteProgram (id : Z)
  | call_glyph__glGenVertexArrays (id : Z)
  | call_glyph__glDeleteVertexArrays (id : Z)
  | call_glyph__glGenBuffers (id : Z)
  | call_glyph__glBufferData (bytes : Z)
  | call_glyph__glDeleteBuffers (id : Z).

Record env_t : Type := {
  (* what [glyph_image_free] leaves in the struct *)
  glyph_image_free : glyph_image_t -> glyph_image_t;
  glyph_write_png : cstring -> glyph_image_t -> Z;
  glyph_write_bmp : cstring -> glyph_image_t -> Z;
  (* whether [fopen(path, "w")] opens the file *)
  fopen : cstring -> bool;
  glyph_gl_load_functions : bool;
  (* [GLYPH_MALLOC] for [red_channel] and for [vertex_buffer], by the number of
     bytes asked for: [None] is [NULL], otherwise the address of the block *)
  malloc_red_channel : Z -> option N;
  malloc_vertex_buffer : Z -> option N;
  (* [GLYPH_REALLOC] of the block at an address to a number of bytes *)
  realloc_vertex_buffer : N -> Z -> option N;
  (* the names the [glGen*] calls write *)
  glGenTextures : Z;
  glyph__glGenVertexArrays : Z;
  glyph__glGenBuffers : Z;
  (* the program name, 0 when the shaders do not compile or link *)
  glyph__create_program : option shader_source -> option shader_source -> Z
}.

Definition io (A : Type) : Type := A * list event.

#[global] Instance io_ret : MRet io := fun A a => (a, []).

#[global] Instance io_bind : MBind io :=
  fun A B f m => let '(a, t) := m in let '(b, t') := f a in (b, t ++ t').

(** A call that returns [result]. *)
Definition call {A : Type} (e : event) (result : A) : io A := (result, [e]).

Definition result_of {A : Type} (m : io A) : A := fst m.
Definition calls_of {A : Type} (m : io A) : list event := snd m.

(** ** The rest of the atlas interface *)

(** [glyph_atlas_free]: the struct behind the pointer after the call; [None]
    is a [NULL] pointer. *)
Definition glyph_atlas_free (env : env_t) (atlas : option glyph_atlas_t)
    : io (option glyph_atlas_t) :=
  match atlas with
  | None => mret None
  | Some a =>
    cs ← match chars a with
         | Some _ => call call_GLYPH_FREE_chars None
         | None => mret (chars a)
         end;
    img ← call (call_glyph_image_free (image a)) (glyph_image_free env (image a));
    mret (Some {| image := img; chars := cs; num_chars := 0;
                  pixel_height := pixel_height a |})
  end.

Definition glyph_atlas_save_png (env : env_t) (atlas : option glyph_atlas_t)
    (output_path : cstring) : io Z :=
  match atlas with
  | None => mret (-1)
  | Some a =>
    if negb (img_data (image a)) then mret (-1)
    else call (call_glyph_write_png output_path (image a))
              (glyph_write_png env output_path (image a))
  end.

Definition glyph_atlas_save_bmp (env : env_t) (atlas : option glyph_atlas_t)
    (output_path : cstring) : io Z :=
  match atlas with
  | None => mret (-1)
  | Some a =>
    if negb (img_data (image a)) then mret (-1)
    else call (call_glyph_write_bmp output_path (image a))
              (glyph_write_bmp env output_path (image a))
  end.

(** [for (i = 0; i < num_chars; i++)] of [glyph_atlas_save_metadata], from [i]
    on, with [left] iterations to go. *)
Fixpoint save_metadata_loop (cs : list glyph_atlas_char_t) (i left : nat)
    : io (outcome unit) :=
  match left with
  | O => mret (Returns tt)
  | S left' =>
    match cs !! i with
    | None => mret ReadsOutside
    | Some c => call (call_fprintf (line_char c)) tt;; save_metadata_loop cs (S i) left'
    end
  end.

Definition glyph_atlas_save_metadata (env : env_t) (atlas : option glyph_atlas_t)
    (output_path : cstring) : io (outcome Z) :=
  match atlas with
  | None => mret (Returns (-1))
  | Some a =>
    match chars a with
    | None => mret (Returns (-1))
    | Some cs =>
      f ← call (call_fopen output_path (fopen env output_path)) (fopen env output_path);
      if negb f then mret (Returns (-1))
      else
        call (call_fprintf line_title) tt;;
        call (call_fprintf (line_pixel_height (pixel_height a))) tt;;
        call (call_fprintf (line_atlas_width (img_width (image a)))) tt;;
        call (call_fprintf (line_atlas_height (img_height (image a)))) tt;;
        call (call_fprintf (line_num_chars (num_chars a))) tt;;
        call (call_fprintf line_columns) tt;;
        r ← save_metadata_loop cs 0 (Z.to_nat (num_chars a));
        match r with
        | Returns _ => call call_fclose tt;; mret (Returns 0)
        | ReadsNull => mret ReadsNull
        | ReadsOutside => mret ReadsOutside
        | WritesOutside => mret WritesOutside
        end
    end
  end.

(** [char ch = (c->codepoint >= 32 && c->codepoint < 127) ? c->codepoint : '?']. *)
Definition printable (codepoint : Z) : Z :=
  if (32 <=? codepoint) && (codepoint <? 127) then codepoint else 63.

(** The loop of [glyph_atlas_print_info]; [chars] is read without a test. *)
Fixpoint print_info_loop (cs : option (list glyph_atlas_char_t)) (i left : nat)
    : io (outcome unit) :=
  match left with
  | O => mret (Returns tt)
  | S left' =>
    match cs with
    | None => mret ReadsNull
    | Some l =>
      match l !! i with
      | None => mret ReadsOutside
      | Some c =>
        call (call_GLYPH_LOG (line_char_info (printable (ch_codepoint c)) c)) tt;;
        print_info_loop cs (S i) left'
      end
    end
  end.

Definition glyph_atlas_print_info (atlas : option glyph_atlas_t) : io (outcome unit) :=
  match atlas with
  | None => mret (Returns tt)
  | Some a =>
    call (call_GLYPH_LOG line_title) tt;;
    call (call_GLYPH_LOG (line_atlas_size (img_width (image a)) (img_height (image a)))) tt;;
    call (call_GLYPH_LOG (line_pixel_height (pixel_height a))) tt;;
    call (call_GLYPH_LOG (line_num_chars (num_chars a))) tt;;
    call (call_GLYPH_LOG line_columns) tt;;
    print_info_loop (chars a) 0 (Z.to_nat (num_chars a))
  end.

(** ** Effects, glyph_effect.h *)

(** [glyph__get_glow_vertex_shader]: the default vertex source, cached. *)
Definition glyph__get_glow_vertex_shader : option shader_source :=
  Some vertex_shader_source_cached.

Definition glyph_effect_create_custom (vs fs : option shader_source) : glyph_effect_t :=
  {| effect_type := GLYPH_EFFECT_NONE; vertex_shader := vs; fragment_shader := fs |}.

Definition glyph_effect_create_glow : glyph_effect_t :=
  {| effect_type := GLYPH_EFFECT_GLOW; vertex_shader := glyph__get_glow_vertex_shader;
     fragment_shader := Some glow_fragment_shader |}.

Definition glyph_effect_create_rainbow : glyph_effect_t :=
  {| effect_type := GLYPH_EFFECT_RAINBOW; vertex_shader := glyph__get_glow_vertex_shader;
     fragment_shader := Some rainbow_fragment_shader |}.

Definition glyph_effect_create_outline : glyph_effect_t :=
  {| effect_type := GLYPH_EFFECT_OUTLINE; vertex_shader := glyph__get_glow_vertex_shader;
     fragment_shader := Some outline_fragment_shader |}.

Definition glyph_effect_create_shadow : glyph_effect_t :=
  {| effect_type := GLYPH_EFFECT_SHADOW; vertex_shader := glyph__get_glow_vertex_shader;
     fragment_shader := Some shadow_fragment_shader |}.

Definition glyph_effect_create_wave : glyph_effect_t :=
  {| effect_type := GLYPH_EFFECT_WAVE; vertex_shader := glyph__get_glow_vertex_shader;
     fragment_shader := Some wave_fragment_shader |}.

Definition glyph_effect_create_gradient : glyph_effect_t :=
  {| effect_type := GLYPH_EFFECT_GRADIENT; vertex_shader := glyph__get_glow_vertex_shader;
     fragment_shader := Some gradient_fragment_shader |}.

Definition glyph_effect_create_neon : glyph_effect_t :=
  {| effect_type := GLYPH_EFFECT_NEON; vertex_shader := glyph__get_glow_vertex_shader;
     fragment_shader := Some neon_fragment_shader |}.

(** ** The renderer, glyph.h *)

Definition GLYPHGL_VERTEX_BUFFER_SIZE : Z := 73728.

Definition GLYPHGL_BOLD : Z := Z.shiftl 1 0.
Definition GLYPHGL_ITALIC : Z := Z.shiftl 1 1.
Definition GLYPHGL_UNDERLINE : Z := Z.shiftl 1 2.
Definition GLYPHGL_SDF : Z := Z.shiftl 1 3.

(** A heap block: its address and the number of bytes it was given. *)
Record block_t : Type := {
  block_addr : N;
  block_bytes : Z
}.

(** [glyph_renderer_t], built with [GLYPHGL_MINIMAL] undefined.  The cached
    text colour, three floats that only decide whether a uniform is set again,
    is left out. *)
Record glyph_renderer_t : Type := {
  rn_atlas : glyph_atlas_t;
  rn_texture : Z;
  rn_shader : Z;
  rn_vao : Z;
  rn_vbo : Z;
  rn_vertex_buffer : option block_t;          (* [None] is [NULL] *)
  rn_vertex_buffer_size : Z;
  rn_initialized : Z;
  rn_char_type : glyph_encoding_type_t;
  rn_cached_effects : Z;
  rn_effect : glyph_effect_t
}.

Definition effect_zero : glyph_effect_t :=
  {| effect_type := GLYPH_EFFECT_NONE; vertex_shader := None; fragment_shader := None |}.

(** [glyph_renderer_t renderer = {0}]. *)
Definition renderer_zero : glyph_renderer_t :=
  {| rn_atlas := atlas_zero; rn_texture := 0; rn_shader := 0; rn_vao := 0; rn_vbo := 0;
     rn_vertex_buffer := None; rn_vertex_buffer_size := 0; rn_initialized := 0;
     rn_char_type := GLYPH_ENCODING_NONE; rn_cached_effects := 0;
     rn_effect := effect_zero |}.

(** [unsigned int] arithmetic: [image.width * image.height]. *)
Definition uint_mul (a b : Z) : Z := (a * b) mod 2 ^ 32.

(** [glyph_renderer_create].  [effect] is [None] for a [NULL] pointer.  The
    result is [None] when [glyph_atlas_create] is still in its packing loop
    after [fuel] iterations, and the fault that stopped [glyph_atlas_create]
    when one did. *)
Definition glyph_renderer_create (host : host_t) (env : env_t) (fuel : nat)
    (font_path : cstring) (pixel_height_arg : float) (charset : option cstring)
    (char_type : glyph_encoding_type_t) (effect : option glyph_effect_t)
    (use_sdf : bool) : option (outcome (io glyph_renderer_t)) :=
  let default_effect := effect_zero in
  let effect := match effect with Some e => e | None => default_effect end in
  if negb (glyph_gl_load_functions env) then Some (Returns (mret renderer_zero))
  else
    match glyph_atlas_create host fuel font_path pixel_height_arg charset char_type use_sdf with
    | None => None
    | Some ReadsNull => Some ReadsNull
    | Some ReadsOutside => Some ReadsOutside
    | Some WritesOutside => Some WritesOutside
    | Some (Returns created) =>
      Some (Returns (
        let unfreed := glyph_atlas_create_unfreed host font_path pixel_height_arg charset
                                                  char_type use_sdf in
        atlas ← call (call_glyph_atlas_create created unfreed) created;
        let renderer (atlas : glyph_atlas_t) (texture shader vao vbo : Z)
                     (vertex_buffer : option block_t) (vertex_buffer_size : Z)
                     (cached_effects initialized : Z) :=
          {| rn_atlas := atlas; rn_texture := texture; rn_shader := shader;
             rn_vao := vao; rn_vbo := vbo; rn_vertex_buffer := vertex_buffer;
             rn_vertex_buffer_size := vertex_buffer_size;
             rn_initialized := initialized; rn_char_type := char_type;
             rn_cached_effects := cached_effects; rn_effect := effect |} in
        if match chars atlas with None => true | Some _ => false end
           || negb (img_data (image atlas))
        then mret (renderer atlas 0 0 0 0 None 0 0 0)
        else
          let pixels := uint_mul (img_width (image atlas)) (img_height (image atlas)) in
          red_channel ← call (call_GLYPH_MALLOC pixels (malloc_red_channel env pixels))
                             (malloc_red_channel env pixels);
          match red_channel with
          | None =>
            freed ← glyph_atlas_free env (Some atlas);
            mret (renderer (default atlas freed) 0 0 0 0 None 0 0 0)
          | Some red =>
            texture ← call (call_glGenTextures (glGenTextures env)) (glGenTextures env);
            call (call_glTexImage2D (img_width (image atlas)) (img_height (image atlas))) tt;;
            call (call_GLYPH_FREE red) tt;;
            let vs := match effect_type effect with
                      | GLYPH_EFFECT_NONE => Some vertex_shader_source_cached
                      | _ => vertex_shader effect
                      end in
            let fs := match effect_type effect with
                      | GLYPH_EFFECT_NONE => Some fragment_shader_source_cached
                      | _ => fragment_shader effect
                      end in
            shader ← call (call_glyph__create_program vs fs (glyph__create_program env vs fs))
                          (glyph__create_program env vs fs);
            if shader =? 0 then
              call (call_glDeleteTextures texture) tt;;
              freed ← glyph_atlas_free env (Some atlas);
              mret (renderer (default atlas freed) texture shader 0 0 None 0 0 0)
            else
              vao ← call (call_glyph__glGenVertexArrays (glyph__glGenVertexArrays env))
                         (glyph__glGenVertexArrays env);
              vbo ← call (call_glyph__glGenBuffers (glyph__glGenBuffers env))
                         (glyph__glGenBuffers env);
              call (call_glyph__glBufferData (sizeof_float * GLYPHGL_VERTEX_BUFFER_SIZE)) tt;;
              let vertex_buffer_size := GLYPHGL_VERTEX_BUFFER_SIZE * 4 in
              let bytes := Size.mul sizeof_float vertex_buffer_size in
              vertex_buffer ← call (call_GLYPH_MALLOC bytes (malloc_vertex_buffer env bytes))
                                   (malloc_vertex_buffer env bytes);
              match vertex_buffer with
              | None =>
                call (call_glyph__glDeleteVertexArrays vao) tt;;
                call (call_glyph__glDeleteBuffers vbo) tt;;
                call (call_glDeleteTextures texture) tt;;
                call (call_glyph__glDeleteProgram shader) tt;;
                freed ← glyph_atlas_free env (Some atlas);
                mret (renderer (default atlas freed) texture shader vao vbo None
                               vertex_buffer_size 0 0)
              | Some addr =>
                mret (renderer atlas texture shader vao vbo
                               (Some {| block_addr := addr; block_bytes := bytes |})
                               vertex_buffer_size (-1) 1)
              end
          end))
    end.

(** [glyph_renderer_free]: the struct behind the pointer after the call. *)
Definition glyph_renderer_free (env : env_t) (renderer : option glyph_renderer_t)
    : io (option glyph_renderer_t) :=
  match renderer with
  | None => mret None
  | Some r =>
    if rn_initialized r =? 0 then mret (Some r)
    else
      call (call_glyph__glDeleteVertexArrays (rn_vao r)) tt;;
      call (call_glyph__glDeleteBuffers (rn_vbo r)) tt;;
      call (call_glDeleteTextures (rn_texture r)) tt;;
      call (call_glyph__glDeleteProgram (rn_shader r)) tt;;
      freed ← glyph_atlas_free env (Some (rn_atlas r));
      match rn_vertex_buffer r with
      | Some b => call (call_GLYPH_FREE (block_addr b)) tt
      | None => mret tt
      end;;
      mret (Some {| rn_atlas := default (rn_atlas r) freed; rn_texture := rn_texture r;
                    rn_shader := rn_shader r; rn_vao := rn_vao r; rn_vbo := rn_vbo r;
                    rn_vertex_buffer := rn_vertex_buffer r;
                    rn_vertex_buffer_size := rn_vertex_buffer_size r;
                    rn_initialized := 0; rn_char_type := rn_char_type r;
                    rn_cached_effects := rn_cached_effects r; rn_effect := rn_effect r |})
  end.

(** *** [glyph_renderer_draw_text], with the lookup and the vertex batch *)

(** The bytes of the block behind [vertex_buffer]; none behind [NULL]. *)
Definition buffer_bytes (r : glyph_renderer_t) : Z :=
  match rn_vertex_buffer r with
  | Some b => block_bytes b
  | None => 0
  end.

(** The loop variables that decide what is written where: the index into the
    text and [vertex_count]; with them, the codepoints handed to
    [glyph_atlas_find_char] and the offsets (in floats, from [vertices]) of the
    24-float [memcpy]s made so far, both in order, which the code does not
    store. *)
Record batch_state : Type := {
  bs_i : nat;
  bs_vertex_count : Z;
  bs_writes : list Z;
  bs_drawn : list Z
}.

(** [memcpy(vertices + vertex_count * 4, ..., sizeof(float[24]));
    vertex_count += 6].  The copy stays inside the block when its 96 bytes
    end at or before the end of the block. *)
Definition push_quad (renderer : glyph_renderer_t) (st : batch_state) : outcome batch_state :=
  let offset := Size.mul (bs_vertex_count st) 4 in
  if sizeof_float * (offset + 24) <=? buffer_bytes renderer then
    Returns {| bs_i := bs_i st;
               bs_vertex_count := Size.add (bs_vertex_count st) 6;
               bs_writes := bs_writes st ++ [offset];
               bs_drawn := bs_drawn st |}
  else WritesOutside.

(** The glyph the loop draws for a codepoint: its entry, or the entry of ['?']. *)
Definition draw_lookup (atlas : glyph_atlas_t) (codepoint : Z) : find_result :=
  match glyph_atlas_find_char (Some atlas) codepoint with
  | FoundNull => glyph_atlas_find_char (Some atlas) 63
  | ch => ch
  end.

Definition char_zero : glyph_atlas_char_t :=
  {| ch_codepoint := 0; ch_x := 0; ch_y := 0; ch_width := 0; ch_height := 0;
     ch_xoff := 0; ch_yoff := 0; ch_advance := 0 |}.

(** One iteration of [while (i < text_len)]. *)
Definition draw_text_step (renderer : glyph_renderer_t) (text : cstring) (effects : Z)
    (st : batch_state) : outcome batch_state :=
  let '(codepoint, i) :=
    if is_utf8 (rn_char_type renderer) then glyph_utf8_decode text (bs_i st)
    else (uchar_at text (bs_i st), S (bs_i st)) in
  let st := {| bs_i := i; bs_vertex_count := bs_vertex_count st;
               bs_writes := bs_writes st; bs_drawn := bs_drawn st ++ [codepoint] |} in
  match draw_lookup (rn_atlas renderer) codepoint with
  | ReadOutside _ => ReadsOutside
  | FoundNull => Returns st
  | FoundAt k =>
    let ch := nth k (default [] (chars (rn_atlas renderer))) char_zero in
    if ch_width ch =? 0 then Returns st
    else
      st ← push_quad renderer st;
      st ← (if negb (Z.land effects GLYPHGL_BOLD =? 0) then push_quad renderer st
            else Returns st);
      if negb (Z.land effects GLYPHGL_UNDERLINE =? 0) then push_quad renderer st
      else Returns st
  end.

(** The loop.  Its body has no [break] or [return]; [None] is a run still
    inside it after [fuel] iterations. *)
Fixpoint draw_text_loop (fuel : nat) (renderer : glyph_renderer_t) (text : cstring)
    (effects : Z) (text_len : nat) (st : batch_state) : option (outcome batch_state) :=
  match fuel with
  | O => None
  | S fuel' =>
    if (bs_i st <? text_len)%nat then
      match draw_text_step renderer text effects st with
      | Returns st' => draw_text_loop fuel' renderer text effects text_len st'
      | ReadsNull => Some ReadsNull
      | ReadsOutside => Some ReadsOutside
      | WritesOutside => Some WritesOutside
      end
    else Some (Returns st)
  end.

(** What one call leaves: the renderer struct and, when the loop was run, the
    batch that is uploaded and drawn. *)
Record draw_result : Type := {
  dr_renderer : option glyph_renderer_t;
  dr_batch : option batch_state
}.

(** The buffer test and growth before the loop:
    [required_size = sizeof(float) * 24 * text_len * 3]. *)
Definition required_size (text : cstring) : Z :=
  Size.mul (Size.mul (Size.mul sizeof_float 24) (Z.of_nat (strlen text))) 3.

(** [None]: the realloc failed and the call returns.  A [NULL]
    [vertex_buffer] is passed to realloc as such, which then allocates. *)
Definition grow_vertex_buffer (env : env_t) (renderer : glyph_renderer_t) (text : cstring)
    : option glyph_renderer_t :=
  if required_size text >? rn_vertex_buffer_size renderer then
    let new_size := Size.mul (required_size text) 2 in
    let old := match rn_vertex_buffer renderer with
               | Some b => block_addr b
               | None => 0%N
               end in
    match realloc_vertex_buffer env old new_size with
    | None => None
    | Some addr =>
      Some {| rn_atlas := rn_atlas renderer; rn_texture := rn_texture renderer;
              rn_shader := rn_shader renderer; rn_vao := rn_vao renderer;
              rn_vbo := rn_vbo renderer;
              rn_vertex_buffer := Some {| block_addr := addr; block_bytes := new_size |};
              rn_vertex_buffer_size := new_size;
              rn_initialized := rn_initialized renderer;
              rn_char_type := rn_char_type renderer;
              rn_cached_effects := rn_cached_effects renderer;
              rn_effect := rn_effect renderer |}
    end
  else Some renderer.

Definition set_cached_effects (effects : Z) (r : glyph_renderer_t) : glyph_renderer_t :=
  {| rn_atlas := rn_atlas r; rn_texture := rn_texture r; rn_shader := rn_shader r;
     rn_vao := rn_vao r; rn_vbo := rn_vbo r; rn_vertex_buffer := rn_vertex_buffer r;
     rn_vertex_buffer_size := rn_vertex_buffer_size r;
     rn_initialized := rn_initialized r; rn_char_type := rn_char_type r;
     rn_cached_effects := effects; rn_effect := rn_effect r |}.

(** [glyph_renderer_draw_text] as a whole; [renderer] is [None] for a [NULL]
    pointer.  The result is [None] when the loop is still running after [fuel]
    iterations, and the fault that stopped the loop when one did. *)
Definition glyph_renderer_draw_text (env : env_t) (fuel : nat)
    (renderer : option glyph_renderer_t) (text : cstring) (effects : Z)
    : option (outcome draw_result) :=
  match renderer with
  | None => Some (Returns {| dr_renderer := None; dr_batch := None |})
  | Some r =>
    if rn_initialized r =? 0
    then Some (Returns {| dr_renderer := Some r; dr_batch := None |})
    else
      let r := if negb (rn_cached_effects r =? effects) then set_cached_effects effects r
               else r in
      match grow_vertex_buffer env r text with
      | None => Some (Returns {| dr_renderer := Some r; dr_batch := None |})
      | Some r =>
        match draw_text_loop fuel r text effects (strlen text)
                {| bs_i := 0; bs_vertex_count := 0; bs_writes := []; bs_drawn := [] |} with
        | None => None
        | Some (Returns st) =>
          Some (Returns {| dr_renderer := Some r; dr_batch := Some st |})
        | Some ReadsNull => Some ReadsNull
        | Some ReadsOutside => Some ReadsOutside
        | Some WritesOutside => Some WritesOutside
        end
      end
  end.

(** [glBufferSubData(GL_ARRAY_BUFFER, 0, vertex_count * 4 * sizeof(float), vertices)]:
    the bytes uploaded into the buffer object. *)
Definition upload_bytes (st : batch_state) : Z :=
  Size.mul (Size.mul (bs_vertex_count st) 4) sizeof_float.

(** * Part II: specification predicates and loop invariants *)

(** ** Powers of two *)

(** [covers k x y]: bit [i] of [y] is set exactly when one of the bits
    [i .. i+k-1] of [x] is. *)
Definition covers (k x y : Z) : Prop :=
  forall i, 0 <= i ->
    Z.testbit y i = true <-> exists j, 0 <= j < k /\ Z.testbit x (i + j) = true.

Definition smear_all (x : Z) : Z :=
  smear 16 (smear 8 (smear 4 (smear 2 (smear 1 x)))).

(** ** Well-formed UTF-8 *)

(** A complete 1- to 4-byte sequence starts at byte [i] of [str]: a lead byte
    of one of the four classes, followed inside the string by as many bytes of
    the form [10xxxxxx] as the lead byte announces. *)
Definition utf8_sequence_at (str : cstring) (i : nat) : bool :=
  let c := uchar_at str i in
  let cont k := Z.land (uchar_at str (k + i)) 0xC0 =? 0x80 in
  (i <? strlen str)%nat &&
  (if c <? 0x80 then true
   else if Z.land c 0xE0 =? 0xC0 then
     (1 + i <? strlen str)%nat && cont 1%nat
   else if Z.land c 0xF0 =? 0xE0 then
     (2 + i <? strlen str)%nat && cont 1%nat && cont 2%nat
   else if Z.land c 0xF8 =? 0xF0 then
     (3 + i <? strlen str)%nat && cont 1%nat && cont 2%nat && cont 3%nat
   else false).

(** ** Atlas lookup *)

(** The entries an atlas carries: the first [num_chars] cells of [chars], none
    for a [NULL] atlas or a [NULL] array. *)
Definition atlas_entries (atlas : option glyph_atlas_t) : list glyph_atlas_char_t :=
  match atlas with
  | Some a =>
    match chars a with
    | Some cs => take (Z.to_nat (num_chars a)) cs
    | None => []
    end
  | None => []
  end.

(** The [chars] array has room for the [num_chars] entries the atlas declares. *)
Definition chars_allocated (atlas : option glyph_atlas_t) : Prop :=
  match atlas with
  | Some a =>
    match chars a with
    | Some cs => (Z.to_nat (num_chars a) <= length cs)%nat
    | None => True
    end
  | None => True
  end.

(** No cell of [cs] with an index in [[i, k)] carries the codepoint. *)
Definition no_match_between (cs : list glyph_atlas_char_t) (codepoint : Z)
    (i k : nat) : Prop :=
  forall j c, (i <= j < k)%nat -> cs !! j = Some c -> ch_codepoint c <> codepoint.

(** ** The charset *)

(** The codepoints of a charset, as the specification has them: decoded one
    UTF-8 sequence after the other up to the end of the string when the
    encoding is UTF8, one per byte otherwise. *)
Fixpoint utf8_codepoints (fuel : nat) (charset : cstring) (idx : nat) : list Z :=
  match fuel with
  | O => []
  | S fuel' =>
    if (idx <? strlen charset)%nat then
      fst (glyph_atlas_utf8_decode charset idx)
        :: utf8_codepoints fuel' charset (snd (glyph_atlas_utf8_decode charset idx))
    else []
  end.

Definition charset_codepoints (char_type : glyph_encoding_type_t) (charset : cstring)
    : list Z :=
  if is_utf8 char_type then utf8_codepoints (strlen charset) charset 0
  else map (uchar_at charset) (seq 0 (strlen charset)).

(** The number of distinct codepoints of a charset. *)
Definition distinct_codepoints (char_type : glyph_encoding_type_t) (charset : cstring)
    : nat :=
  length (remove_dups (charset_codepoints char_type charset)).

(** The codepoints the rasterisation loop reads in [m] iterations, starting at
    iteration [s] with [charset_idx = idx]. *)
Fixpoint read_codepoints (char_type : glyph_encoding_type_t) (charset : cstring)
    (m s idx : nat) : list Z :=
  match m with
  | O => []
  | S m' =>
    let d := if is_utf8 char_type then glyph_atlas_utf8_decode charset idx
             else (uchar_at charset s, idx) in
    fst d :: read_codepoints char_type charset m' (S s) (snd d)
  end.

(** The codepoint iteration [i] of the rasterisation loop reads in state
    [st], and [charset_idx] after it. *)
Definition read_at (charset : cstring) (char_type : glyph_encoding_type_t)
    (st : raster_state) (i : nat) : Z * nat :=
  if is_utf8 char_type then glyph_atlas_utf8_decode charset (rs_charset_idx st)
  else (uchar_at charset i, rs_charset_idx st).

(** The charset [glyph_atlas_create] works on. *)
Definition charset_or_default (charset : option cstring) : cstring :=
  match charset with Some s => s | None => default_charset end.

(** The font has no glyph for the codepoint, and the codepoint is no space. *)
Definition missing_glyph (font : glyph_font_t) (codepoint : Z) : bool :=
  (glyph_ttf_find_glyph_index font codepoint =? 0) && negb (codepoint =? 32).

(** What iteration [i] of the rasterisation loop does to [atlas.chars[i]] when
    it has read [codepoint]: the codepoint is stored; the advance is stored
    on the regular path only. *)
Definition raster_entry (font : glyph_font_t) (pixel_height_arg : float) (codepoint : Z)
    (c : glyph_atlas_char_t) : glyph_atlas_char_t :=
  if missing_glyph font codepoint then set_codepoint codepoint c
  else
    set_advance
      (float_to_int
         (Float.mul (Float.of_int (glyph_ttf_get_glyph_advance font
                                     (glyph_ttf_find_glyph_index font codepoint)))
                    (scale font pixel_height_arg)))
      (set_codepoint codepoint c).

(** A field of an entry that the packing loop never assigns. *)
Definition packer_keeps {B : Type} (f : glyph_atlas_char_t -> B) : Prop :=
  (forall y c, f (set_y y c) = f c) /\
  (forall x y w h xo yo c, f (set_geometry x y w h xo yo c) = f c).

(** ** The glyph order *)

Section SortSpec.

Variable temp_glyphs : list temp_glyph_t.

(** The order the sort is after: no glyph is taller than one before it. *)
Definition taller_first (a b : nat) : Prop :=
  height_of temp_glyphs b <= height_of temp_glyphs a.

(** Glyphs of equal height keep their charset order. *)
Definition ties_in_charset_order (a b : nat) : Prop :=
  height_of temp_glyphs a = height_of temp_glyphs b -> (a < b)%nat.

(** The inner loop, read off the list: [k] compare-and-swap steps that carry
    the shorter glyph to the right. *)
Fixpoint bubble (k : nat) (l : list nat) : list nat :=
  match k, l with
  | S k', a :: b :: rest =>
    if height_of temp_glyphs a <? height_of temp_glyphs b
    then b :: bubble k' (a :: rest) else a :: bubble k' (b :: rest)
  | _, _ => l
  end.

(** State of the array after [i] passes of the outer loop. *)
Definition after_passes (n i : nat) (l : list nat) : Prop :=
  Permutation (seq 0 n) l /\
  StronglySorted ties_in_charset_order l /\
  exists pre suf,
    l = pre ++ suf /\ length suf = i /\
    StronglySorted taller_first suf /\
    (forall a b, a ∈ pre -> b ∈ suf -> taller_first a b).

End SortSpec.

(** ** Packing *)

(** Height the first [k] glyphs of the order take when every packed glyph
    opens a row of its own: each row is the glyph and the padding under it. *)
Fixpoint stacked_rows (temp_glyphs : list temp_glyph_t) (glyph_order : list nat)
    (k : nat) : Z :=
  match k with
  | O => 0
  | S k' =>
    stacked_rows temp_glyphs glyph_order k' +
    (let g := glyph temp_glyphs (nth k' glyph_order 0%nat) in
     if is_empty_glyph g then 0 else tg_height g + padding)
  end.

(** Atlas height under which no glyph of the set can fail the vertical test. *)
Definition needed_height (temp_glyphs : list temp_glyph_t) (glyph_order : list nat)
    (n : nat) : Z :=
  2 * padding + stacked_rows temp_glyphs glyph_order n.

(** The loop variables at the start of a pass over an atlas of [size] x [size]. *)
Definition pass_start (size : Z) (cs : list glyph_atlas_char_t) : pack_state :=
  {| order_idx := 0; pen_x := padding; pen_y := padding; row_height := 0;
     current_row := []; atlas_width := size; atlas_height := size;
     atlas_image := glyph_image_create size size; atlas_chars := cs |}.

(** The side of the first atlas: the estimate, or the minimum size when the
    estimate is smaller. *)
Definition first_side (size : Z) : Z :=
  if size <? GLYPHGL_ATLAS_WIDTH then GLYPHGL_ATLAS_WIDTH else size.

(** The loop variables after a restart, when the [memset] has stayed inside
    the new image. *)
Definition restarted (st : pack_state) : pack_state :=
  {| order_idx := 0; pen_x := padding; pen_y := padding; row_height := 0;
     current_row := [];
     atlas_width := Int.mul (atlas_width st) 2;
     atlas_height := Int.mul (atlas_height st) 2;
     atlas_image := glyph_image_create (Int.mul (atlas_width st) 2)
                                       (Int.mul (atlas_height st) 2);
     atlas_chars := atlas_chars st |}.

(** The [memset] of an atlas of [size] x [size] stays inside its image. *)
Definition clears (size : Z) : bool :=
  Size.wrap (Int.mul (Int.mul size size) 3) <=? size * size * 3.

(** The glyph the iteration is at has a bitmap and, after the row test, fails
    the vertical test [pen_y + height + padding > atlas_height]. *)
Definition fails_vertical_fit (temp_glyphs : list temp_glyph_t) (glyph_order : list nat)
    (st : pack_state) : bool :=
  let g := glyph temp_glyphs (nth (order_idx st) glyph_order 0%nat) in
  negb (is_empty_glyph g) &&
  (let st1 :=
     if Int.add (Int.add (pen_x st) (tg_width g)) padding >? atlas_width st
     then close_row temp_glyphs st else st in
   Int.add (Int.add (pen_y st1) (tg_height g)) padding >? atlas_height st1).

(** What holds of the loop variables at the top of every iteration, when the
    atlas started [h0] pixels high. *)
Definition pack_inv (temp_glyphs : list temp_glyph_t) (glyph_order : list nat)
    (n : nat) (h0 : Z) (st : pack_state) : Prop :=
  (order_idx st <= n)%nat /\
  padding <= pen_y st /\
  0 <= row_height st /\
  pen_y st + row_height st <= padding + stacked_rows temp_glyphs glyph_order (order_idx st) /\
  0 < atlas_height st <= Int.max_signed /\
  atlas_width st = atlas_height st /\
  atlas_image st = glyph_image_create (atlas_width st) (atlas_height st) /\
  exists k, 0 <= k /\ atlas_height st = h0 * 2 ^ k.

(** Iterations the loop may still run: restarts left, each a full pass, and
    the rest of the current pass. *)
Definition pack_measure (temp_glyphs : list temp_glyph_t) (glyph_order : list nat)
    (n : nat) (st : pack_state) : nat :=
  (Z.to_nat (needed_height temp_glyphs glyph_order n - atlas_height st) * S n
   + (n - order_idx st))%nat.

(** The six fields the packer assigns are all zero. *)
Definition zero_geometry (c : glyph_atlas_char_t) : Prop :=
  ch_x c = 0 /\ ch_y c = 0 /\ ch_width c = 0 /\ ch_height c = 0 /\
  ch_xoff c = 0 /\ ch_yoff c = 0.

(** At the top of every iteration: the current row holds packed glyphs only,
    and the glyphs without bitmap that the pass has gone by have a cleared
    entry. *)
Definition empty_cleared (temp_glyphs : list temp_glyph_t) (glyph_order : list nat)
    (st : pack_state) : Prop :=
  (forall r, r ∈ current_row st ->
     is_empty_glyph (glyph temp_glyphs (rg_index r)) = false) /\
  (forall p i c, (p < order_idx st)%nat -> glyph_order !! p = Some i ->
     is_empty_glyph (glyph temp_glyphs i) = true ->
     atlas_chars st !! i = Some c -> zero_geometry c).

(** ** Rectangles *)

(** The pixel rectangles [[x, x+width) x [y, y+height)] of two entries have no
    pixel in common. *)
Definition rects_disjoint (a b : glyph_atlas_char_t) : Prop :=
  ch_x a + ch_width a <= ch_x b \/ ch_x b + ch_width b <= ch_x a \/
  ch_y a + ch_height a <= ch_y b \/ ch_y b + ch_height b <= ch_y a.

(** The rectangle of an entry lies in [[0, width) x [0, height)] of the image. *)
Definition rect_inside (img : glyph_image_t) (c : glyph_atlas_char_t) : Prop :=
  0 <= ch_x c /\ ch_x c + ch_width c <= img_width img /\
  0 <= ch_y c /\ ch_y c + ch_height c <= img_height img.

(** The packing invariant of the specification. *)
Definition well_packed (atlas : glyph_atlas_t) : Prop :=
  forall cs, chars atlas = Some cs ->
    (forall i j a b, i <> j -> cs !! i = Some a -> cs !! j = Some b ->
       ch_width a <> 0 -> ch_width b <> 0 -> rects_disjoint a b) /\
    (forall i a, cs !! i = Some a -> ch_width a <> 0 -> rect_inside (image atlas) a).

(** The claim about [num_chars], for one call. *)
Definition num_chars_is_distinct_count (host : host_t) (fuel : nat) (font_path : cstring)
    (pixel_height_arg : float) (charset : cstring) (char_type : glyph_encoding_type_t)
    (use_sdf : bool) : Prop :=
  forall atlas,
    glyph_atlas_create host fuel font_path pixel_height_arg (Some charset) char_type use_sdf
      = Some (Returns atlas) ->
    num_chars atlas = Z.of_nat (distinct_codepoints char_type charset).

(** The state of the rasterisation loop when it is left, for a [chars] block
    whose cells held [fresh]. *)
Definition rasterized (host : host_t) (font : glyph_font_t) (pixel_height_arg : float)
    (charset : cstring) (char_type : glyph_encoding_type_t) (use_sdf : bool)
    (fresh : nat -> glyph_atlas_char_t) : raster_state :=
  let n := Z.to_nat (charset_length char_type charset) in
  rasterize_all host font pixel_height_arg charset char_type use_sdf
                (map fresh (seq 0 n)) n.

(** ** Sample inputs *)

(** A font of 2048 units per em with glyphs for A, B and C only, of the given
    bitmap size; the three bitmaps sit at different heights over the baseline. *)
Definition sample_font (width height : Z) : glyph_font_t :=
  {| glyph_ttf_scale_for_pixel_height := fun p => Float.div p (Float.of_int 2048);
     glyph_ttf_find_glyph_index := fun cp =>
       if cp =? 65 then 1 else if cp =? 66 then 2 else if cp =? 67 then 3 else 0;
     glyph_ttf_get_glyph_bitmap := fun glyph_idx _ _ =>
       {| r_bitmap := Some (Z.to_N (4096 * glyph_idx));
          r_width := width; r_height := height; r_xoff := 0;
          r_yoff := if glyph_idx =? 1 then 0 else if glyph_idx =? 2 then 20 else 12 |};
     glyph_ttf_get_glyph_advance := fun _ => 1024 |}.

(** A font of 1000 units per em whose glyphs all advance by 1500 units.  The
    scale for a pixel height is not a binary fraction: scale and product are
    each rounded to a [float] before the product is truncated to an [int]. *)
Definition coarse_font (width height : Z) : glyph_font_t :=
  {| glyph_ttf_scale_for_pixel_height := fun p => Float.div p (Float.of_int 1000);
     glyph_ttf_find_glyph_index := fun cp =>
       if cp =? 65 then 1 else if cp =? 66 then 2 else if cp =? 67 then 3 else 0;
     glyph_ttf_get_glyph_bitmap := fun glyph_idx _ _ =>
       {| r_bitmap := Some (Z.to_N (4096 * glyph_idx));
          r_width := width; r_height := height; r_xoff := 0; r_yoff := 0 |};
     glyph_ttf_get_glyph_advance := fun _ => 1500 |}.

(** What a cell of a fresh block happens to hold. *)
Definition stale_cell (k : nat) : glyph_atlas_char_t :=
  {| ch_codepoint := 7777; ch_x := 7777; ch_y := 7777; ch_width := 7777;
     ch_height := 7777; ch_xoff := 7777; ch_yoff := 7777; ch_advance := 7777 |}.

(** A host on which the font loads; the three flags say which allocations
    succeed. *)
Definition sample_host (font : glyph_font_t) (chars_ok temp_ok order_ok : bool) : host_t :=
  {| glyph_ttf_load_font_from_file := fun _ => Some font;
     malloc_chars := if chars_ok then Some stale_cell else None;
     malloc_temp_glyphs := temp_ok;
     malloc_glyph_order := order_ok;
     glyph_ttf_get_glyph_sdf_bitmap := fun b _ _ _ => Some (b + 1)%N;
     sqrtf_to_int := Z.sqrt |}.

Definition font_path : cstring := list_byte_of_string "font.ttf".

(** The three glyphs of [sample_font 1000 10] as the rasterisation loop leaves
    them in [temp_glyphs]. *)
Definition sample_glyphs : list temp_glyph_t :=
  [ {| tg_bitmap := Some 4096%N; tg_width := 1000; tg_height := 10; tg_xoff := 0;
       tg_yoff := 0; tg_advance := 16; tg_is_default := 0 |};
    {| tg_bitmap := Some 8192%N; tg_width := 1000; tg_height := 10; tg_xoff := 0;
       tg_yoff := 20; tg_advance := 16; tg_is_default := 0 |};
    {| tg_bitmap := Some 12288%N; tg_width := 1000; tg_height := 10; tg_xoff := 0;
       tg_yoff := 12; tg_advance := 16; tg_is_default := 0 |} ].

(** ** Progress of the text decoder *)

(** The byte is the lead byte of a 2-, 3- or 4-byte sequence. *)
Definition multibyte_lead (c : Z) : bool :=
  (Z.land c 0xE0 =? 0xC0) || (Z.land c 0xF0 =? 0xE0) || (Z.land c 0xF8 =? 0xF0).

(** Where [glyph_utf8_decode] leaves the index as it is: at or after the end
    of the string, and at a lead byte whose sequence is cut short or holds a
    byte that is no continuation byte. *)
Definition stalls_at (str : cstring) (i : nat) : bool :=
  (strlen str <=? i)%nat ||
  (negb (uchar_at str i <? 0x80) && multibyte_lead (uchar_at str i)
   && negb (utf8_sequence_at str i)).

(** Decoding [text] from byte [i] on with the text decoder never meets a
    position where it stalls. *)
Fixpoint utf8_text_ok (fuel : nat) (text : cstring) (i : nat) : bool :=
  match fuel with
  | O => (strlen text <=? i)%nat
  | S fuel' =>
    if (i <? strlen text)%nat
    then negb (stalls_at text i) && utf8_text_ok fuel' text (snd (glyph_utf8_decode text i))
    else true
  end.

(** The text can be drawn: any text when one byte is one character, a text
    without a truncated or broken multi-byte sequence when it is UTF-8. *)
Definition drawable_text (char_type : glyph_encoding_type_t) (text : cstring) : bool :=
  if is_utf8 char_type then utf8_text_ok (strlen text) text 0 else true.

(** Every byte of the text is below 0x80. *)
Definition seven_bit (text : cstring) : bool :=
  forallb (fun i => uchar_at text i <? 0x80) (seq 0 (strlen text)).

(** ** The vertex batch *)

(** The block behind [vertex_buffer] has at least [vertex_buffer_size] bytes. *)
Definition buffer_holds (r : glyph_renderer_t) : Prop :=
  0 <= rn_vertex_buffer_size r <= buffer_bytes r.

(** A [memcpy] of 24 floats to [vertices + w] stays inside the block. *)
Definition write_inside (r : glyph_renderer_t) (w : Z) : Prop :=
  0 <= w /\ sizeof_float * (w + 24) <= buffer_bytes r.

(** Quads a glyph takes in the batch: itself, its bold copy, its underline. *)
Definition quads_per_glyph (effects : Z) : Z :=
  1 + (if Z.land effects GLYPHGL_BOLD =? 0 then 0 else 1)
    + (if Z.land effects GLYPHGL_UNDERLINE =? 0 then 0 else 1).

(** The codepoint is drawn: it, or ['?'] in its place, has an entry of
    non-zero width. *)
Definition visible (atlas : glyph_atlas_t) (codepoint : Z) : bool :=
  match draw_lookup atlas codepoint with
  | FoundAt k => negb (ch_width (nth k (default [] (chars atlas)) char_zero) =? 0)
  | _ => false
  end.

(** What holds of the batch at the top of every iteration that is followed by
    a return. *)
Definition batch_inv (text : cstring) (st : batch_state) : Prop :=
  (bs_i st <= strlen text)%nat /\
  0 <= bs_vertex_count st <= 18 * Z.of_nat (bs_i st) /\
  Forall (fun w => 0 <= w /\ w + 24 <= 4 * bs_vertex_count st) (bs_writes st).

(** ** Resources *)

(** What a renderer can hold: the two blocks of its atlas, glyph bitmaps and
    heap blocks by address, GL objects by name.  The font, [temp_glyphs],
    [glyph_order], [current_row] and the images of the passes before the last
    are obtained and given back inside [glyph_atlas_create] on each of its
    paths and are not listed. *)
Inductive resource : Type :=
  | AtlasChars
  | AtlasImage
  | Bitmap (addr : N)
  | Heap (addr : N)
  | Texture (id : Z)
  | Program (id : Z)
  | VertexArray (id : Z)
  | Buffer (id : Z).

#[global] Instance resource_eq_dec : EqDecision resource.
Proof. solve_decision. Defined.

(** The resources a call hands out. *)
Definition acquired (e : event) : list resource :=
  match e with
  | call_glyph_atlas_create a unfreed =>
    (match chars a with Some _ => [AtlasChars] | None => [] end) ++
    (if img_data (image a) then [AtlasImage] else []) ++
    map Bitmap unfreed
  | call_GLYPH_MALLOC _ (Some addr) => [Heap addr]
  | call_glGenTextures id => [Texture id]
  | call_glyph__create_program _ _ id => if id =? 0 then [] else [Program id]
  | call_glyph__glGenVertexArrays id => [VertexArray id]
  | call_glyph__glGenBuffers id => [Buffer id]
  | _ => []
  end.

(** The resource a call gives back. *)
Definition released (e : event) : option resource :=
  match e with
  | call_GLYPH_FREE addr => Some (Heap addr)
  | call_GLYPH_FREE_chars => Some AtlasChars
  | call_glyph_image_free img => if img_data img then Some AtlasImage else None
  | call_glDeleteTextures id => Some (Texture id)
  | call_glyph__glDeleteProgram id => Some (Program id)
  | call_glyph__glDeleteVertexArrays id => Some (VertexArray id)
  | call_glyph__glDeleteBuffers id => Some (Buffer id)
  | _ => None
  end.

(** [held] without one occurrence of [x]; [None] when [x] is not held. *)
Fixpoint give_back (x : resource) (held : list resource) : option (list resource) :=
  match held with
  | [] => None
  | y :: rest =>
    if decide (x = y) then Some rest
    else match give_back x rest with
         | Some rest' => Some (y :: rest')
         | None => None
         end
  end.

(** The resources held after a sequence of calls, in the order they were
    acquired; [None] when a call gives back something that is not held. *)
Fixpoint held_after (calls : list event) (held : list resource) : option (list resource) :=
  match calls with
  | [] => Some held
  | e :: rest =>
    match released e with
    | Some x =>
      match give_back x held with
      | Some held' => held_after rest (held' ++ acquired e)
      | None => None
      end
    | None => held_after rest (held ++ acquired e)
    end
  end.

(** The resources an initialised renderer names. *)
Definition owned (r : glyph_renderer_t) : list resource :=
  [AtlasChars; AtlasImage; Texture (rn_texture r); Program (rn_shader r);
   VertexArray (rn_vao r); Buffer (rn_vbo r)] ++
  match rn_vertex_buffer r with
  | Some b => [Heap (block_addr b)]
  | None => []
  end.

(** ** The metadata file *)

(** The lines [glyph_atlas_save_metadata] writes for an atlas. *)
Definition metadata_lines (a : glyph_atlas_t) (cs : list glyph_atlas_char_t)
    : list text_line :=
  [line_title; line_pixel_height (pixel_height a);
   line_atlas_width (img_width (image a)); line_atlas_height (img_height (image a));
   line_num_chars (num_chars a); line_columns] ++
  map line_char cs.

(** ** Where packed glyphs lie *)

(** The entry of a packed glyph carries the size and offsets of its bitmap
    and lies, padding included, between the left and the right border of an
    image [width] pixels wide. *)
Definition placed_entry (g : temp_glyph_t) (width : Z) (c : glyph_atlas_char_t) : Prop :=
  ch_width c = tg_width g /\ ch_height c = tg_height g /\
  ch_xoff c = tg_xoff g /\ ch_yoff c = tg_yoff g /\
  padding <= ch_x c /\ ch_x c + ch_width c + padding <= width.

(** At the top of every iteration: the pen is between the borders, and the
    glyphs with a bitmap that the pass has gone by are placed. *)
Definition placed_inv (temp_glyphs : list temp_glyph_t) (glyph_order : list nat)
    (st : pack_state) : Prop :=
  padding <= pen_x st <= atlas_width st + padding /\
  forall p i c, (p < order_idx st)%nat -> glyph_order !! p = Some i ->
    is_empty_glyph (glyph temp_glyphs i) = false ->
    atlas_chars st !! i = Some c ->
    placed_entry (glyph temp_glyphs i) (atlas_width st) c.

(** The fields of an entry that the row alignment leaves alone. *)
Definition entry_box (c : glyph_atlas_char_t) : Z * Z * Z * Z * Z :=
  (ch_x c, ch_width c, ch_height c, ch_xoff c, ch_yoff c).

(** ** Sample environment *)

(** An environment in which every call succeeds. *)
Definition sample_env : env_t :=
  {| glyph_image_free := fun _ => image_zero;
     glyph_write_png := fun _ _ => 0;
     glyph_write_bmp := fun _ _ => 0;
     fopen := fun _ => true;
     glyph_gl_load_functions := true;
     malloc_red_channel := fun _ => Some 4096%N;
     malloc_vertex_buffer := fun _ => Some 8192%N;
     realloc_vertex_buffer := fun _ _ => Some 16384%N;
     glGenTextures := 1;
     glyph__glGenVertexArrays := 1;
     glyph__glGenBuffers := 1;
     glyph__create_program := fun _ _ => 3 |}.

(** The renderer [glyph_renderer_create] returns in [sample_env] for the
    charset "AB?" of [sample_font 20 30], one byte per character. *)
Definition sample_renderer : glyph_renderer_t :=
  match glyph_renderer_create (sample_host (sample_font 20 30) true true true) sample_env 8
          font_path (Float.of_int 32) (Some (list_byte_of_string "AB?")) GLYPH_ENCODING_ASCII
          None false with
  | Some (Returns m) => result_of m
  | _ => renderer_zero
  end.

(** The same renderer for UTF-8 text.  ['?'] has no glyph in [sample_font]:
    its entry has width 0, and neither ['?'] nor a codepoint that falls back
    to it is drawn. *)
Definition sample_utf8_renderer : glyph_renderer_t :=
  match glyph_renderer_create (sample_host (sample_font 20 30) true true true) sample_env 8
          font_path (Float.of_int 32) (Some (list_byte_of_string "AB?")) GLYPH_ENCODING_UTF8
          None false with
  | Some (Returns m) => result_of m
  | _ => renderer_zero
  end.

(** A font whose only glyph is that of ['?']. *)
Definition question_font (width height : Z) : glyph_font_t :=
  {| glyph_ttf_scale_for_pixel_height := fun p => Float.div p (Float.of_int 2048);
     glyph_ttf_find_glyph_index := fun cp => if cp =? 63 then 1 else 0;
     glyph_ttf_get_glyph_bitmap := fun glyph_idx _ _ =>
       {| r_bitmap := Some (Z.to_N (4096 * glyph_idx));
          r_width := width; r_height := height; r_xoff := 0; r_yoff := 0 |};
     glyph_ttf_get_glyph_advance := fun _ => 1024 |}.

(** The renderer for the UTF-8 charset "?" of [question_font 20 30]: every
    other codepoint falls back to ['?'] and is drawn as ['?']. *)
Definition fallback_renderer : glyph_renderer_t :=
  match glyph_renderer_create (sample_host (question_font 20 30) true true true) sample_env 8
          font_path (Float.of_int 32) (Some (list_byte_of_string "?")) GLYPH_ENCODING_UTF8
          None false with
  | Some (Returns m) => result_of m
  | _ => renderer_zero
  end.

(** What the rasterisation loop leaves in [temp_glyphs[i]] when iteration [i]
    has read [codepoint]. *)
Definition rasterized_glyph (host : host_t) (font : glyph_font_t) (pixel_height_arg : float)
    (use_sdf : bool) (codepoint : Z) : temp_glyph_t :=
  if missing_glyph font codepoint then
    {| tg_bitmap := None; tg_width := 0; tg_height := 0; tg_xoff := 0; tg_yoff := 0;
       tg_advance := float_to_int (Float.mul pixel_height_arg Float.half);
       tg_is_default := 0 |}
  else
    let glyph_idx := glyph_ttf_find_glyph_index font codepoint in
    let r := glyph_ttf_get_glyph_bitmap font glyph_idx (scale font pixel_height_arg)
                                        (scale font pixel_height_arg) in
    {| tg_bitmap :=
         match r_bitmap r with
         | Some b =>
           if use_sdf then glyph_ttf_get_glyph_sdf_bitmap host b (r_width r) (r_height r) 4
           else Some b
         | None => None
         end;
       tg_width := r_width r; tg_height := r_height r;
       tg_xoff := r_xoff r; tg_yoff := r_yoff r;
       tg_advance :=
         float_to_int (Float.mul (Float.of_int (glyph_ttf_get_glyph_advance font glyph_idx))
                                 (scale font pixel_height_arg));
       tg_is_default := if use_sdf then 1 else 0 |}.

(** The four size fields of the entry are those of the glyph's bitmap. *)
Definition sized_as (g : temp_glyph_t) (c : glyph_atlas_char_t) : Prop :=
  ch_width c = tg_width g /\ ch_height c = tg_height g /\
  ch_xoff c = tg_xoff g /\ ch_yoff c = tg_yoff g.

(** At the top of every iteration: the glyphs with a bitmap that the pass has
    gone by have entries of their size. *)
Definition sized_inv (temp_glyphs : list temp_glyph_t) (glyph_order : list nat)
    (st : pack_state) : Prop :=
  forall p i c, (p < order_idx st)%nat -> glyph_order !! p = Some i ->
    is_empty_glyph (glyph temp_glyphs i) = false ->
    atlas_chars st !! i = Some c -> sized_as (glyph temp_glyphs i) c.

(** The sides an atlas goes through when it starts at 65536 or more and is
    doubled again and again: the powers of two up to 2^30, then [INT_MIN],
    then 0 for ever. *)
Definition doubled_side (size : Z) : Prop :=
  (exists k, 16 <= k <= 30 /\ size = 2 ^ k) \/ size = - 2 ^ 31 \/ size = 0.

(** The glyph has a bitmap and is too high for any atlas of at most [bound]
    pixels, yet not so high that the vertical test overflows. *)
Definition too_tall (bound : Z) (g : temp_glyph_t) : Prop :=
  is_empty_glyph g = false /\ bound - 2 * padding < tg_height g <= 2 ^ 31 - 13.

(** Two states of the rasterisation loop that differ in [charset_idx] at most. *)
Definition same_rasters (a b : raster_state) : Prop :=
  rs_chars a = rs_chars b /\ rs_temp_glyphs a = rs_temp_glyphs b /\
  rs_total_width a = rs_total_width b /\ rs_max_height a = rs_max_height b.

(** The lines [glyph_atlas_print_info] logs for an atlas. *)
Definition info_lines (a : glyph_atlas_t) (cs : list glyph_atlas_char_t) : list text_line :=
  [line_title; line_atlas_size (img_width (image a)) (img_height (image a));
   line_pixel_height (pixel_height a); line_num_chars (num_chars a); line_columns] ++
  map (fun c => line_char_info (printable (ch_codepoint c)) c) cs.

(** * Part III: proofs *)

(** ** Machine integers *)

Lemma wrap32_small z : Int.in_range z -> Int.wrap32 z = z.
Proof.
  unfold Int.in_range, Int.min_signed, Int.max_signed, Int.wrap32. intros Hz.
  rewrite Z.mod_small; lia.
Qed.

Lemma wrap32_range z : Int.in_range (Int.wrap32 z).
Proof.
  unfold Int.in_range, Int.min_signed, Int.max_signed, Int.wrap32.
  pose proof (Z.mod_pos_bound (z + 2 ^ 31) (2 ^ 32) ltac:(lia)). lia.
Qed.

Ltac int_range := unfold Int.in_range, Int.min_signed, Int.max_signed in *; lia.

(** ** [glyph_atlas__next_pow2] *)

Section NextPow2.

Lemma covers_init x : covers 1 x x.
Proof.
  intros i Hi. split.
  - intros H. exists 0. split; [lia|]. now rewrite Z.add_0_r.
  - intros (j & Hj & H). replace (i + j) with i in H by lia. exact H.
Qed.

Lemma covers_smear k x y :
  0 < k -> covers k x y -> covers (2 * k) x (smear k y).
Proof.
  intros Hk Hc i Hi. unfold smear.
  rewrite Z.lor_spec, Z.shiftr_spec by lia.
  rewrite orb_true_iff, (Hc i Hi), (Hc (i + k)) by lia.
  split.
  - intros [(j & Hj & H) | (j & Hj & H)].
    + exists j. split; [lia | exact H].
    + exists (k + j). split; [lia|]. now replace (i + (k + j)) with (i + k + j) by lia.
  - intros (j & Hj & H).
    destruct (Z_lt_le_dec j k) as [Hlt | Hge].
    + left. exists j. split; [lia | exact H].
    + right. exists (j - k). split; [lia|].
      now replace (i + k + (j - k)) with (i + j) by lia.
Qed.

Lemma covers_smear_all x : covers 32 x (smear_all x).
Proof.
  unfold smear_all.
  apply (covers_smear 16); [lia|]. apply (covers_smear 8); [lia|].
  apply (covers_smear 4); [lia|]. apply (covers_smear 2); [lia|].
  apply (covers_smear 1); [lia|]. apply covers_init.
Qed.

(** On a positive 31-bit value the five statements set every bit below the
    leading one. *)
Lemma smear_all_ones x :
  0 < x < 2 ^ 31 -> smear_all x = Z.ones (Z.log2 x + 1).
Proof.
  intros Hx.
  assert (Hlog : 0 <= Z.log2 x < 31).
  { split; [apply Z.log2_nonneg|]. apply Z.log2_lt_pow2; lia. }
  apply Z.bits_inj'. intros i Hi.
  rewrite Z.testbit_ones_nonneg by lia.
  destruct (Z.ltb_spec i (Z.log2 x + 1)) as [Hlt | Hge].
  - apply (covers_smear_all x i Hi).
    exists (Z.log2 x - i). split; [lia|].
    replace (i + (Z.log2 x - i)) with (Z.log2 x) by lia.
    apply Z.bit_log2. lia.
  - destruct (Z.testbit (smear_all x) i) eqn:E; [|reflexivity].
    apply (covers_smear_all x i Hi) in E. destruct E as (j & Hj & E).
    rewrite Z.bits_above_log2 in E by lia. discriminate.
Qed.

Lemma next_pow2_eq v :
  1 < v <= 2 ^ 30 -> glyph_atlas__next_pow2 v = 2 ^ (Z.log2 (v - 1) + 1).
Proof.
  intros Hv. unfold glyph_atlas__next_pow2, Int.sub, Int.add.
  rewrite (wrap32_small (v - 1)) by int_range.
  change (smear 16 (smear 8 (smear 4 (smear 2 (smear 1 (v - 1))))))
    with (smear_all (v - 1)).
  rewrite smear_all_ones by lia.
  assert (Hlog : 0 <= Z.log2 (v - 1) < 30).
  { split; [apply Z.log2_nonneg|]. apply Z.log2_lt_pow2; lia. }
  rewrite Z.ones_equiv.
  replace (Z.pred (2 ^ (Z.log2 (v - 1) + 1)) + 1) with (2 ^ (Z.log2 (v - 1) + 1)) by lia.
  apply wrap32_small.
  assert (2 ^ (Z.log2 (v - 1) + 1) <= 2 ^ 30) by (apply Z.pow_le_mono_r; lia).
  int_range.
Qed.

End NextPow2.

(** C6. For every [v] in [[1, 2^30]], [glyph_atlas__next_pow2 v] is a power of
    two, is at least [v], and no smaller power of two is at least [v]; and
    [next_pow2 1 = 1], [next_pow2 2048 = 2048], [next_pow2 2049 = 4096]. *)
Theorem next_pow2_smallest_power_of_two :
  (forall v, 1 <= v <= 2 ^ 30 ->
     (exists k, 0 <= k /\ glyph_atlas__next_pow2 v = 2 ^ k) /\
     v <= glyph_atlas__next_pow2 v /\
     (forall k, 0 <= k -> v <= 2 ^ k -> glyph_atlas__next_pow2 v <= 2 ^ k)) /\
  glyph_atlas__next_pow2 1 = 1 /\
  glyph_atlas__next_pow2 2048 = 2048 /\
  glyph_atlas__next_pow2 2049 = 4096.
Proof.
  split; [|repeat split; reflexivity].
  intros v Hv.
  destruct (Z.eq_dec v 1) as [-> | Hne].
  { split; [exists 0; split; [lia | reflexivity]|].
    split; [vm_compute; discriminate|].
    intros k Hk _. change (glyph_atlas__next_pow2 1) with (2 ^ 0).
    apply Z.pow_le_mono_r; lia. }
  rewrite next_pow2_eq by lia.
  assert (Hlog : 0 <= Z.log2 (v - 1)) by apply Z.log2_nonneg.
  destruct (Z.log2_spec (v - 1)) as [Hlo Hhi]; [lia|].
  split; [exists (Z.log2 (v - 1) + 1); split; [lia | reflexivity]|].
  split.
  - replace (Z.log2 (v - 1) + 1) with (Z.succ (Z.log2 (v - 1))) by lia. lia.
  - intros k Hk Hvk. apply Z.pow_le_mono_r; [lia|].
    assert (Z.log2 (v - 1) < k); [|lia].
    apply (Z.pow_lt_mono_r_iff 2); lia.
Qed.

Lemma next_pow2_smallest_power_of_two_witness :
  (exists k, 0 <= k /\ glyph_atlas__next_pow2 1000 = 2 ^ k) /\
  1000 <= glyph_atlas__next_pow2 1000 /\
  (forall k, 0 <= k -> 1000 <= 2 ^ k -> glyph_atlas__next_pow2 1000 <= 2 ^ k).
Proof.
  apply (proj1 next_pow2_smallest_power_of_two 1000). lia.
Defined.

(** ** The UTF-8 decoders *)

Ltac split_tests :=
  repeat match goal with
  | |- context [if ?b then _ else _] => destruct b eqn:?
  | H : context [if ?b then _ else _] |- _ => destruct b eqn:?
  end.

(** C8. On every complete, well-formed 1- to 4-byte sequence the charset
    decoder of glyph_atlas.h and the text decoder of glyph.h return the same
    codepoint and leave the index at the same place; and they differ on
    malformed input: after a lead byte followed by a byte that is no
    continuation byte, and on a sequence cut short by the end of the string,
    the charset decoder assembles a codepoint and moves on, where the text
    decoder answers U+FFFD and does not move. *)
Theorem utf8_decoders_agree_on_well_formed_only :
  (forall str i,
     utf8_sequence_at str i = true ->
     glyph_atlas_utf8_decode str i = glyph_utf8_decode str i) /\
  (glyph_atlas_utf8_decode [xc3; x41] 0 = (0xC1, 2%nat) /\
   glyph_utf8_decode [xc3; x41] 0 = (0xFFFD, 0%nat)) /\
  (glyph_atlas_utf8_decode [xe2; x82] 0 = (0x2080, 3%nat) /\
   glyph_utf8_decode [xe2; x82] 0 = (0xFFFD, 0%nat)).
Proof.
  split; [|split; split; reflexivity].
  intros str i H. unfold utf8_sequence_at in H.
  unfold glyph_atlas_utf8_decode, glyph_utf8_decode, not_continuation.
  cbn zeta in *.
  replace (S i + 1)%nat with (2 + i)%nat by lia.
  replace (S i + 2)%nat with (3 + i)%nat by lia.
  change (S (S (S i))) with (3 + i)%nat in *.
  change (S (S i)) with (2 + i)%nat in *.
  change (S i) with (1 + i)%nat in *.
  destruct (uchar_at str i <? 128) eqn:E1.
  - apply andb_true_iff in H as [H _]. apply Nat.ltb_lt in H.
    destruct (Nat.leb_spec (strlen str) i); [lia | reflexivity].
  - repeat (apply andb_true_iff in H; destruct H as [H ?]).
    split_tests; try reflexivity; try discriminate;
      repeat match goal with
      | H : _ && _ = true |- _ => apply andb_true_iff in H; destruct H
      | H : (_ <? _)%nat = true |- _ => apply Nat.ltb_lt in H
      | H : (_ <=? _)%nat = true |- _ => apply Nat.leb_le in H
      end; simpl in *; try lia; try congruence.
Qed.

Lemma utf8_decoders_agree_on_well_formed_only_witness :
  glyph_atlas_utf8_decode [xe2; x82; xac] 0 = glyph_utf8_decode [xe2; x82; xac] 0.
Proof.
  apply (proj1 utf8_decoders_agree_on_well_formed_only [xe2; x82; xac] 0%nat).
  reflexivity.
Defined.

(** *** The loop of [glyph_renderer_draw_text] where the decoder stalls *)

Lemma push_quad_returns r st st' :
  push_quad r st = Returns st' ->
  bs_i st' = bs_i st /\ bs_drawn st' = bs_drawn st /\
  bs_vertex_count st' = Size.add (bs_vertex_count st) 6 /\
  bs_writes st' = bs_writes st ++ [Size.mul (bs_vertex_count st) 4] /\
  sizeof_float * (Size.mul (bs_vertex_count st) 4 + 24) <= buffer_bytes r.
Proof.
  unfold push_quad.
  destruct (Z.leb_spec (sizeof_float * (Size.mul (bs_vertex_count st) 4 + 24))
                       (buffer_bytes r)) as [Hle|]; [|discriminate].
  intros [= <-]. cbn. repeat split. exact Hle.
Qed.

Section DrawLoop.

Variable r : glyph_renderer_t.
Variable text : cstring.
Variable effects : Z.

#[local] Abbreviation next st :=
  (if is_utf8 (rn_char_type r) then glyph_utf8_decode text (bs_i st)
   else (uchar_at text (bs_i st), S (bs_i st))).

Lemma draw_text_loop_S fuel st :
  draw_text_loop (S fuel) r text effects (strlen text) st =
  if (bs_i st <? strlen text)%nat then
    match draw_text_step r text effects st with
    | Returns st' => draw_text_loop fuel r text effects (strlen text) st'
    | ReadsNull => Some ReadsNull
    | ReadsOutside => Some ReadsOutside
    | WritesOutside => Some WritesOutside
    end
  else Some (Returns st).
Proof. reflexivity. Qed.

(** An iteration that is completed leaves the index where the decoder left it
    and has looked up the codepoint the decoder returned. *)
Lemma draw_text_step_moves st st' :
  draw_text_step r text effects st = Returns st' ->
  bs_i st' = snd (next st) /\ bs_drawn st' = bs_drawn st ++ [fst (next st)].
Proof.
  unfold draw_text_step.
  destruct (next st) as [cp i']. cbn [fst snd].
  destruct (draw_lookup (rn_atlas r) cp) as [|k|k]; [| |discriminate].
  { intros [= <-]. split; reflexivity. }
  destruct (ch_width _ =? 0); [intros [= <-]; split; reflexivity|].
  set (st0 := {| bs_i := i'; bs_vertex_count := bs_vertex_count st;
                 bs_writes := bs_writes st; bs_drawn := bs_drawn st ++ [cp] |}).
  change i' with (bs_i st0). change (bs_drawn st ++ [cp]) with (bs_drawn st0).
  clearbody st0.
  destruct (push_quad r st0) as [st1| | |] eqn:H1; try discriminate.
  apply push_quad_returns in H1 as (Hi1 & Hd1 & _). cbn [mbind outcome_bind].
  destruct (negb (Z.land effects GLYPHGL_BOLD =? 0)).
  - destruct (push_quad r st1) as [st2| | |] eqn:H2; try discriminate.
    apply push_quad_returns in H2 as (Hi2 & Hd2 & _).
    destruct (negb (Z.land effects GLYPHGL_UNDERLINE =? 0)).
    + intros H3. apply push_quad_returns in H3 as (Hi3 & Hd3 & _).
      split; congruence.
    + intros [= <-]. split; congruence.
  - destruct (negb (Z.land effects GLYPHGL_UNDERLINE =? 0)).
    + intros H3. apply push_quad_returns in H3 as (Hi3 & Hd3 & _).
      split; congruence.
    + intros [= <-]. split; congruence.
Qed.

Lemma draw_text_loop_more fuel extra st res :
  draw_text_loop fuel r text effects (strlen text) st = Some res ->
  draw_text_loop (fuel + extra) r text effects (strlen text) st = Some res.
Proof.
  revert st. induction fuel as [|fuel IH]; intros st H; [discriminate|].
  change (S fuel + extra)%nat with (S (fuel + extra)).
  rewrite draw_text_loop_S in *.
  destruct (bs_i st <? strlen text)%nat; [|exact H].
  destruct (draw_text_step r text effects st); [apply IH, H | exact H..].
Qed.

(** From a position inside the text where the decoder leaves the index as it
    is, the loop is never left by its test. *)
Lemma stalled_loop_never_returns i :
  is_utf8 (rn_char_type r) = true -> (i < strlen text)%nat ->
  snd (glyph_utf8_decode text i) = i ->
  forall fuel st st',
    bs_i st = i ->
    draw_text_loop fuel r text effects (strlen text) st <> Some (Returns st').
Proof.
  intros Hct Hlt Hstall fuel.
  induction fuel as [|fuel IH]; intros st st' Hi; [discriminate|].
  rewrite draw_text_loop_S. rewrite Hi.
  destruct (Nat.ltb_spec i (strlen text)) as [_|]; [|lia].
  destruct (draw_text_step r text effects st) as [st1| | |] eqn:Hstep; try discriminate.
  apply IH. rewrite (proj1 (draw_text_step_moves _ _ Hstep)), Hct, Hi. exact Hstall.
Qed.

End DrawLoop.

Lemma grow_vertex_buffer_keeps env r text r' :
  grow_vertex_buffer env r text = Some r' ->
  rn_atlas r' = rn_atlas r /\ rn_char_type r' = rn_char_type r.
Proof.
  unfold grow_vertex_buffer.
  destruct (required_size text >? rn_vertex_buffer_size r).
  - destruct (realloc_vertex_buffer env _ _); [|discriminate].
    intros [= <-]. split; reflexivity.
  - intros [= <-]. split; reflexivity.
Qed.

(** ** [glyph_atlas_find_char] *)

Section FindChar.

Variable cs : list glyph_atlas_char_t.
Variable codepoint : Z.

Lemma find_char_loop_spec left i :
  (i + left <= length cs)%nat ->
  match find_char_loop cs codepoint i left with
  | FoundNull => no_match_between cs codepoint i (i + left)
  | FoundAt k =>
    (i <= k < i + left)%nat /\
    (exists c, cs !! k = Some c /\ ch_codepoint c = codepoint) /\
    no_match_between cs codepoint i k
  | ReadOutside _ => False
  end.
Proof.
  revert i. induction left as [|left IH]; intros i Hlen; cbn [find_char_loop].
  - intros j c Hj. lia.
  - destruct (cs !! i) as [c|] eqn:Hc.
    2:{ apply lookup_ge_None in Hc. lia. }
    destruct (Z.eqb_spec (ch_codepoint c) codepoint) as [Heq | Hne].
    + split; [lia|]. split; [eauto|]. intros j d Hj. lia.
    + specialize (IH (S i) ltac:(lia)).
      destruct (find_char_loop cs codepoint (S i) left) as [|k|k].
      * intros j d Hj Hd. destruct (Nat.eq_dec j i) as [-> | Hji].
        -- congruence.
        -- apply (IH j d); [lia | exact Hd].
      * destruct IH as (Hk & Hfound & Hbefore). split; [lia|]. split; [exact Hfound|].
        intros j d Hj Hd. destruct (Nat.eq_dec j i) as [-> | Hji].
        -- congruence.
        -- apply (Hbefore j d); [lia | exact Hd].
      * exact IH.
Qed.

End FindChar.

(** C9. For an atlas whose [chars] array holds its [num_chars] entries, and
    for every codepoint: the lookup returns [NULL] exactly when no entry
    carries the codepoint (in particular for a [NULL] atlas or a [NULL]
    array); a non-[NULL] result points at an entry with that codepoint, and no
    entry before it has it; and the lookup reads no cell outside the array. *)
Theorem find_char_first_match_or_null (atlas : option glyph_atlas_t) (codepoint : Z) :
  chars_allocated atlas ->
  (glyph_atlas_find_char atlas codepoint = FoundNull <->
   forall j c, atlas_entries atlas !! j = Some c -> ch_codepoint c <> codepoint) /\
  (forall i, glyph_atlas_find_char atlas codepoint = FoundAt i ->
     (exists c, atlas_entries atlas !! i = Some c /\ ch_codepoint c = codepoint) /\
     forall j c, (j < i)%nat -> atlas_entries atlas !! j = Some c ->
                 ch_codepoint c <> codepoint) /\
  (forall i, glyph_atlas_find_char atlas codepoint <> ReadOutside i).
Proof.
  unfold chars_allocated, glyph_atlas_find_char, atlas_entries.
  destruct atlas as [a|]; [destruct (chars a) as [cs|]|].
  2,3: intros _; repeat split; try discriminate; intros; try discriminate;
       match goal with H : [] !! _ = Some _ |- _ => destruct j; discriminate H end.
  intros Hlen. set (n := Z.to_nat (num_chars a)) in *.
  pose proof (find_char_loop_spec cs codepoint n 0 Hlen) as Hspec.
  assert (Htake : forall j c, take n cs !! j = Some c <-> (j < n)%nat /\ cs !! j = Some c).
  { intros j c. rewrite lookup_take_Some. tauto. }
  destruct (find_char_loop cs codepoint 0 n) as [|k|k]; [| |contradiction].
  - split; [|split; intros; discriminate].
    split; [|reflexivity]. intros _ j c Hj. apply Htake in Hj as [Hj Hc].
    apply (Hspec j c); [lia | exact Hc].
  - destruct Hspec as (Hk & (c & Hc & Hcp) & Hbefore).
    split; [|split; [|intros; discriminate]].
    + split; [discriminate|]. intros Hnone. exfalso.
      apply (Hnone k c); [|exact Hcp]. apply Htake. split; [lia | exact Hc].
    + intros i [= <-]. split.
      * exists c. split; [|exact Hcp]. apply Htake. split; [lia | exact Hc].
      * intros j d Hj Hd. apply Htake in Hd as [_ Hd].
        apply (Hbefore j d); [lia | exact Hd].
Qed.

(** ** The sort of [glyph_order] *)

Section SortProofs.

Variable temp_glyphs : list temp_glyph_t.

#[local] Abbreviation h := (height_of temp_glyphs).

Lemma compare_swap_at pre a b rest :
  sort_compare_swap temp_glyphs (pre ++ a :: b :: rest) (length pre) =
  if h a <? h b then pre ++ b :: a :: rest else pre ++ a :: b :: rest.
Proof.
  unfold sort_compare_swap.
  assert (Ha : nth (length pre) (pre ++ a :: b :: rest) 0%nat = a).
  { rewrite app_nth2 by lia. now rewrite Nat.sub_diag. }
  assert (Hb : nth (S (length pre)) (pre ++ a :: b :: rest) 0%nat = b).
  { rewrite app_nth2 by lia. now replace (S (length pre) - length pre)%nat with 1%nat by lia. }
  rewrite Ha, Hb. destruct (h a <? h b); [|reflexivity].
  replace (length pre) with (length pre + 0)%nat at 2 by lia.
  rewrite insert_app_r. cbn [insert list_insert].
  replace (S (length pre)) with (length pre + 1)%nat by lia.
  now rewrite insert_app_r.
Qed.

Lemma fold_compare_swap_bubble k pre l :
  (k < length l)%nat ->
  fold_left (sort_compare_swap temp_glyphs) (seq (length pre) k) (pre ++ l) =
  pre ++ bubble temp_glyphs k l.
Proof.
  revert pre l. induction k as [|k IH]; intros pre l Hk.
  - destruct l; reflexivity.
  - destruct l as [|a [|b rest]]; cbn [length] in Hk; try lia.
    cbn [seq fold_left bubble]. rewrite compare_swap_at.
    destruct (h a <? h b).
    + replace (pre ++ b :: a :: rest) with ((pre ++ [b]) ++ a :: rest)
        by now rewrite <- app_assoc.
      replace (S (length pre)) with (length (pre ++ [b]))
        by (rewrite length_app; cbn; lia).
      rewrite IH by (cbn [length]; lia). now rewrite <- app_assoc.
    + replace (pre ++ a :: b :: rest) with ((pre ++ [a]) ++ b :: rest)
        by now rewrite <- app_assoc.
      replace (S (length pre)) with (length (pre ++ [a]))
        by (rewrite length_app; cbn; lia).
      rewrite IH by (cbn [length]; lia). now rewrite <- app_assoc.
Qed.

Lemma sort_pass_bubble n l i :
  (n - i - 1 < length l)%nat ->
  sort_pass temp_glyphs n l i = bubble temp_glyphs (n - i - 1) l.
Proof.
  intros Hk. unfold sort_pass.
  exact (fold_compare_swap_bubble (n - i - 1) [] l Hk).
Qed.

Lemma bubble_perm k l : Permutation l (bubble temp_glyphs k l).
Proof.
  revert l. induction k as [|k IH]; intros l; [destruct l; reflexivity|].
  destruct l as [|a [|b rest]]; try reflexivity. cbn [bubble].
  destruct (h a <? h b).
  - rewrite perm_swap. constructor. apply IH.
  - constructor. apply IH.
Qed.

Lemma bubble_app k l1 l2 :
  length l1 = S k -> bubble temp_glyphs k (l1 ++ l2) = bubble temp_glyphs k l1 ++ l2.
Proof.
  revert l1. induction k as [|k IH]; intros l1 Hlen.
  - destruct l1 as [|a [|b r]]; try discriminate. reflexivity.
  - destruct l1 as [|a [|b r]]; try discriminate. cbn [length] in Hlen.
    cbn [bubble app]. destruct (h a <? h b).
    + change (a :: r ++ l2) with ((a :: r) ++ l2).
      rewrite IH by (cbn [length]; lia). reflexivity.
    + change (b :: r ++ l2) with ((b :: r) ++ l2).
      rewrite IH by (cbn [length]; lia). reflexivity.
Qed.

(** A full pass leaves a shortest glyph in the last cell. *)
Lemma bubble_last k l :
  length l = S k ->
  exists front m, bubble temp_glyphs k l = front ++ [m] /\ Forall (fun x => h m <= h x) l.
Proof.
  revert l. induction k as [|k IH]; intros l Hlen.
  - destruct l as [|a [|b r]]; try discriminate.
    exists [], a. split; [reflexivity|]. constructor; [lia | constructor].
  - destruct l as [|a [|b r]]; try discriminate. cbn [length] in Hlen.
    cbn [bubble]. destruct (Z.ltb_spec (h a) (h b)) as [Hlt | Hge].
    + destruct (IH (a :: r)) as (front & m & Heq & Hall); [cbn [length]; lia|].
      exists (b :: front), m. rewrite Heq. split; [reflexivity|].
      apply Forall_cons in Hall as [Hma Hr].
      constructor; [exact Hma|]. constructor; [lia | exact Hr].
    + destruct (IH (b :: r)) as (front & m & Heq & Hall); [cbn [length]; lia|].
      exists (a :: front), m. rewrite Heq. split; [reflexivity|].
      apply Forall_cons in Hall as [Hmb Hr].
      constructor; [lia|]. constructor; [exact Hmb | exact Hr].
Qed.

Lemma bubble_keeps_ties k l :
  StronglySorted (ties_in_charset_order temp_glyphs) l ->
  StronglySorted (ties_in_charset_order temp_glyphs) (bubble temp_glyphs k l).
Proof.
  revert l. induction k as [|k IH]; intros l Hs; [destruct l; exact Hs|].
  destruct l as [|a [|b rest]]; try exact Hs. cbn [bubble].
  apply StronglySorted_cons in Hs as [Ha Hs].
  apply Forall_cons in Ha as [Hab Ha].
  pose proof Hs as Hs'. apply StronglySorted_cons in Hs' as [Hb Hrest].
  destruct (Z.ltb_spec (h a) (h b)) as [Hlt | Hge].
  - apply StronglySorted_cons. split.
    + rewrite <- (bubble_perm k (a :: rest)).
      constructor; [|exact Hb]. intros Heq. lia.
    + apply IH. apply StronglySorted_cons. split; assumption.
  - apply StronglySorted_cons. split.
    + rewrite <- (bubble_perm k (b :: rest)). constructor; assumption.
    + apply IH. exact Hs.
Qed.

Lemma after_passes_step n i l :
  (S i < n)%nat -> after_passes temp_glyphs n i l -> after_passes temp_glyphs n (S i) (sort_pass temp_glyphs n l i).
Proof.
  intros Hi (Hperm & Hties & pre & suf & -> & Hsuf & Hsorted & Hcross).
  assert (Hlen : length (pre ++ suf) = n).
  { rewrite <- Hperm. apply length_seq. }
  rewrite length_app in Hlen.
  rewrite sort_pass_bubble by (rewrite length_app; lia).
  split; [|split].
  - rewrite Hperm at 1. apply bubble_perm.
  - apply bubble_keeps_ties, Hties.
  - rewrite bubble_app by lia.
    destruct (bubble_last (n - i - 1) pre) as (front & m & Heq & Hmin); [lia|].
    assert (Hp : Permutation pre (front ++ [m])).
    { rewrite <- Heq. apply bubble_perm. }
    exists front, (m :: suf). rewrite Heq, <- app_assoc.
    split; [reflexivity|]. split; [cbn [length]; lia|]. split.
    + apply StronglySorted_cons. split; [|exact Hsorted].
      apply Forall_forall. intros b Hb. apply Hcross; [|exact Hb].
      rewrite Hp, elem_of_app, list_elem_of_singleton. now right.
    + intros a b Ha Hb. apply elem_of_cons in Hb as [-> | Hb].
      * unfold taller_first. rewrite Forall_forall in Hmin. apply Hmin.
        rewrite Hp, elem_of_app. now left.
      * apply Hcross; [|exact Hb]. rewrite Hp, elem_of_app. now left.
Qed.

Lemma after_passes_fold n m s l :
  (s + m < n)%nat -> after_passes temp_glyphs n s l ->
  after_passes temp_glyphs n (s + m) (fold_left (sort_pass temp_glyphs n) (seq s m) l).
Proof.
  revert s l. induction m as [|m IH]; intros s l Hs Hinv.
  - now rewrite Nat.add_0_r.
  - cbn [seq fold_left]. replace (s + S m)%nat with (S s + m)%nat by lia.
    apply IH; [lia|]. apply after_passes_step; [lia | exact Hinv].
Qed.

Lemma seq_ties_sorted s n : StronglySorted (ties_in_charset_order temp_glyphs) (seq s n).
Proof.
  revert s. induction n as [|n IH]; intros s; [constructor|].
  cbn [seq]. apply StronglySorted_cons. split; [|apply IH].
  apply Forall_forall. intros b Hb _. apply elem_of_seq in Hb. lia.
Qed.

(** All passes done: one cell is left in front of the sorted part. *)
Lemma sort_glyph_order_passes (n : nat) :
  after_passes temp_glyphs (S n) n (sort_glyph_order temp_glyphs (S n)).
Proof.
  unfold sort_glyph_order.
  assert (Hinit : after_passes temp_glyphs (S n) 0 (seq 0 (S n))).
  { split; [reflexivity|]. split; [apply seq_ties_sorted|].
    exists (seq 0 (S n)), []. rewrite app_nil_r.
    repeat split; [constructor|]. intros a b _ Hb. now apply elem_of_nil in Hb. }
  replace (S n - 1)%nat with n by lia.
  exact (after_passes_fold (S n) n 0 _ ltac:(lia) Hinit).
Qed.

Lemma sort_glyph_order_perm (n : nat) :
  Permutation (seq 0 n) (sort_glyph_order temp_glyphs n).
Proof.
  destruct n as [|n]; [reflexivity|]. apply sort_glyph_order_passes.
Qed.

(** C7. The glyph order computed before packing is a permutation of the glyph
    indices [0 .. n-1], runs from the tallest bitmap to the shortest, and is
    stable: of two glyphs of equal height, the one earlier in the charset
    comes first. *)
Theorem sort_glyph_order_stable_descending (n : nat) :
  Permutation (seq 0 n) (sort_glyph_order temp_glyphs n) /\
  StronglySorted (taller_first temp_glyphs) (sort_glyph_order temp_glyphs n) /\
  StronglySorted (ties_in_charset_order temp_glyphs) (sort_glyph_order temp_glyphs n).
Proof.
  destruct n as [|n]; [cbn; repeat split; constructor|].
  destruct (sort_glyph_order_passes n)
    as (Hperm & Hties & pre & suf & Heq & Hsuf & Hsorted & Hcross).
  split; [exact Hperm|]. split; [|exact Hties].
  rewrite Heq.
  assert (Hlen : length (pre ++ suf) = S n).
  { rewrite <- Heq, <- Hperm. apply length_seq. }
  rewrite length_app in Hlen.
  destruct pre as [|a [|b pre]]; cbn [length] in Hlen; try lia.
  cbn [app]. apply StronglySorted_cons. split; [|exact Hsorted].
  apply Forall_forall. intros b Hb. apply Hcross; [|exact Hb].
  now apply list_elem_of_singleton.
Qed.

End SortProofs.

(** ** The charset and its length *)

Lemma atlas_decode_advances str i :
  (i < snd (glyph_atlas_utf8_decode str i) <= i + 4)%nat.
Proof.
  unfold glyph_atlas_utf8_decode. cbn zeta. split_tests; cbn [snd]; lia.
Qed.

Lemma utf8_codepoints_length fuel charset idx :
  (length (utf8_codepoints fuel charset idx) <= fuel)%nat.
Proof.
  revert idx. induction fuel as [|fuel IH]; intros idx; cbn [utf8_codepoints length].
  - lia.
  - destruct (idx <? strlen charset)%nat; cbn [length]; [|lia].
    specialize (IH (snd (glyph_atlas_utf8_decode charset idx))). lia.
Qed.

(** The fuel of the counting loop is never used up: with [strlen - idx]
    iterations in hand the loop leaves through its test. *)
Lemma utf8_count_loop_fuel fuel extra charset idx c :
  (strlen charset - idx <= fuel)%nat ->
  utf8_count_loop (fuel + extra) charset idx c = utf8_count_loop fuel charset idx c.
Proof.
  revert idx c. induction fuel as [|fuel IH]; intros idx c Hfuel.
  - cbn [Nat.add]. destruct extra; cbn [utf8_count_loop]; [reflexivity|].
    destruct (Nat.ltb_spec idx (strlen charset)); [lia | reflexivity].
  - cbn [Nat.add utf8_count_loop].
    destruct (Nat.ltb_spec idx (strlen charset)); [|reflexivity].
    apply IH. pose proof (atlas_decode_advances charset idx). lia.
Qed.

Lemma utf8_count_loop_length fuel charset idx c :
  0 <= c -> c + Z.of_nat fuel <= Int.max_signed ->
  utf8_count_loop fuel charset idx c =
  c + Z.of_nat (length (utf8_codepoints fuel charset idx)).
Proof.
  unfold Int.max_signed.
  revert idx c. induction fuel as [|fuel IH]; intros idx c Hc Hmax;
    cbn [utf8_count_loop utf8_codepoints].
  - cbn [length]. lia.
  - destruct (idx <? strlen charset)%nat; [|cbn [length]; lia].
    unfold Int.add. rewrite wrap32_small by int_range.
    rewrite IH by lia. cbn [length]. lia.
Qed.

Lemma charset_length_codepoints char_type charset :
  Z.of_nat (strlen charset) < 2 ^ 31 ->
  charset_length char_type charset =
  Z.of_nat (length (charset_codepoints char_type charset)).
Proof.
  intros Hlen. unfold charset_length, charset_codepoints.
  destruct (is_utf8 char_type).
  - rewrite utf8_count_loop_length by (unfold Int.max_signed; lia). lia.
  - rewrite length_map, length_seq. apply wrap32_small. int_range.
Qed.

Lemma read_codepoints_utf8 charset fuel s idx :
  read_codepoints GLYPH_ENCODING_UTF8 charset
    (length (utf8_codepoints fuel charset idx)) s idx =
  utf8_codepoints fuel charset idx.
Proof.
  revert s idx. induction fuel as [|fuel IH]; intros s idx; cbn [utf8_codepoints].
  - reflexivity.
  - destruct (idx <? strlen charset)%nat; [|reflexivity].
    cbn [length read_codepoints is_utf8]. now rewrite IH.
Qed.

Lemma read_codepoints_bytes char_type charset m s idx :
  is_utf8 char_type = false ->
  read_codepoints char_type charset m s idx = map (uchar_at charset) (seq s m).
Proof.
  intros Hct. revert s. induction m as [|m IH]; intros s; cbn [read_codepoints seq map].
  - reflexivity.
  - rewrite Hct. cbn [fst snd]. now rewrite IH.
Qed.

(** The rasterisation loop reads the codepoints of the charset. *)
Lemma read_codepoints_charset char_type charset :
  read_codepoints char_type charset
    (length (charset_codepoints char_type charset)) 0 0 =
  charset_codepoints char_type charset.
Proof.
  unfold charset_codepoints. destruct char_type; cbn [is_utf8].
  - rewrite length_map, length_seq. now apply read_codepoints_bytes.
  - apply read_codepoints_utf8.
  - rewrite length_map, length_seq. now apply read_codepoints_bytes.
Qed.

(** ** The rasterisation loop *)

Lemma map_fmap {A B : Type} (f : A -> B) (l : list A) : map f l = f <$> l.
Proof. reflexivity. Qed.

Section RasterProofs.

Variable host : host_t.
Variable font : glyph_font_t.
Variable ph : float.
Variable charset : cstring.
Variable char_type : glyph_encoding_type_t.
Variable use_sdf : bool.

#[local] Abbreviation step := (rasterize_step host font ph charset char_type use_sdf).

Lemma rasterize_step_idx st i : rs_charset_idx (step st i) = snd (read_at charset char_type st i).
Proof.
  unfold rasterize_step, read_at.
  destruct (if is_utf8 char_type then _ else _) as [cp idx].
  destruct (_ && _); reflexivity.
Qed.

Lemma rasterize_step_chars st i :
  rs_chars (step st i) = alter (raster_entry font ph (fst (read_at charset char_type st i))) i (rs_chars st).
Proof.
  unfold rasterize_step, read_at, raster_entry, missing_glyph.
  destruct (if is_utf8 char_type then _ else _) as [cp idx]. cbn [fst].
  destruct (_ && _); reflexivity.
Qed.

Lemma rasterize_step_temp st i :
  exists g, rs_temp_glyphs (step st i) = rs_temp_glyphs st ++ [g] /\
            (missing_glyph font (fst (read_at charset char_type st i)) = true -> tg_bitmap g = None).
Proof.
  unfold rasterize_step, read_at, missing_glyph.
  destruct (if is_utf8 char_type then _ else _) as [cp idx]. cbn [fst].
  destruct (_ && _); eexists; (split; [reflexivity|]); [reflexivity | discriminate].
Qed.

(** The loop, cell by cell: iterations [s .. s+m-1] rewrite cells
    [s .. s+m-1] of [atlas.chars] and leave the others alone. *)
Lemma rasterize_fold_chars m s st j :
  rs_chars (fold_left step (seq s m) st) !! j =
  if decide (s <= j < s + m)%nat
  then raster_entry font ph
         (nth (j - s) (read_codepoints char_type charset m s (rs_charset_idx st)) 0)
       <$> rs_chars st !! j
  else rs_chars st !! j.
Proof.
  revert s st. induction m as [|m IH]; intros s st.
  - cbn [seq fold_left]. destruct (decide _); [lia | reflexivity].
  - cbn [seq fold_left read_codepoints]. rewrite IH, rasterize_step_idx, rasterize_step_chars.
    fold (read_at charset char_type st s).
    destruct (decide (S s <= j < S s + m)%nat) as [Hin | Hout].
    + rewrite list_lookup_alter_ne by lia.
      destruct (decide _); [|lia].
      replace (j - s)%nat with (S (j - S s)) by lia. reflexivity.
    + destruct (decide (s <= j < s + S m)%nat) as [Hin' | Hout'].
      * assert (j = s) as -> by lia. rewrite list_lookup_alter_eq, Nat.sub_diag. reflexivity.
      * rewrite list_lookup_alter_ne by lia. reflexivity.
Qed.

Lemma rasterize_fold_chars_length m s st :
  length (rs_chars (fold_left step (seq s m) st)) = length (rs_chars st).
Proof.
  revert s st. induction m as [|m IH]; intros s st; cbn [seq fold_left]; [reflexivity|].
  rewrite IH, rasterize_step_chars. apply length_alter.
Qed.

Lemma rasterize_fold_temp_length m s st :
  length (rs_temp_glyphs (fold_left step (seq s m) st)) =
  (length (rs_temp_glyphs st) + m)%nat.
Proof.
  revert s st. induction m as [|m IH]; intros s st; cbn [seq fold_left]; [lia|].
  rewrite IH. destruct (rasterize_step_temp st s) as (g & -> & _).
  rewrite length_app. cbn [length]. lia.
Qed.

(** A codepoint without a glyph leaves a glyph without a bitmap in
    [temp_glyphs]. *)
Lemma rasterize_fold_temp_missing m s st k :
  length (rs_temp_glyphs st) = s -> (k < m)%nat ->
  missing_glyph font
    (nth k (read_codepoints char_type charset m s (rs_charset_idx st)) 0) = true ->
  exists g, rs_temp_glyphs (fold_left step (seq s m) st) !! (s + k)%nat = Some g /\
            tg_bitmap g = None.
Proof.
  revert s st k. induction m as [|m IH]; intros s st k Hlen Hk Hmiss; [lia|].
  cbn [seq fold_left read_codepoints] in *.
  destruct (rasterize_step_temp st s) as (g & Hg & Hnone).
  destruct k as [|k].
  - exists g. split; [|apply Hnone, Hmiss].
    assert (Hkeep : forall m' s' st', (s < length (rs_temp_glyphs st'))%nat ->
              rs_temp_glyphs (fold_left step (seq s' m') st') !! s = rs_temp_glyphs st' !! s).
    { induction m' as [|m' IH']; intros s' st' Hs; cbn [seq fold_left]; [reflexivity|].
      destruct (rasterize_step_temp st' s') as (g' & Hg' & _).
      rewrite IH' by (rewrite Hg', length_app; lia).
      rewrite Hg'. now apply lookup_app_l. }
    rewrite Nat.add_0_r, Hkeep by (rewrite Hg, length_app; cbn [length]; lia).
    rewrite Hg, lookup_app_r by lia. now rewrite Hlen, Nat.sub_diag.
  - replace (s + S k)%nat with (S s + k)%nat by lia.
    apply IH; [rewrite Hg, length_app; cbn [length]; lia | lia|].
    rewrite rasterize_step_idx. exact Hmiss.
Qed.

End RasterProofs.

(** ** The packing loop *)

Lemma alter_keeps {A B : Type} (f : A -> B) (g : A -> A) (i : nat) (l : list A) :
  (forall c, f (g c) = f c) -> f <$> alter g i l = f <$> l.
Proof.
  intros H. rewrite (list_fmap_alter f g id).
  - now apply list_alter_id.
  - apply Forall_forall. intros c _. apply H.
Qed.

(** Reads the fields of a state written as a record. *)
Ltac state_fields :=
  cbn [order_idx pen_x pen_y row_height current_row atlas_width atlas_height
       atlas_image atlas_chars].

Lemma grow_and_restart_returns st st' :
  grow_and_restart st = Returns st' -> st' = restarted st.
Proof.
  unfold grow_and_restart, restarted, clear_image. cbv zeta.
  destruct (_ <=? _); [|discriminate].
  intros [= <-]. reflexivity.
Qed.

Lemma grow_and_restart_square st :
  atlas_width st = atlas_height st ->
  grow_and_restart st =
  if clears (Int.mul (atlas_height st) 2) then Returns (restarted st) else WritesOutside.
Proof.
  intros Hw. unfold grow_and_restart, restarted, clear_image, clears, image_bytes.
  cbv zeta. rewrite Hw. cbn [glyph_image_create img_width img_height].
  destruct (_ <=? _); reflexivity.
Qed.

Lemma pack_init_eq size cs :
  pack_init size cs =
  if clears (first_side size) then Returns (pass_start (first_side size) cs)
  else WritesOutside.
Proof.
  unfold pack_init, pass_start, first_side, clear_image, clears, image_bytes.
  change GLYPHGL_ATLAS_HEIGHT with GLYPHGL_ATLAS_WIDTH. cbv zeta.
  cbn [glyph_image_create img_width img_height].
  destruct (_ <=? _); reflexivity.
Qed.

Lemma pack_init_returns size cs st0 :
  pack_init size cs = Returns st0 -> st0 = pass_start (first_side size) cs.
Proof.
  rewrite pack_init_eq. destruct (clears _); [|discriminate].
  intros [= <-]. reflexivity.
Qed.

(** The [memset] of a square atlas stays inside the image up to a side of
    16384 and from 65536 on, where the [int] product is 0; at 32768 the
    product is negative and the length as a [size_t] is 2^64 - 2^30. *)
Lemma clears_pow2 k :
  11 <= k <= 30 -> clears (2 ^ k) = negb (k =? 15).
Proof.
  intros Hk. unfold clears.
  assert (Hcases : k = 11 \/ k = 12 \/ k = 13 \/ k = 14 \/ k = 15 \/ 16 <= k) by lia.
  destruct Hcases as [-> | [-> | [-> | [-> | [-> | Hbig]]]]]; try reflexivity.
  replace (k =? 15) with false by (symmetry; apply Z.eqb_neq; lia). cbn [negb].
  assert (Hzero : Int.mul (2 ^ k) (2 ^ k) = 0).
  { unfold Int.mul, Int.wrap32. rewrite <- Z.pow_add_r by lia.
    replace (k + k) with (32 + (2 * k - 32)) by lia.
    rewrite Z.pow_add_r by lia.
    rewrite Z.add_comm, Z.mul_comm, Z.mod_add by lia. reflexivity. }
  rewrite Hzero. change (Size.wrap (Int.mul 0 3)) with 0.
  apply Z.leb_le. assert (0 < 2 ^ k) by (apply Z.pow_pos_nonneg; lia). nia.
Qed.

Section PackProofs.

Variable temp_glyphs : list temp_glyph_t.
Variable glyph_order : list nat.
Variable n : nat.

#[local] Abbreviation pstep := (pack_step temp_glyphs glyph_order).
#[local] Abbreviation ploop := (pack_loop temp_glyphs glyph_order n).
#[local] Abbreviation stacked := (stacked_rows temp_glyphs glyph_order).
#[local] Abbreviation needed := (needed_height temp_glyphs glyph_order n).

Lemma pack_loop_S fuel st :
  ploop (S fuel) st =
  if (order_idx st <? n)%nat then
    match pstep st with
    | Returns st' => ploop fuel st'
    | ReadsNull => Some ReadsNull
    | ReadsOutside => Some ReadsOutside
    | WritesOutside => Some WritesOutside
    end
  else Some (Returns st).
Proof. reflexivity. Qed.

(** A run that leaves the loop has gone through returning iterations only:
    what every such iteration keeps, the loop keeps. *)
Lemma pack_loop_ind (P : pack_state -> Prop) :
  (forall st st', (order_idx st < n)%nat -> pstep st = Returns st' -> P st -> P st') ->
  forall fuel st st',
    ploop fuel st = Some (Returns st') -> P st -> P st' /\ (n <= order_idx st')%nat.
Proof.
  intros Hstep fuel. induction fuel as [|fuel IH]; intros st st'; [discriminate|].
  rewrite pack_loop_S. destruct (Nat.ltb_spec (order_idx st) n) as [Hlt | Hge].
  - destruct (pstep st) as [st1| | |] eqn:Hst1; try discriminate.
    intros Hloop HP. apply (IH _ _ Hloop). exact (Hstep _ _ Hlt Hst1 HP).
  - intros [= <-] HP. split; [exact HP | exact Hge].
Qed.

Section Keeps.

Context {B : Type} (f : glyph_atlas_char_t -> B) (Hf : packer_keeps f).

Lemma align_row_keeps row cs : f <$> align_row temp_glyphs row cs = f <$> cs.
Proof.
  unfold align_row. generalize (row_max_yoff temp_glyphs row) as m. intros m.
  revert cs. induction row as [|r row IH]; intros cs; cbn [fold_left]; [reflexivity|].
  rewrite IH. apply alter_keeps. intros c. apply Hf.
Qed.

Lemma pack_step_keeps st st' :
  pstep st = Returns st' -> f <$> atlas_chars st' = f <$> atlas_chars st.
Proof.
  unfold pack_step.
  destruct (is_empty_glyph _).
  { intros [= <-]. unfold skip_glyph; state_fields. apply alter_keeps. intros c. apply Hf. }
  set (st1 := if _ >? atlas_width st then close_row temp_glyphs st else st).
  assert (H1 : f <$> atlas_chars st1 = f <$> atlas_chars st).
  { subst st1. destruct (_ >? atlas_width st); [|reflexivity].
    unfold close_row; state_fields. apply align_row_keeps. }
  destruct (_ >? atlas_height st1).
  - intros H. apply grow_and_restart_returns in H as ->.
    unfold restarted; state_fields. exact H1.
  - intros [= <-]. unfold place_glyph; state_fields.
    rewrite alter_keeps by (intros c; apply Hf). exact H1.
Qed.

Lemma pack_loop_keeps fuel st st' :
  ploop fuel st = Some (Returns st') -> f <$> atlas_chars st' = f <$> atlas_chars st.
Proof.
  intros Hloop.
  refine (proj1 (pack_loop_ind (fun s => f <$> atlas_chars s = f <$> atlas_chars st)
                   _ _ _ _ Hloop eq_refl)).
  intros s s' _ Hs Heq. rewrite (pack_step_keeps _ _ Hs). exact Heq.
Qed.

Lemma finish_last_row_keeps st :
  f <$> finish_last_row temp_glyphs st = f <$> atlas_chars st.
Proof.
  unfold finish_last_row. destruct (current_row st); [reflexivity|].
  apply align_row_keeps.
Qed.

End Keeps.

Lemma keeps_codepoint : packer_keeps ch_codepoint.
Proof. split; reflexivity. Qed.

Lemma keeps_advance : packer_keeps ch_advance.
Proof. split; reflexivity. Qed.

Lemma keeps_cell : packer_keeps (fun _ : glyph_atlas_char_t => tt).
Proof. split; reflexivity. Qed.

(** *** The loop invariant *)

Section Termination.

Hypothesis heights_nonneg : Forall (fun g => 0 <= tg_height g) temp_glyphs.
Hypothesis rows_fit : needed <= 2 ^ 30.

Lemma glyph_height_nonneg i : 0 <= tg_height (glyph temp_glyphs i).
Proof.
  unfold glyph. destruct (nth_in_or_default i temp_glyphs temp_glyph_zero) as [Hin | ->].
  - rewrite List.Forall_forall in heights_nonneg. now apply heights_nonneg.
  - cbn. lia.
Qed.

Lemma stacked_step k :
  stacked k <= stacked (S k) /\
  (is_empty_glyph (glyph temp_glyphs (nth k glyph_order 0%nat)) = false ->
   stacked (S k) = stacked k + tg_height (glyph temp_glyphs (nth k glyph_order 0%nat)) + padding).
Proof.
  cbn [stacked_rows]. pose proof (glyph_height_nonneg (nth k glyph_order 0%nat)).
  unfold padding. destruct (is_empty_glyph _); split; intros; try discriminate; lia.
Qed.

Lemma stacked_mono k k' : (k <= k')%nat -> stacked k <= stacked k'.
Proof.
  induction 1 as [|k' _ IH]; [lia|]. pose proof (stacked_step k'). lia.
Qed.

(** One iteration, up to the [memset] of a restart: either the loop moves to
    the next glyph and keeps the invariant, or the glyph fails the vertical
    test in an atlas that is too low, and the iteration is the restart in an
    atlas of twice the side, the doubling not overflowing. *)
Lemma pack_step_cases h0 st :
  pack_inv temp_glyphs glyph_order n h0 st -> (order_idx st < n)%nat ->
  (fails_vertical_fit temp_glyphs glyph_order st = false /\
   exists st', pstep st = Returns st' /\
     pack_inv temp_glyphs glyph_order n h0 st' /\
     order_idx st' = S (order_idx st) /\ atlas_height st' = atlas_height st) \/
  (fails_vertical_fit temp_glyphs glyph_order st = true /\
   atlas_height st < needed /\
   exists cs,
     pstep st =
       (if clears (2 * atlas_height st) then Returns (pass_start (2 * atlas_height st) cs)
        else WritesOutside) /\
     pack_inv temp_glyphs glyph_order n h0 (pass_start (2 * atlas_height st) cs)).
Proof.
  intros (Hidx & Hpy & Hrh & Hsum & Hh & Hw & Himg & k & Hk & Hpow) Hlt.
  pose proof (stacked_step (order_idx st)) as [Hmono Hstep].
  pose proof (stacked_mono (S (order_idx st)) n ltac:(lia)) as Hle.
  pose proof (glyph_height_nonneg (nth (order_idx st) glyph_order 0%nat)) as Hg.
  unfold fails_vertical_fit, pack_step. cbv zeta.
  unfold needed_height in *.
  set (g := glyph temp_glyphs (nth (order_idx st) glyph_order 0%nat)) in *.
  unfold padding, Int.max_signed in *.
  destruct (is_empty_glyph g) eqn:Hempty; cbn [negb andb].
  { left. split; [reflexivity|]. eexists. split; [reflexivity|].
    split; [|split; reflexivity].
    unfold pack_inv, skip_glyph; state_fields. unfold padding, Int.max_signed.
    repeat (split; [first [lia | assumption]|]). exists k. split; assumption. }
  specialize (Hstep eq_refl).
  set (st1 := if _ >? atlas_width st then close_row temp_glyphs st else st).
  assert (H1 : 4 <= pen_y st1 /\ 0 <= row_height st1 /\
               pen_y st1 + tg_height g + 4 <= 8 + stacked (S (order_idx st)) /\
               pen_y st1 + Z.max (row_height st1) (tg_height g)
                 <= 4 + stacked (S (order_idx st)) /\
               atlas_height st1 = atlas_height st /\ atlas_width st1 = atlas_width st /\
               atlas_image st1 = atlas_image st /\ order_idx st1 = order_idx st).
  { subst st1. destruct (_ >? atlas_width st); unfold close_row; state_fields;
      unfold Int.add, padding.
    - rewrite (wrap32_small (row_height st + 4)) by int_range.
      rewrite wrap32_small by int_range. repeat split; lia.
    - repeat split; lia. }
  destruct H1 as (Hpy1 & Hrh1 & Hv & Hnew & Hh1 & Hw1 & Himg1 & Hidx1).
  assert (Htest : Int.add (Int.add (pen_y st1) (tg_height g)) 4
                  = pen_y st1 + tg_height g + 4).
  { unfold Int.add. rewrite (wrap32_small (pen_y st1 + tg_height g)) by int_range.
    apply wrap32_small. int_range. }
  rewrite Htest.
  destruct (Z.gtb_spec (pen_y st1 + tg_height g + 4) (atlas_height st1)) as [Hfail | Hfits].
  - right. split; [reflexivity|]. split; [lia|].
    assert (Hdouble : Int.mul (atlas_height st) 2 = 2 * atlas_height st).
    { unfold Int.mul. rewrite wrap32_small by int_range. lia. }
    exists (atlas_chars st1). split.
    + rewrite grow_and_restart_square by (rewrite Hw1, Hh1; exact Hw).
      unfold restarted, pass_start. rewrite Hw1, Hw, Hh1, Hdouble.
      reflexivity.
    + unfold pack_inv, pass_start; state_fields.
      unfold padding, Int.max_signed. cbn [stacked_rows].
      repeat (split; [first [lia | reflexivity]|]). exists (k + 1). split; [lia|].
      rewrite Z.pow_add_r, Z.pow_1_r by lia. lia.
  - left. split; [reflexivity|]. eexists. split; [reflexivity|]. split.
    2:{ unfold place_glyph; state_fields. rewrite Hidx1. split; [reflexivity | exact Hh1]. }
    unfold pack_inv, place_glyph; state_fields. fold g. rewrite Hidx1, Hh1, Hw1, Himg1.
    unfold padding, Int.max_signed.
    assert (Hrow : 0 <= (if tg_height g >? row_height st1 then tg_height g
                         else row_height st1) <= Z.max (row_height st1) (tg_height g)).
    { destruct (Z.gtb_spec (tg_height g) (row_height st1)); lia. }
    repeat (split; [first [lia | assumption]|]). exists k. split; assumption.
Qed.

(** One returning iteration: the invariant is kept, and either the loop moves
    to the next glyph, or the atlas was too low, is now twice as large, and
    the pass starts again. *)
Lemma pack_step_inv h0 st st' :
  pack_inv temp_glyphs glyph_order n h0 st -> (order_idx st < n)%nat ->
  pstep st = Returns st' ->
  pack_inv temp_glyphs glyph_order n h0 st' /\
  ((order_idx st' = S (order_idx st) /\ atlas_height st' = atlas_height st) \/
   (order_idx st' = 0%nat /\
    atlas_height st' = 2 * atlas_height st /\
    atlas_height st < needed)).
Proof.
  intros Hinv Hlt Hst.
  destruct (pack_step_cases h0 st Hinv Hlt)
    as [(_ & st1 & Hst1 & Hinv1 & Hi & Hh) | (_ & Hlow & cs & Hst1 & Hinv1)];
    rewrite Hst1 in Hst.
  - injection Hst as <-. split; [exact Hinv1|]. left. split; assumption.
  - destruct (clears _); [|discriminate]. injection Hst as <-.
    split; [exact Hinv1|]. right. repeat split. exact Hlow.
Qed.

Lemma pack_loop_inv h0 fuel st st' :
  pack_inv temp_glyphs glyph_order n h0 st ->
  ploop fuel st = Some (Returns st') ->
  pack_inv temp_glyphs glyph_order n h0 st' /\ order_idx st' = n.
Proof.
  intros Hinv Hloop.
  assert (Hstep : forall s s', (order_idx s < n)%nat -> pstep s = Returns s' ->
            pack_inv temp_glyphs glyph_order n h0 s ->
            pack_inv temp_glyphs glyph_order n h0 s').
  { intros s s' Hlt Hs Hi. exact (proj1 (pack_step_inv h0 s s' Hi Hlt Hs)). }
  destruct (pack_loop_ind _ Hstep _ _ _ Hloop Hinv) as [Hinv' Hge].
  split; [exact Hinv'|]. destruct Hinv' as (Hle & _). lia.
Qed.

End Termination.

End PackProofs.

(** ** [glyph_atlas_create] as a whole *)

Section CreateProofs.

Variable host : host_t.
Variable fuel : nat.
Variable path : cstring.
Variable ph : float.
Variable charset : option cstring.
Variable char_type : glyph_encoding_type_t.
Variable use_sdf : bool.
Variable font : glyph_font_t.
Variable atlas : glyph_atlas_t.

Hypothesis font_loaded : glyph_ttf_load_font_from_file host path = Some font.
Hypothesis created :
  glyph_atlas_create host fuel path ph charset char_type use_sdf = Some (Returns atlas).

#[local] Abbreviation cset := (charset_or_default charset).

Lemma create_num_chars : num_chars atlas = charset_length char_type cset.
Proof.
  revert created. unfold glyph_atlas_create. rewrite font_loaded.
  fold (charset_or_default charset).
  destruct (malloc_chars host); [|now intros [= <-]].
  destruct (malloc_temp_glyphs host); cbn [negb]; [|now intros [= <-]].
  destruct (malloc_glyph_order host); cbn [negb]; [|now intros [= <-]].
  destruct (pack_init _ _); try discriminate.
  destruct (pack_loop _ _ _ _ _) as [[st| | |]|]; try discriminate. now intros [= <-].
Qed.

(** A returned [chars] array comes out of a packing loop that was entered with
    a cleared image and that was left. *)
Lemma create_chars cs :
  chars atlas = Some cs ->
  exists fresh st,
    malloc_chars host = Some fresh /\
    let rs := rasterized host font ph cset char_type use_sdf fresh in
    let temp_glyphs := rs_temp_glyphs rs in
    let n := Z.to_nat (charset_length char_type cset) in
    let side := first_side (estimate_size host (rs_total_width rs) (rs_max_height rs)) in
    pack_loop temp_glyphs (sort_glyph_order temp_glyphs n) n fuel
      (pass_start side (rs_chars rs))
      = Some (Returns st) /\
    cs = finish_last_row temp_glyphs st /\
    image atlas = atlas_image st /\
    clears side = true.
Proof.
  revert created. unfold glyph_atlas_create. rewrite font_loaded.
  fold (charset_or_default charset).
  destruct (malloc_chars host) as [fresh|]; [|intros [= <-]; discriminate].
  destruct (malloc_temp_glyphs host); cbn [negb]; [|intros [= <-]; discriminate].
  destruct (malloc_glyph_order host); cbn [negb]; [|intros [= <-]; discriminate].
  fold (rasterized host font ph cset char_type use_sdf fresh).
  rewrite pack_init_eq. destruct (clears _) eqn:Hclears; [|discriminate].
  destruct (pack_loop _ _ _ _ _) as [[st| | |]|] eqn:Hloop; try discriminate.
  intros [= <-]. cbn [chars image finish_atlas]. intros [= <-].
  exists fresh, st. repeat split; assumption.
Qed.

End CreateProofs.

Lemma read_codepoints_len char_type charset m s idx :
  length (read_codepoints char_type charset m s idx) = m.
Proof.
  revert s idx. induction m as [|m IH]; intros s idx; cbn [read_codepoints length];
    [reflexivity | now rewrite IH].
Qed.

Lemma raster_entry_codepoint font ph cp c : ch_codepoint (raster_entry font ph cp c) = cp.
Proof. unfold raster_entry. destruct (missing_glyph font cp); reflexivity. Qed.

(** After the rasterisation loop the entries carry the codepoints read, in
    the order read. *)
Lemma rasterized_codepoints host font ph charset char_type use_sdf fresh :
  ch_codepoint <$> rs_chars (rasterized host font ph charset char_type use_sdf fresh) =
  read_codepoints char_type charset (Z.to_nat (charset_length char_type charset)) 0 0.
Proof.
  unfold rasterized, rasterize_all.
  set (n := Z.to_nat (charset_length char_type charset)).
  apply list_eq. intros j.
  rewrite list_lookup_fmap, rasterize_fold_chars. cbn [rs_chars rs_charset_idx].
  rewrite map_fmap, list_lookup_fmap, Nat.sub_0_r.
  set (reads := read_codepoints char_type charset n 0 0).
  assert (Hlen : length reads = n) by apply read_codepoints_len.
  destruct (decide (0 <= j < 0 + n)%nat) as [Hin | Hout].
  - rewrite lookup_seq_lt by lia. cbn. rewrite raster_entry_codepoint.
    destruct (nth_lookup_or_length reads j 0) as [-> | ?]; [reflexivity | lia].
  - rewrite lookup_seq_ge by lia. cbn. symmetry. apply lookup_ge_None. lia.
Qed.

Lemma remove_dups_shorter (l : list Z) : (length (remove_dups l) <= length l)%nat.
Proof.
  induction l as [|x l IH]; cbn [remove_dups length]; [lia|].
  destruct (decide_rel _ x l); cbn [length]; lia.
Qed.

(** Removing duplicates keeps the length exactly when there were none. *)
Lemma remove_dups_same_length (l : list Z) :
  length (remove_dups l) = length l <-> NoDup l.
Proof.
  induction l as [|x l IH]; cbn [remove_dups length].
  - split; [constructor | reflexivity].
  - pose proof (remove_dups_shorter l). rewrite NoDup_cons.
    destruct (decide_rel _ x l) as [Hin | Hout]; cbn [length].
    + split; [lia | intros [Hx _]; contradiction].
    + rewrite <- IH. split; [intros [= ->]; auto | intros [_ ->]; reflexivity].
Qed.

(** The entries of a returned atlas carry the codepoints of the charset, in
    charset order. *)
Lemma created_codepoints
    (host : host_t) (fuel : nat) (path : cstring) (ph : float) (charset : option cstring)
    (char_type : glyph_encoding_type_t) (use_sdf : bool)
    (font : glyph_font_t) (atlas : glyph_atlas_t) (cs : list glyph_atlas_char_t) :
  glyph_ttf_load_font_from_file host path = Some font ->
  Z.of_nat (strlen (charset_or_default charset)) < 2 ^ 31 ->
  glyph_atlas_create host fuel path ph charset char_type use_sdf = Some (Returns atlas) ->
  chars atlas = Some cs ->
  ch_codepoint <$> cs = charset_codepoints char_type (charset_or_default charset).
Proof.
  intros Hfont Hlen Hcreate Hcs.
  destruct (create_chars _ _ _ _ _ _ _ _ _ Hfont Hcreate cs Hcs)
    as (fresh & st & _ & Hloop & -> & _).
  cbv zeta in Hloop.
  rewrite (finish_last_row_keeps _ _ keeps_codepoint).
  rewrite (pack_loop_keeps _ _ _ _ keeps_codepoint _ _ _ Hloop).
  unfold pass_start. state_fields. rewrite rasterized_codepoints.
  rewrite charset_length_codepoints, Nat2Z.id by exact Hlen.
  apply read_codepoints_charset.
Qed.

(** C3, as the code has it.  When the font loads and the charset is shorter
    than 2^31 bytes, [num_chars] of the returned atlas is the number of
    codepoints decoded from the charset, a codepoint that occurs twice
    counted twice, and the entries carry these codepoints in charset order;
    it is the number of distinct codepoints exactly when no codepoint
    repeats. *)
Theorem num_chars_counts_every_codepoint
    (host : host_t) (fuel : nat) (path : cstring) (ph : float) (charset : option cstring)
    (char_type : glyph_encoding_type_t) (use_sdf : bool)
    (font : glyph_font_t) (atlas : glyph_atlas_t) :
  glyph_ttf_load_font_from_file host path = Some font ->
  Z.of_nat (strlen (charset_or_default charset)) < 2 ^ 31 ->
  glyph_atlas_create host fuel path ph charset char_type use_sdf = Some (Returns atlas) ->
  num_chars atlas
    = Z.of_nat (length (charset_codepoints char_type (charset_or_default charset))) /\
  (forall cs, chars atlas = Some cs ->
     map ch_codepoint cs = charset_codepoints char_type (charset_or_default charset)) /\
  (num_chars atlas
     = Z.of_nat (distinct_codepoints char_type (charset_or_default charset)) <->
   NoDup (charset_codepoints char_type (charset_or_default charset))).
Proof.
  intros Hfont Hlen Hcreate.
  pose proof (create_num_chars _ _ _ _ _ _ _ _ _ Hfont Hcreate) as Hnum.
  rewrite charset_length_codepoints in Hnum by exact Hlen.
  split; [exact Hnum|]. split.
  - intros cs Hcs. rewrite map_fmap.
    exact (created_codepoints host fuel path ph charset char_type use_sdf font atlas cs
             Hfont Hlen Hcreate Hcs).
  - rewrite Hnum, <- remove_dups_same_length. unfold distinct_codepoints. lia.
Qed.

Lemma num_chars_counts_every_codepoint_witness :
  exists atlas,
    glyph_atlas_create (sample_host (sample_font 20 30) true true true) 8 font_path (Float.of_int 32)
      (Some (list_byte_of_string "ABA")) GLYPH_ENCODING_UTF8 false = Some (Returns atlas) /\
    num_chars atlas = 3 /\
    (forall cs, chars atlas = Some cs -> map ch_codepoint cs = [65; 66; 65]).
Proof.
  eexists. split; [vm_compute; reflexivity|].
  pose proof (num_chars_counts_every_codepoint
                (sample_host (sample_font 20 30) true true true) 8 font_path (Float.of_int 32)
                (Some (list_byte_of_string "ABA")) GLYPH_ENCODING_UTF8 false
                (sample_font 20 30) _ eq_refl ltac:(vm_compute; reflexivity)
                ltac:(vm_compute; reflexivity)) as (Hnum & Hcs & _).
  split; [exact Hnum | exact Hcs].
Defined.

(** C3 as stated fails: the charset "AA" has one distinct codepoint and the
    atlas built from it has two entries. *)
Lemma num_chars_counts_duplicates :
  ~ num_chars_is_distinct_count (sample_host (sample_font 20 30) true true true) 8
      font_path (Float.of_int 32) (list_byte_of_string "AA") GLYPH_ENCODING_ASCII false.
Proof.
  intros H. specialize (H _ ltac:(vm_compute; reflexivity)). vm_compute in H. discriminate H.
Qed.

(** ** Termination of the packing loop *)

Lemma sample_glyphs_rasterized :
  rs_temp_glyphs
    (rasterized (sample_host (sample_font 1000 10) true true true) (sample_font 1000 10)
                (Float.of_int 32) (list_byte_of_string "ABC") GLYPH_ENCODING_ASCII false stale_cell)
  = sample_glyphs.
Proof. reflexivity. Qed.

Lemma pass_start_inv temp_glyphs glyph_order n side cs :
  0 < side <= Int.max_signed ->
  pack_inv temp_glyphs glyph_order n side (pass_start side cs).
Proof.
  intros Hside. unfold pack_inv, pass_start. state_fields.
  unfold padding. cbn [stacked_rows].
  repeat (split; [first [lia | reflexivity]|]).
  exists 0. split; [lia|]. rewrite Z.pow_0_r. lia.
Qed.

Section PackReturns.

Variable temp_glyphs : list temp_glyph_t.
Variable glyph_order : list nat.
Variable n : nat.
Variable k0 : Z.

Hypothesis heights_nonneg : Forall (fun g => 0 <= tg_height g) temp_glyphs.
Hypothesis rows_fit : needed_height temp_glyphs glyph_order n <= 2 ^ 14.
Hypothesis first_side_pow2 : 11 <= k0 <= 14.

#[local] Abbreviation ploop := (pack_loop temp_glyphs glyph_order n).

Lemma rows_fit_int : needed_height temp_glyphs glyph_order n <= 2 ^ 30.
Proof. apply Z.le_trans with (2 ^ 14); [exact rows_fit | lia]. Qed.

(** A side the loop has reached is a power of two; one that is still too low
    has a double of at most 16384, whose [memset] stays inside the image. *)
Lemma low_side_clears st :
  pack_inv temp_glyphs glyph_order n (2 ^ k0) st ->
  atlas_height st < needed_height temp_glyphs glyph_order n ->
  clears (2 * atlas_height st) = true /\ 2 * atlas_height st <= 2 ^ 14.
Proof.
  intros (_ & _ & _ & _ & _ & _ & _ & k & Hk & Hpow) Hlow.
  rewrite <- Z.pow_add_r in Hpow by lia.
  assert (Hlt : 2 ^ (k0 + k) < 2 ^ 14) by lia.
  apply Z.pow_lt_mono_r_iff in Hlt; [|lia..].
  rewrite Hpow. replace (2 * 2 ^ (k0 + k)) with (2 ^ (k0 + k + 1))
    by (rewrite (Z.pow_add_r 2 (k0 + k) 1) by lia; lia).
  split.
  - rewrite clears_pow2 by lia. apply negb_true_iff, Z.eqb_neq. lia.
  - apply Z.pow_le_mono_r; lia.
Qed.

Lemma pack_loop_terminates m st :
  pack_inv temp_glyphs glyph_order n (2 ^ k0) st ->
  (pack_measure temp_glyphs glyph_order n st <= m)%nat ->
  atlas_height st <= 2 ^ 14 ->
  exists st', ploop (S m) st = Some (Returns st') /\
              pack_inv temp_glyphs glyph_order n (2 ^ k0) st' /\ order_idx st' = n /\
              atlas_height st' <= 2 ^ 14.
Proof.
  revert st. induction m as [|m IH]; intros st Hinv Hm Hside; rewrite pack_loop_S;
    destruct (Nat.ltb_spec (order_idx st) n) as [Hlt | Hge].
  - unfold pack_measure in Hm. lia.
  - exists st. split; [reflexivity|]. split; [exact Hinv|]. split; [|exact Hside].
    destruct Hinv as (Hidx & _). lia.
  - destruct (pack_step_cases temp_glyphs glyph_order n heights_nonneg rows_fit_int
                _ st Hinv Hlt)
      as [(_ & st1 & -> & Hinv1 & Hi & Hh) | (_ & Hlow & cs & -> & Hinv1)].
    + apply IH; [exact Hinv1 | | lia]. unfold pack_measure in *. rewrite Hi, Hh. lia.
    + destruct (low_side_clears st Hinv Hlow) as [-> Hside'].
      apply IH; [exact Hinv1 | | exact Hside'].
      unfold pack_measure in *. cbn [pass_start order_idx atlas_height].
      destruct Hinv as (_ & _ & _ & _ & Hpos & _).
      assert (S (Z.to_nat (needed_height temp_glyphs glyph_order n - 2 * atlas_height st))
                <= Z.to_nat (needed_height temp_glyphs glyph_order n - atlas_height st))%nat
        by lia.
      nia.
  - exists st. split; [reflexivity|]. split; [exact Hinv|]. split; [|exact Hside].
    destruct Hinv as (Hidx & _). lia.
Qed.

End PackReturns.

Lemma pack_loop_more temp_glyphs glyph_order n fuel extra st res :
  pack_loop temp_glyphs glyph_order n fuel st = Some res ->
  pack_loop temp_glyphs glyph_order n (fuel + extra) st = Some res.
Proof.
  revert st. induction fuel as [|fuel IH]; intros st H; [discriminate|].
  change (S fuel + extra)%nat with (S (fuel + extra)).
  rewrite pack_loop_S in *.
  destruct (order_idx st <? n)%nat; [|exact H].
  destruct (pack_step temp_glyphs glyph_order st); [apply IH, H | exact H..].
Qed.

(** More iterations do not change what a call has come to. *)
Lemma glyph_atlas_create_more host fuel extra path ph charset char_type use_sdf res :
  glyph_atlas_create host fuel path ph charset char_type use_sdf = Some res ->
  glyph_atlas_create host (fuel + extra) path ph charset char_type use_sdf = Some res.
Proof.
  unfold glyph_atlas_create.
  destruct (glyph_ttf_load_font_from_file host path); [|exact id].
  destruct (malloc_chars host); [|exact id].
  destruct (negb (malloc_temp_glyphs host)); [exact id|].
  destruct (negb (malloc_glyph_order host)); [exact id|].
  destruct (pack_init _ _); try exact id.
  destruct (pack_loop _ _ _ fuel _) as [r|] eqn:Hloop; [|discriminate].
  rewrite (pack_loop_more _ _ _ _ extra _ _ Hloop). exact id.
Qed.

(** C5, at a letter A 20 pixels wide and 20000 pixels high.  The glyph does
    not fit the atlas of 2048 x 2048, and the atlas is doubled three times, to
    16384 x 16384, where the glyph still does not fit.  The fourth restart
    asks [memset] for 32768 * 32768 * 3 bytes, an [int] product that has
    wrapped to -2^30, which as a [size_t] is more than the image holds: the
    call is stopped in that [memset], however many iterations it is given,
    and returns no packing. *)
Theorem packing_stops_in_memset_at_32768 :
  forall extra,
    glyph_atlas_create (sample_host (sample_font 20 20000) true true true) (4 + extra)
      font_path (Float.of_int 32) (Some (list_byte_of_string "A")) GLYPH_ENCODING_ASCII false
    = Some WritesOutside.
Proof.
  intros extra. apply glyph_atlas_create_more. vm_compute. reflexivity.
Qed.

(** ** Glyphs without a bitmap *)

Section EmptyGlyphs.

Variable temp_glyphs : list temp_glyph_t.
Variable glyph_order : list nat.
Variable n : nat.

Lemma align_row_other row cs j :
  (forall r, r ∈ row -> rg_index r <> j) ->
  align_row temp_glyphs row cs !! j = cs !! j.
Proof.
  unfold align_row. generalize (row_max_yoff temp_glyphs row) as m. intros m.
  revert cs. induction row as [|r row IH]; intros cs Hrow; cbn [fold_left]; [reflexivity|].
  rewrite IH by (intros r' Hr'; apply Hrow; now right).
  apply list_lookup_alter_ne, Hrow. now left.
Qed.

Lemma align_row_empty_glyph row cs j :
  (forall r, r ∈ row -> is_empty_glyph (glyph temp_glyphs (rg_index r)) = false) ->
  is_empty_glyph (glyph temp_glyphs j) = true ->
  align_row temp_glyphs row cs !! j = cs !! j.
Proof.
  intros Hrow Hj. apply align_row_other. intros r Hr Heq.
  rewrite <- Heq, (Hrow r Hr) in Hj. discriminate.
Qed.

Lemma pack_step_empty_cleared st st' :
  (order_idx st < length glyph_order)%nat ->
  pack_step temp_glyphs glyph_order st = Returns st' ->
  empty_cleared temp_glyphs glyph_order st ->
  empty_cleared temp_glyphs glyph_order st'.
Proof.
  intros Hlen Hst [Hrow Hdone]. revert Hst. unfold pack_step.
  destruct (lookup_lt_is_Some_2 glyph_order (order_idx st) Hlen) as [i Hi].
  rewrite (nth_lookup_Some _ _ 0%nat _ Hi).
  destruct (is_empty_glyph (glyph temp_glyphs i)) eqn:Hempty.
  { intros [= <-]. split; unfold skip_glyph; state_fields; [exact Hrow|].
    intros p j c Hp Hj Hje Hc.
    destruct (Nat.eq_dec j i) as [-> | Hne].
    - rewrite list_lookup_alter_eq in Hc. destruct (atlas_chars st !! i); [|discriminate].
      injection Hc as <-. repeat split.
    - rewrite list_lookup_alter_ne in Hc by congruence.
      apply (Hdone p j c); [|assumption..].
      destruct (Nat.eq_dec p (order_idx st)) as [-> | ?]; [congruence | lia]. }
  set (st1 := if _ >? atlas_width st then close_row temp_glyphs st else st).
  assert (H1 : empty_cleared temp_glyphs glyph_order st1 /\ order_idx st1 = order_idx st).
  { subst st1. destruct (_ >? atlas_width st); [|split; [split; assumption | reflexivity]].
    split; [|reflexivity]. split; unfold close_row; state_fields.
    - intros r Hr. now apply elem_of_nil in Hr.
    - intros p j c Hp Hj Hje Hc. rewrite align_row_empty_glyph in Hc by assumption.
      now apply (Hdone p j c). }
  destruct H1 as [[Hrow1 Hdone1] Hidx1].
  destruct (_ >? atlas_height st1).
  - intros Hst. apply grow_and_restart_returns in Hst as ->.
    split; unfold restarted; state_fields.
    + intros r Hr. now apply elem_of_nil in Hr.
    + intros p j c Hp. lia.
  - intros [= <-]. split; unfold place_glyph; state_fields.
    + intros r Hr. apply elem_of_app in Hr as [Hr | Hr]; [now apply Hrow1|].
      apply list_elem_of_singleton in Hr as ->. exact Hempty.
    + intros p j c Hp Hj Hje Hc.
      assert (j <> i) by (intros ->; congruence).
      rewrite list_lookup_alter_ne in Hc by congruence.
      apply (Hdone1 p j c); [|assumption..].
      destruct (Nat.eq_dec p (order_idx st)) as [-> | ?]; [congruence | lia].
Qed.

Lemma pack_loop_empty_cleared fuel st st' :
  length glyph_order = n ->
  pack_loop temp_glyphs glyph_order n fuel st = Some (Returns st') ->
  empty_cleared temp_glyphs glyph_order st ->
  empty_cleared temp_glyphs glyph_order st' /\ (n <= order_idx st')%nat.
Proof.
  intros Hn Hloop. apply (pack_loop_ind temp_glyphs glyph_order n _) with (fuel := fuel);
    [|exact Hloop].
  intros s s' Hlt Hs Hinv. apply (pack_step_empty_cleared s s'); [lia | exact Hs | exact Hinv].
Qed.

(** When the loop is left, and after the last row is closed, every glyph
    without a bitmap has a cleared entry. *)
Lemma packed_empty_glyph_cleared fuel size cs0 st i c :
  Permutation (seq 0 n) glyph_order ->
  pack_loop temp_glyphs glyph_order n fuel (pass_start size cs0) = Some (Returns st) ->
  (i < n)%nat -> is_empty_glyph (glyph temp_glyphs i) = true ->
  finish_last_row temp_glyphs st !! i = Some c ->
  zero_geometry c.
Proof.
  intros Hperm Hloop Hi Hempty Hc.
  assert (Hn : length glyph_order = n).
  { rewrite <- Hperm. apply length_seq. }
  assert (Hinit : empty_cleared temp_glyphs glyph_order (pass_start size cs0)).
  { split; unfold pass_start; state_fields.
    - intros r Hr. now apply elem_of_nil in Hr.
    - intros p j d Hp. lia. }
  destruct (pack_loop_empty_cleared fuel _ _ Hn Hloop Hinit) as [[Hrow Hdone] Hidx].
  assert (Hin : i ∈ glyph_order).
  { rewrite <- Hperm. apply elem_of_seq. lia. }
  apply list_elem_of_lookup in Hin as [p Hp].
  pose proof (lookup_lt_Some _ _ _ Hp) as Hplt.
  apply (Hdone p i c); [lia | exact Hp | exact Hempty|].
  unfold finish_last_row in Hc. destruct (current_row st) as [|r row] eqn:Hcur; [exact Hc|].
  now rewrite align_row_empty_glyph in Hc.
Qed.

End EmptyGlyphs.

(** ** Codepoints without a glyph *)

Lemma created_chars_length
    (host : host_t) (fuel : nat) (path : cstring) (ph : float) (charset : option cstring)
    (char_type : glyph_encoding_type_t) (use_sdf : bool)
    (font : glyph_font_t) (atlas : glyph_atlas_t) (cs : list glyph_atlas_char_t) :
  glyph_ttf_load_font_from_file host path = Some font ->
  Z.of_nat (strlen (charset_or_default charset)) < 2 ^ 31 ->
  glyph_atlas_create host fuel path ph charset char_type use_sdf = Some (Returns atlas) ->
  chars atlas = Some cs ->
  Z.to_nat (num_chars atlas) = length cs.
Proof.
  intros Hfont Hlen Hcreate Hcs.
  rewrite (create_num_chars _ _ _ _ _ _ _ _ _ Hfont Hcreate).
  rewrite charset_length_codepoints, Nat2Z.id by exact Hlen.
  rewrite <- (created_codepoints _ _ _ _ _ _ _ _ _ _ Hfont Hlen Hcreate Hcs).
  apply length_fmap.
Qed.

(** Every atlas [glyph_atlas_create] returns has room for its entries. *)
Lemma created_atlas_allocated
    (host : host_t) (fuel : nat) (path : cstring) (ph : float) (charset : option cstring)
    (char_type : glyph_encoding_type_t) (use_sdf : bool) (atlas : glyph_atlas_t) :
  Z.of_nat (strlen (charset_or_default charset)) < 2 ^ 31 ->
  glyph_atlas_create host fuel path ph charset char_type use_sdf = Some (Returns atlas) ->
  chars_allocated (Some atlas).
Proof.
  intros Hlen Hcreate. unfold chars_allocated.
  destruct (chars atlas) as [cs|] eqn:Hcs; [|exact I].
  destruct (glyph_ttf_load_font_from_file host path) as [font|] eqn:Hfont.
  - rewrite (created_chars_length _ _ _ _ _ _ _ _ _ _ Hfont Hlen Hcreate Hcs). lia.
  - unfold glyph_atlas_create in Hcreate. rewrite Hfont in Hcreate.
    injection Hcreate as <-. discriminate Hcs.
Qed.

(** The entry of a codepoint without a glyph, at the codepoint's place in the
    charset: cleared by the packer, its advance never assigned. *)
Lemma created_missing_entry
    (host : host_t) (fuel : nat) (path : cstring) (ph : float) (charset : option cstring)
    (char_type : glyph_encoding_type_t) (use_sdf : bool) (font : glyph_font_t)
    (fresh : nat -> glyph_atlas_char_t) (atlas : glyph_atlas_t)
    (cs : list glyph_atlas_char_t) (i : nat) (cp : Z) :
  glyph_ttf_load_font_from_file host path = Some font ->
  Z.of_nat (strlen (charset_or_default charset)) < 2 ^ 31 ->
  malloc_chars host = Some fresh ->
  glyph_atlas_create host fuel path ph charset char_type use_sdf = Some (Returns atlas) ->
  chars atlas = Some cs ->
  charset_codepoints char_type (charset_or_default charset) !! i = Some cp ->
  missing_glyph font cp = true ->
  exists c, cs !! i = Some c /\ ch_codepoint c = cp /\ zero_geometry c /\
            ch_advance c = ch_advance (fresh i).
Proof.
  intros Hfont Hlen Hfresh Hcreate Hcs Hcp Hmiss.
  destruct (create_chars _ _ _ _ _ _ _ _ _ Hfont Hcreate cs Hcs)
    as (fresh' & st & Hfresh' & Hloop & -> & _).
  rewrite Hfresh in Hfresh'. injection Hfresh' as <-. cbv zeta in Hloop.
  set (cset := charset_or_default charset) in *.
  set (rs := rasterized host font ph cset char_type use_sdf fresh) in *.
  set (temp := rs_temp_glyphs rs) in *.
  set (n := Z.to_nat (charset_length char_type cset)) in *.
  assert (Hn : n = length (charset_codepoints char_type cset)).
  { subst n. now rewrite charset_length_codepoints, Nat2Z.id. }
  assert (Hi : (i < n)%nat) by (rewrite Hn; eapply lookup_lt_Some, Hcp).
  assert (Hreads : read_codepoints char_type cset n 0 0 = charset_codepoints char_type cset).
  { rewrite Hn. apply read_codepoints_charset. }
  assert (Hrs : rs_chars rs !! i = Some (set_codepoint cp (fresh i))).
  { subst rs. unfold rasterized, rasterize_all. fold n.
    rewrite rasterize_fold_chars. cbn [rs_chars rs_charset_idx].
    destruct (decide (0 <= i < 0 + n)%nat); [|lia].
    rewrite Hreads, Nat.sub_0_r, (nth_lookup_Some _ _ 0 _ Hcp).
    rewrite map_fmap, list_lookup_fmap, lookup_seq_lt by lia. cbn.
    unfold raster_entry. now rewrite Hmiss. }
  assert (Hempty : is_empty_glyph (glyph temp i) = true).
  { destruct (rasterize_fold_temp_missing host font ph cset char_type use_sdf n 0
                {| rs_charset_idx := 0; rs_chars := map fresh (seq 0 n);
                   rs_temp_glyphs := []; rs_total_width := 0; rs_max_height := 0 |}
                i eq_refl Hi) as (g & Hg & Hnone).
    { cbn [rs_charset_idx]. rewrite Hreads, (nth_lookup_Some _ _ 0 _ Hcp). exact Hmiss. }
    cbn [Nat.add] in Hg.
    unfold glyph. subst temp rs. unfold rasterized, rasterize_all. fold n.
    rewrite (nth_lookup_Some _ _ temp_glyph_zero _ Hg).
    unfold is_empty_glyph. now rewrite Hnone. }
  set (final := finish_last_row temp st).
  assert (Hkeep : forall (B : Type) (f : glyph_atlas_char_t -> B),
             packer_keeps f -> f <$> final = f <$> rs_chars rs).
  { intros B f Hf. subst final. rewrite (finish_last_row_keeps _ _ Hf).
    now rewrite (pack_loop_keeps _ _ _ _ Hf _ _ _ Hloop). }
  assert (Hc : exists c, final !! i = Some c).
  { apply lookup_lt_is_Some. apply lookup_lt_Some in Hrs.
    pose proof (f_equal length (Hkeep _ _ keeps_cell)) as Hl.
    rewrite !length_fmap in Hl. lia. }
  destruct Hc as [c Hc]. exists c. split; [exact Hc|].
  pose proof (f_equal (fun l => l !! i) (Hkeep _ _ keeps_codepoint)) as Hcode.
  pose proof (f_equal (fun l => l !! i) (Hkeep _ _ keeps_advance)) as Hadv.
  cbn beta in Hcode, Hadv. rewrite !list_lookup_fmap, Hc, Hrs in Hcode, Hadv.
  injection Hcode as Hcode. injection Hadv as Hadv.
  split; [exact Hcode|]. split; [|exact Hadv].
  eapply (packed_empty_glyph_cleared temp (sort_glyph_order temp n) n fuel);
    [apply sort_glyph_order_perm | exact Hloop | exact Hi | exact Hempty | exact Hc].
Qed.

(** ** Where the code leaves the specification *)

(** C1, at two inputs.  With three 1000 x 10 bitmaps whose [yoff] are 0, 20
    and 12, A and B fill the first row and C opens the second; closing the
    first row moves A down by 20 pixels, onto C: A is [[4,1004) x [24,34)], C
    is [[4,1004) x [18,28)].  With one bitmap 3000 pixels wide the atlas stays
    2048 wide and the entry is [[4,3004) x [8,18)]. *)
Theorem packed_rectangles_overlap :
  (exists atlas,
     glyph_atlas_create (sample_host (sample_font 1000 10) true true true) 8 font_path
       (Float.of_int 32) (Some (list_byte_of_string "ABC")) GLYPH_ENCODING_ASCII false = Some (Returns atlas) /\
     ~ well_packed atlas) /\
  (exists atlas a,
     glyph_atlas_create (sample_host (sample_font 3000 10) true true true) 8 font_path
       (Float.of_int 32) (Some (list_byte_of_string "A")) GLYPH_ENCODING_ASCII false = Some (Returns atlas) /\
     chars atlas = Some [a] /\ ch_width a <> 0 /\ ~ rect_inside (image atlas) a).
Proof.
  split.
  - eexists. split; [vm_compute; reflexivity|].
    intros Hpacked. destruct (Hpacked _ eq_refl) as [Hdisjoint _].
    specialize (Hdisjoint 0%nat 2%nat _ _ ltac:(lia) eq_refl eq_refl).
    cbn in Hdisjoint. unfold rects_disjoint in Hdisjoint. cbn in Hdisjoint. lia.
  - eexists. eexists. split; [vm_compute; reflexivity|].
    split; [reflexivity|]. split; [cbn; lia|].
    unfold rect_inside. cbn. lia.
Qed.

(** C2, as the code has it.  For every codepoint of the charset that the font
    does not map to a glyph, the returned atlas has an entry that the lookup
    finds, with that codepoint and width 0; but the advance of that entry is
    what the fresh [chars] block held in its cell.  The fallback
    [(int)(pixel_height * 0.5)] is stored in [temp_glyphs] and never copied. *)
Theorem missing_glyph_advance_not_stored
    (host : host_t) (fuel : nat) (path : cstring) (ph : float) (charset : option cstring)
    (char_type : glyph_encoding_type_t) (use_sdf : bool) (font : glyph_font_t)
    (fresh : nat -> glyph_atlas_char_t) (atlas : glyph_atlas_t)
    (cs : list glyph_atlas_char_t) (cp : Z) :
  glyph_ttf_load_font_from_file host path = Some font ->
  Z.of_nat (strlen (charset_or_default charset)) < 2 ^ 31 ->
  malloc_chars host = Some fresh ->
  glyph_atlas_create host fuel path ph charset char_type use_sdf = Some (Returns atlas) ->
  chars atlas = Some cs ->
  cp ∈ charset_codepoints char_type (charset_or_default charset) ->
  missing_glyph font cp = true ->
  exists k c,
    glyph_atlas_find_char (Some atlas) cp = FoundAt k /\
    cs !! k = Some c /\ ch_codepoint c = cp /\ ch_width c = 0 /\
    ch_advance c = ch_advance (fresh k).
Proof.
  intros Hfont Hlen Hfresh Hcreate Hcs Hin Hmiss.
  apply list_elem_of_lookup in Hin as [i Hi].
  pose proof (created_chars_length _ _ _ _ _ _ _ _ _ _ Hfont Hlen Hcreate Hcs) as Hnum.
  pose proof (created_codepoints _ _ _ _ _ _ _ _ _ _ Hfont Hlen Hcreate Hcs) as Hcodes.
  pose proof (find_char_loop_spec cs cp (length cs) 0 (Nat.le_refl _)) as Hspec.
  unfold glyph_atlas_find_char. rewrite Hcs, Hnum.
  destruct (find_char_loop cs cp 0 (length cs)) as [|k|k]; [| |contradiction].
  - destruct (created_missing_entry _ _ _ _ _ _ _ _ _ _ _ _ _
                Hfont Hlen Hfresh Hcreate Hcs Hi Hmiss) as (c & Hc & Hcode & _).
    exfalso. apply (Hspec i c); [|exact Hc | exact Hcode].
    apply lookup_lt_Some in Hc. lia.
  - destruct Hspec as (_ & (c & Hc & Hcode) & _).
    assert (Hk : charset_codepoints char_type (charset_or_default charset) !! k = Some cp).
    { rewrite <- Hcodes, list_lookup_fmap, Hc. cbn. now rewrite Hcode. }
    destruct (created_missing_entry _ _ _ _ _ _ _ _ _ _ _ _ _
                Hfont Hlen Hfresh Hcreate Hcs Hk Hmiss) as (c' & Hc' & Hcode' & Hzero & Hadv).
    exists k, c'. repeat (split; [first [reflexivity | assumption]|]).
    split; [apply Hzero | exact Hadv].
Qed.

Lemma missing_glyph_advance_not_stored_witness :
  exists atlas cs k z,
    glyph_atlas_create (sample_host (sample_font 20 30) true true true) 8 font_path
      (Float.of_int 32) (Some (list_byte_of_string "AZ")) GLYPH_ENCODING_ASCII false = Some (Returns atlas) /\
    chars atlas = Some cs /\
    (glyph_atlas_find_char (Some atlas) 90 = FoundAt k /\
     cs !! k = Some z /\ ch_codepoint z = 90 /\ ch_width z = 0 /\
     ch_advance z = ch_advance (stale_cell k)) /\
    ch_advance (stale_cell k) = 7777 /\
    float_to_int (Float.mul (Float.of_int 32) Float.half) = 16.
Proof.
  eexists. eexists.
  destruct (missing_glyph_advance_not_stored
              (sample_host (sample_font 20 30) true true true) 8 font_path (Float.of_int 32)
              (Some (list_byte_of_string "AZ")) GLYPH_ENCODING_ASCII false
              (sample_font 20 30) stale_cell _ _ 90
              eq_refl ltac:(vm_compute; reflexivity) eq_refl
              ltac:(vm_compute; reflexivity) eq_refl
              ltac:(vm_compute; apply list_elem_of_In; cbn; tauto) eq_refl)
    as (k & z & H).
  exists k, z. split; [vm_compute; reflexivity|]. split; [reflexivity|].
  split; [exact H|]. split; reflexivity.
Defined.

(** C4, as the code has it.  Without the font the result is the zero atlas.
    When the font has loaded and one of the three allocations fails, [chars]
    is [NULL] and the image is empty, but [num_chars] is the length computed
    for the charset and [pixel_height] the height asked for: both were
    assigned before the allocation and are not reset. *)
Theorem allocation_failure_keeps_num_chars
    (host : host_t) (fuel : nat) (path : cstring) (ph : float) (charset : option cstring)
    (char_type : glyph_encoding_type_t) (use_sdf : bool) :
  (glyph_ttf_load_font_from_file host path = None ->
   glyph_atlas_create host fuel path ph charset char_type use_sdf = Some (Returns atlas_zero)) /\
  (forall font,
     glyph_ttf_load_font_from_file host path = Some font ->
     malloc_chars host = None \/ malloc_temp_glyphs host = false \/
       malloc_glyph_order host = false ->
     glyph_atlas_create host fuel path ph charset char_type use_sdf =
     Some (Returns {| image := image_zero; chars := None;
                      num_chars := charset_length char_type (charset_or_default charset);
                      pixel_height := ph |})).
Proof.
  unfold glyph_atlas_create. split.
  - intros ->. reflexivity.
  - intros font -> Hfail. fold (charset_or_default charset).
    destruct (malloc_chars host); [|reflexivity].
    destruct (malloc_temp_glyphs host); cbn [negb]; [|reflexivity].
    destruct (malloc_glyph_order host); cbn [negb]; [|reflexivity].
    destruct Hfail as [Hfail | [Hfail | Hfail]]; discriminate Hfail.
Qed.

Lemma allocation_failure_keeps_num_chars_witness :
  exists atlas,
    glyph_atlas_create (sample_host (sample_font 20 30) true false true) 8
      font_path (Float.of_int 32) (Some (list_byte_of_string "ABC")) GLYPH_ENCODING_ASCII false
    = Some (Returns atlas) /\
    chars atlas = None /\ image atlas = image_zero /\
    num_chars atlas = 3 /\ atlas <> atlas_zero.
Proof.
  eexists. split.
  - apply (proj2 (allocation_failure_keeps_num_chars
                    (sample_host (sample_font 20 30) true false true) 8 font_path
                    (Float.of_int 32) (Some (list_byte_of_string "ABC")) GLYPH_ENCODING_ASCII false)
                 (sample_font 20 30) eq_refl).
    right. left. reflexivity.
  - repeat (split; [reflexivity|]). discriminate.
Defined.

Lemma find_char_first_match_or_null_witness :
  exists atlas,
    glyph_atlas_create (sample_host (sample_font 20 30) true true true) 8 font_path
      (Float.of_int 32) (Some (list_byte_of_string "ABA")) GLYPH_ENCODING_ASCII false = Some (Returns atlas) /\
    glyph_atlas_find_char (Some atlas) 65 = FoundAt 0 /\
    glyph_atlas_find_char (Some atlas) 68 = FoundNull /\
    (forall j c, atlas_entries (Some atlas) !! j = Some c -> ch_codepoint c <> 68).
Proof.
  eexists. split; [vm_compute; reflexivity|].
  split; [reflexivity|]. split; [reflexivity|].
  match goal with
  | |- forall j c, atlas_entries (Some ?a) !! j = _ -> _ =>
    assert (Hroom : chars_allocated (Some a)) by (cbn; lia);
    exact (proj1 (proj1 (find_char_first_match_or_null (Some a) 68 Hroom)) eq_refl)
  end.
Defined.

(** * Part IV: further properties of the code *)

(** ** The text decoder *)

Ltac bool_props :=
  repeat match goal with
  | H : (_ <=? _)%nat = true |- _ => apply Nat.leb_le in H
  | H : (_ <=? _)%nat = false |- _ => apply Nat.leb_gt in H
  | H : (_ <? _)%nat = true |- _ => apply Nat.ltb_lt in H
  | H : (_ <? _)%nat = false |- _ => apply Nat.ltb_ge in H
  end.

Lemma utf8_decode_index (str : cstring) (i : nat) :
  (if stalls_at str i
   then snd (glyph_utf8_decode str i) = i
   else (i < snd (glyph_utf8_decode str i) <= i + 4)%nat /\
        (snd (glyph_utf8_decode str i) <= strlen str)%nat) /\
  (utf8_sequence_at str i = true -> stalls_at str i = false).
Proof.
  unfold stalls_at, multibyte_lead, utf8_sequence_at, glyph_utf8_decode, not_continuation.
  cbv zeta. cbn [Nat.add].
  destruct (strlen str <=? i)%nat eqn:Hend.
  { bool_props. cbn [orb]. split; [reflexivity|].
    intros H. apply andb_true_iff in H as [H _]. bool_props. lia. }
  bool_props. apply Nat.ltb_lt in Hend as Hlt. rewrite Hlt. cbn [orb andb].
  destruct (uchar_at str i <? 128) eqn:H1; cbn [negb andb snd].
  { split; [lia | reflexivity]. }
  destruct (Z.land (uchar_at str i) 224 =? 192) eqn:H2; cbn [orb andb].
  { replace (S i <? strlen str)%nat with (negb (strlen str <=? S i)%nat)
      by (rewrite Nat.leb_antisym, negb_involutive; reflexivity).
    destruct (strlen str <=? S i)%nat eqn:E1; cbn [negb andb snd].
    { split; [reflexivity | discriminate]. }
    bool_props.
    destruct (Z.land (uchar_at str (S i)) 192 =? 128); cbn [negb snd andb];
      (split; [try reflexivity; lia | try discriminate; reflexivity]). }
  destruct (Z.land (uchar_at str i) 240 =? 224) eqn:H3; cbn [orb andb].
  { replace (S (S i) <? strlen str)%nat with (negb (strlen str <=? S (i + 1))%nat).
    2:{ rewrite Nat.leb_antisym, negb_involutive. f_equal. lia. }
    destruct (strlen str <=? S (i + 1))%nat eqn:E1; cbn [negb andb snd].
    { split; [reflexivity | discriminate]. }
    bool_props.
    destruct (Z.land (uchar_at str (S i)) 192 =? 128),
             (Z.land (uchar_at str (S (S i))) 192 =? 128); cbn [negb snd andb orb];
      (split; [try reflexivity; lia | try discriminate; reflexivity]). }
  destruct (Z.land (uchar_at str i) 248 =? 240) eqn:H4; cbn [orb andb].
  { replace (S (S (S i)) <? strlen str)%nat with (negb (strlen str <=? S (i + 2))%nat).
    2:{ rewrite Nat.leb_antisym, negb_involutive. f_equal. lia. }
    destruct (strlen str <=? S (i + 2))%nat eqn:E1; cbn [negb andb snd].
    { split; [reflexivity | discriminate]. }
    bool_props.
    destruct (Z.land (uchar_at str (S i)) 192 =? 128),
             (Z.land (uchar_at str (S (S i))) 192 =? 128),
             (Z.land (uchar_at str (S (S (S i)))) 192 =? 128); cbn [negb snd andb orb];
      (split; [try reflexivity; lia | try discriminate; reflexivity]). }
  cbn [snd]. split; [lia | discriminate].
Qed.

Lemma uchar_at_range str i : 0 <= uchar_at str i < 256.
Proof.
  unfold uchar_at. pose proof (Byte.to_N_bounded (nth i str x00)). lia.
Qed.

Lemma land_ones_range x n : 0 <= n -> 0 <= Z.land x (Z.ones n) < 2 ^ n.
Proof.
  intros Hn. rewrite Z.land_ones by lia. apply Z.mod_pos_bound. lia.
Qed.

Lemma lor_range a b n : 0 <= n -> 0 <= a < 2 ^ n -> 0 <= b < 2 ^ n -> 0 <= Z.lor a b < 2 ^ n.
Proof.
  intros Hn Ha Hb. split; [apply Z.lor_nonneg; lia|].
  destruct (Z.eq_dec (Z.lor a b) 0) as [-> | Hne]; [lia|].
  assert (0 <= Z.lor a b) by (apply Z.lor_nonneg; lia).
  apply Z.log2_lt_pow2; [lia|].
  rewrite Z.log2_lor by lia.
  destruct (Z.eq_dec a 0) as [-> | Ha0], (Z.eq_dec b 0) as [-> | Hb0].
  - exfalso. apply Hne. reflexivity.
  - rewrite Z.max_r by (cbn; apply Z.log2_nonneg). apply Z.log2_lt_pow2; lia.
  - rewrite Z.max_l by (cbn; apply Z.log2_nonneg). apply Z.log2_lt_pow2; lia.
  - apply Z.max_lub_lt; apply Z.log2_lt_pow2; lia.
Qed.

Lemma shiftl_range a k n : 0 <= k -> 0 <= n -> 0 <= a < 2 ^ n -> 0 <= Z.shiftl a k < 2 ^ (n + k).
Proof.
  intros Hk Hn Ha. rewrite Z.shiftl_mul_pow2 by lia. rewrite Z.pow_add_r by lia.
  assert (0 < 2 ^ k) by (apply Z.pow_pos_nonneg; lia). nia.
Qed.

Lemma widen a n m : n <= m -> 0 <= a < 2 ^ n -> 0 <= a < 2 ^ m.
Proof.
  intros Hnm Ha. split; [lia|].
  apply Z.lt_le_trans with (2 ^ n); [lia|]. apply Z.pow_le_mono_r; lia.
Qed.

Ltac bits_range :=
  lazymatch goal with
  | |- 0 <= Z.lor _ _ < 2 ^ 21 => apply lor_range; [lia | bits_range | bits_range]
  | |- 0 <= Z.shiftl (Z.land _ 7) 18 < 2 ^ 21 =>
    apply (shiftl_range _ 18 3); [lia | lia | apply (land_ones_range _ 3); lia]
  | |- 0 <= Z.shiftl (Z.land _ 15) 12 < 2 ^ 21 =>
    apply (widen _ 16 21); [lia|];
    apply (shiftl_range _ 12 4); [lia | lia | apply (land_ones_range _ 4); lia]
  | |- 0 <= Z.shiftl (Z.land _ 31) 6 < 2 ^ 21 =>
    apply (widen _ 11 21); [lia|];
    apply (shiftl_range _ 6 5); [lia | lia | apply (land_ones_range _ 5); lia]
  | |- 0 <= Z.shiftl (Z.land _ 63) 12 < 2 ^ 21 =>
    apply (widen _ 18 21); [lia|];
    apply (shiftl_range _ 12 6); [lia | lia | apply (land_ones_range _ 6); lia]
  | |- 0 <= Z.shiftl (Z.land _ 63) 6 < 2 ^ 21 =>
    apply (widen _ 12 21); [lia|];
    apply (shiftl_range _ 6 6); [lia | lia | apply (land_ones_range _ 6); lia]
  | |- 0 <= Z.land _ 63 < 2 ^ 21 =>
    apply (widen _ 6 21); [lia|]; apply (land_ones_range _ 6); lia
  end.

(** X1. Whatever the bytes, both decoders return a codepoint in
    [[0, 2^21)]: the result is never negative and fits an [int]. *)
Theorem decoded_codepoint_range (str : cstring) (i : nat) :
  0 <= fst (glyph_atlas_utf8_decode str i) < 2 ^ 21 /\
  0 <= fst (glyph_utf8_decode str i) < 2 ^ 21.
Proof.
  pose proof (uchar_at_range str i) as Hc.
  unfold glyph_atlas_utf8_decode, glyph_utf8_decode. cbv zeta.
  split; split_tests; cbn [fst]; try lia; bits_range.
Qed.

Lemma decoders_agree str i :
  utf8_sequence_at str i = true ->
  glyph_atlas_utf8_decode str i = glyph_utf8_decode str i.
Proof.
  intros H. unfold utf8_sequence_at in H.
  unfold glyph_atlas_utf8_decode, glyph_utf8_decode, not_continuation.
  cbn zeta in *.
  replace (S i + 1)%nat with (2 + i)%nat by lia.
  replace (S i + 2)%nat with (3 + i)%nat by lia.
  change (S (S (S i))) with (3 + i)%nat in *.
  change (S (S i)) with (2 + i)%nat in *.
  change (S i) with (1 + i)%nat in *.
  destruct (uchar_at str i <? 128) eqn:E1.
  - apply andb_true_iff in H as [H _]. apply Nat.ltb_lt in H.
    destruct (Nat.leb_spec (strlen str) i); [lia | reflexivity].
  - repeat (apply andb_true_iff in H; destruct H as [H ?]).
    split_tests; try reflexivity; try discriminate;
      repeat match goal with
      | H : _ && _ = true |- _ => apply andb_true_iff in H; destruct H
      | H : (_ <? _)%nat = true |- _ => apply Nat.ltb_lt in H
      | H : (_ <=? _)%nat = true |- _ => apply Nat.leb_le in H
      end; simpl in *; try lia; try congruence.
Qed.

(** Where the text decoder moves on, the charset decoder does the same. *)
Lemma decoders_agree_unless_stalled str i :
  stalls_at str i = false ->
  glyph_atlas_utf8_decode str i = glyph_utf8_decode str i.
Proof.
  unfold stalls_at. intros H.
  apply orb_false_iff in H as [Hend H]. apply Nat.leb_gt in Hend.
  destruct (utf8_sequence_at str i) eqn:Hseq; [apply decoders_agree, Hseq|].
  rewrite andb_true_r in H.
  unfold glyph_atlas_utf8_decode, glyph_utf8_decode. cbv zeta.
  destruct (Nat.leb_spec (strlen str) i) as [|_]; [lia|].
  destruct (uchar_at str i <? 128) eqn:H1; [reflexivity|].
  cbn [negb andb] in H. unfold multibyte_lead in H.
  apply orb_false_iff in H as [H H4]. apply orb_false_iff in H as [H2 H3].
  rewrite H2, H3, H4. reflexivity.
Qed.

Lemma decode_step_advances str i :
  stalls_at str i = false ->
  (i < snd (glyph_utf8_decode str i) <= strlen str)%nat.
Proof.
  intros H. pose proof (proj1 (utf8_decode_index str i)) as P.
  rewrite H in P. lia.
Qed.

Lemma decode_step_stalls str i :
  stalls_at str i = true -> snd (glyph_utf8_decode str i) = i.
Proof.
  intros H. pose proof (proj1 (utf8_decode_index str i)) as P.
  rewrite H in P. exact P.
Qed.

(** X2. [glyph_utf8_decode] never moves the index backwards, by more than four
    bytes, or from inside the string past its end; it moves on from every
    complete well-formed sequence; and it leaves the index where it was exactly
    at the positions [stalls_at] describes. *)
Theorem glyph_utf8_decode_progress (str : cstring) (i : nat) :
  (i <= snd (glyph_utf8_decode str i) <= i + 4)%nat /\
  ((i < strlen str)%nat -> (snd (glyph_utf8_decode str i) <= strlen str)%nat) /\
  (utf8_sequence_at str i = true -> (i < snd (glyph_utf8_decode str i))%nat) /\
  (snd (glyph_utf8_decode str i) = i <-> stalls_at str i = true).
Proof.
  destruct (utf8_decode_index str i) as [Hidx Hseq].
  destruct (stalls_at str i) eqn:Hst.
  - rewrite Hidx. split; [lia|]. split; [lia|]. split; [|tauto].
    intros H. apply Hseq in H. discriminate.
  - split; [lia|]. split; [lia|]. split; [lia|].
    split; [lia | discriminate].
Qed.

Lemma glyph_utf8_decode_progress_witness :
  (0 < snd (glyph_utf8_decode [xe2; x82; xac] 0))%nat /\
  (snd (glyph_utf8_decode [xe2; x82; xac] 0) <= strlen [xe2; x82; xac])%nat.
Proof.
  split.
  - apply (proj1 (proj2 (proj2 (glyph_utf8_decode_progress [xe2; x82; xac] 0)))).
    reflexivity.
  - apply (proj1 (proj2 (glyph_utf8_decode_progress [xe2; x82; xac] 0))).
    simpl. lia.
Defined.

(** ** The loop of [glyph_renderer_draw_text] *)

(** Inside the string, a position where the text decoder stalls is one where
    it answers U+FFFD. *)
Lemma decode_stalled_codepoint str i :
  (i < strlen str)%nat -> stalls_at str i = true ->
  glyph_utf8_decode str i = (0xFFFD, i).
Proof.
  intros Hlt Hst. pose proof (decode_step_stalls _ _ Hst) as Hidx.
  revert Hst Hidx.
  unfold stalls_at, multibyte_lead, glyph_utf8_decode, not_continuation.
  cbv zeta.
  destruct (Nat.leb_spec (strlen str) i) as [|_]; [lia|]. cbn [orb].
  destruct (uchar_at str i <? 128); [discriminate|]. cbn [negb andb].
  destruct (Z.land (uchar_at str i) 224 =? 192).
  { intros _. destruct (strlen str <=? S i)%nat; [reflexivity|].
    destruct (negb _); [reflexivity|]. cbn [snd]. intros H. lia. }
  destruct (Z.land (uchar_at str i) 240 =? 224).
  { intros _. destruct (strlen str <=? S i + 1)%nat; [reflexivity|].
    destruct (_ || _); [reflexivity|]. cbn [snd]. intros H. lia. }
  destruct (Z.land (uchar_at str i) 248 =? 240).
  { intros _. destruct (strlen str <=? S i + 2)%nat; [reflexivity|].
    destruct (_ || _); [reflexivity|]. cbn [snd]. intros H. lia. }
  discriminate.
Qed.

Lemma size_add_small a b : 0 <= a + b < 2 ^ 64 -> Size.add a b = a + b.
Proof. intros H. unfold Size.add, Size.wrap. apply Z.mod_small. exact H. Qed.

Lemma size_mul_small a b : 0 <= a * b < 2 ^ 64 -> Size.mul a b = a * b.
Proof. intros H. unfold Size.mul, Size.wrap. apply Z.mod_small. exact H. Qed.

Lemma find_char_inside atlas cp k :
  chars_allocated atlas -> glyph_atlas_find_char atlas cp <> ReadOutside k.
Proof.
  intros Halloc Hfind. destruct atlas as [a|]; [|discriminate].
  cbn in *. destruct (chars a) as [cs|]; [|discriminate].
  pose proof (find_char_loop_spec cs cp (Z.to_nat (num_chars a)) 0 Halloc) as Hspec.
  rewrite Hfind in Hspec. exact Hspec.
Qed.

Section Batch.

Variable r : glyph_renderer_t.
Variable text : cstring.
Variable effects : Z.

Hypothesis allocated : chars_allocated (Some (rn_atlas r)).
Hypothesis text_short : Z.of_nat (strlen text) < 2 ^ 32.
Hypothesis room : 288 * Z.of_nat (strlen text) <= buffer_bytes r.

#[local] Abbreviation next st :=
  (if is_utf8 (rn_char_type r) then glyph_utf8_decode text (bs_i st)
   else (uchar_at text (bs_i st), S (bs_i st))).

#[local] Abbreviation loop fuel st := (draw_text_loop fuel r text effects (strlen text) st).

#[local] Abbreviation glyphs cps :=
  (Z.of_nat (length (List.filter (visible (rn_atlas r)) cps))).

Lemma draw_lookup_inside cp k : draw_lookup (rn_atlas r) cp <> ReadOutside k.
Proof.
  unfold draw_lookup.
  destruct (glyph_atlas_find_char (Some (rn_atlas r)) cp) eqn:E.
  - apply find_char_inside, allocated.
  - discriminate.
  - exfalso. exact (find_char_inside _ _ _ allocated E).
Qed.

Lemma quads_per_glyph_range : 1 <= quads_per_glyph effects <= 3.
Proof.
  unfold quads_per_glyph.
  destruct (Z.land effects GLYPHGL_BOLD =? 0), (Z.land effects GLYPHGL_UNDERLINE =? 0); lia.
Qed.

(** A quad that ends inside the block is written. *)
Lemma push_quad_inside st :
  0 <= bs_vertex_count st -> 16 * (bs_vertex_count st + 6) <= buffer_bytes r ->
  4 * (bs_vertex_count st + 6) < 2 ^ 64 ->
  Forall (fun w => 0 <= w /\ w + 24 <= 4 * bs_vertex_count st) (bs_writes st) ->
  exists st',
    push_quad r st = Returns st' /\
    bs_i st' = bs_i st /\ bs_drawn st' = bs_drawn st /\
    bs_vertex_count st' = bs_vertex_count st + 6 /\
    Forall (fun w => 0 <= w /\ w + 24 <= 4 * bs_vertex_count st') (bs_writes st').
Proof.
  intros H0 Hroom Hsmall Hw. unfold push_quad.
  rewrite size_add_small, size_mul_small by lia.
  destruct (Z.leb_spec (sizeof_float * (bs_vertex_count st * 4 + 24)) (buffer_bytes r))
    as [_ | Hgt]; [|unfold sizeof_float in Hgt; lia].
  eexists. split; [reflexivity|]. cbn [bs_i bs_drawn bs_vertex_count bs_writes].
  split; [reflexivity|]. split; [reflexivity|]. split; [reflexivity|].
  apply Forall_app. split.
  - eapply Forall_impl; [exact Hw|]. cbn. intros w ?. lia.
  - constructor; [lia | constructor].
Qed.

(** An iteration from inside the text, with the batch as the loop keeps it. *)
Lemma draw_text_step_counts st :
  batch_inv text st -> (bs_i st < strlen text)%nat ->
  exists st',
    draw_text_step r text effects st = Returns st' /\
    bs_i st' = snd (next st) /\
    bs_drawn st' = bs_drawn st ++ [fst (next st)] /\
    bs_vertex_count st' =
      bs_vertex_count st +
      (if visible (rn_atlas r) (fst (next st)) then 6 * quads_per_glyph effects else 0) /\
    Forall (fun w => 0 <= w /\ w + 24 <= 4 * bs_vertex_count st') (bs_writes st').
Proof.
  intros (Hi & Hvc & Hw) Hlt. unfold draw_text_step, visible, quads_per_glyph.
  destruct (next st) as [cp i'] eqn:Hn. cbn [fst snd].
  assert (H64 : 2 ^ 64 = 18446744073709551616) by reflexivity.
  change (2 ^ 32) with 4294967296 in text_short.
  destruct (draw_lookup (rn_atlas r) cp) as [|k|k] eqn:Hl.
  - eexists. split; [reflexivity|]. cbn [bs_i bs_drawn bs_vertex_count bs_writes].
    split; [reflexivity|]. split; [reflexivity|]. split; [lia | exact Hw].
  - destruct (ch_width _ =? 0); cbn [negb].
    { eexists. split; [reflexivity|]. cbn [bs_i bs_drawn bs_vertex_count bs_writes].
      split; [reflexivity|]. split; [reflexivity|]. split; [lia | exact Hw]. }
    set (st0 := {| bs_i := i'; bs_vertex_count := bs_vertex_count st;
                   bs_writes := bs_writes st; bs_drawn := bs_drawn st ++ [cp] |}).
    assert (Hi0 : bs_i st0 = i') by reflexivity.
    assert (Hd0 : bs_drawn st0 = bs_drawn st ++ [cp]) by reflexivity.
    assert (Hc0 : bs_vertex_count st0 = bs_vertex_count st) by reflexivity.
    assert (Hw0 : Forall (fun w => 0 <= w /\ w + 24 <= 4 * bs_vertex_count st0)
                         (bs_writes st0)) by exact Hw.
    clearbody st0.
    destruct (push_quad_inside st0) as (st1 & H1 & Hi1 & Hd1 & Hc1 & Hw1);
      [lia | lia | lia | exact Hw0 |].
    destruct (push_quad_inside st1) as (st2 & H2 & Hi2 & Hd2 & Hc2 & Hw2);
      [lia | lia | lia | exact Hw1 |].
    destruct (push_quad_inside st2) as (st3 & H3 & Hi3 & Hd3 & Hc3 & Hw3);
      [lia | lia | lia | exact Hw2 |].
    destruct (push_quad_inside st1) as (st2' & H2' & Hi2' & Hd2' & Hc2' & Hw2');
      [lia | lia | lia | exact Hw1 |].
    rewrite H1. cbn [mbind outcome_bind].
    destruct (Z.land effects GLYPHGL_BOLD =? 0), (Z.land effects GLYPHGL_UNDERLINE =? 0);
      cbn [negb].
    + exists st1. split; [reflexivity|]. repeat split; first [congruence | lia | assumption].
    + exists st2. split; [exact H2|]. repeat split; first [congruence | lia | assumption].
    + exists st2. rewrite H2. cbn [mbind outcome_bind].
      split; [reflexivity|]. repeat split; first [congruence | lia | assumption].
    + exists st3. rewrite H2. cbn [mbind outcome_bind].
      split; [exact H3|]. repeat split; first [congruence | lia | assumption].
  - exfalso. exact (draw_lookup_inside _ _ Hl).
Qed.

(** The same, where the iteration moves on in the text. *)
Lemma draw_text_step_advancing st :
  batch_inv text st -> (bs_i st < snd (next st) <= strlen text)%nat ->
  exists st',
    draw_text_step r text effects st = Returns st' /\
    batch_inv text st' /\
    bs_i st' = snd (next st) /\
    bs_drawn st' = bs_drawn st ++ [fst (next st)] /\
    bs_vertex_count st' =
      bs_vertex_count st + 6 * quads_per_glyph effects * glyphs [fst (next st)].
Proof.
  intros Hinv Hadv.
  destruct (draw_text_step_counts st Hinv) as (st' & Hstep & Hi' & Hd' & Hc' & Hw'); [lia|].
  exists st'. split; [exact Hstep|].
  destruct Hinv as (Hi & Hvc & _). pose proof quads_per_glyph_range as Hq.
  split; [|split; [exact Hi'|split; [exact Hd'|]]].
  - split; [lia|]. split; [|exact Hw'].
    rewrite Hc'. destruct (visible _ _); lia.
  - rewrite Hc'. cbn [List.filter].
    destruct (visible (rn_atlas r) (fst (next st))); cbn [length]; lia.
Qed.

(** One byte is one character: the loop reads the bytes to the end. *)
Lemma draw_loop_bytes n :
  is_utf8 (rn_char_type r) = false ->
  forall st,
    batch_inv text st -> (strlen text - bs_i st <= n)%nat ->
    exists st',
      loop (S n) st = Some (Returns st') /\
      batch_inv text st' /\
      bs_drawn st' =
        bs_drawn st ++ map (uchar_at text) (seq (bs_i st) (strlen text - bs_i st)) /\
      bs_vertex_count st' =
        bs_vertex_count st +
        6 * quads_per_glyph effects
          * glyphs (map (uchar_at text) (seq (bs_i st) (strlen text - bs_i st))).
Proof.
  intros Hct. induction n as [|n IH]; intros st Hinv Hn; rewrite draw_text_loop_S;
    destruct (Nat.ltb_spec (bs_i st) (strlen text)) as [Hlt | Hge]; try lia.
  - exists st. replace (strlen text - bs_i st)%nat with 0%nat by lia.
    cbn [seq map List.filter length]. rewrite app_nil_r.
    split; [reflexivity|]. split; [exact Hinv|]. split; [reflexivity | lia].
  - destruct (draw_text_step_advancing st Hinv) as (st' & Hstep & Hinv' & Hi' & Hd' & Hc').
    { rewrite Hct. cbn [snd]. lia. }
    rewrite Hct in Hi', Hd', Hc'. cbn [fst snd] in Hi', Hd', Hc'.
    rewrite Hstep.
    destruct (IH st' Hinv') as (st'' & Hloop & Hinv'' & Hd'' & Hc''); [lia|].
    exists st''. split; [exact Hloop|]. split; [exact Hinv''|].
    replace (strlen text - bs_i st)%nat with (S (strlen text - S (bs_i st))) by lia.
    rewrite Hi' in Hd'', Hc''. cbn [seq map].
    split.
    + rewrite Hd'', Hd', <- app_assoc. reflexivity.
    + rewrite Hc'', Hc'. cbn [List.filter].
      destruct (visible (rn_atlas r) (uchar_at text (bs_i st))); cbn [length]; lia.
  - exists st. replace (strlen text - bs_i st)%nat with 0%nat by lia.
    cbn [seq map List.filter length]. rewrite app_nil_r.
    split; [reflexivity|]. split; [exact Hinv|]. split; [reflexivity | lia].
Qed.

(** UTF-8 without a truncated or broken sequence: the loop reads what the
    charset decoder reads. *)
Lemma draw_loop_utf8_ok n :
  is_utf8 (rn_char_type r) = true ->
  forall st,
    batch_inv text st -> utf8_text_ok n text (bs_i st) = true ->
    exists st',
      loop (S n) st = Some (Returns st') /\
      batch_inv text st' /\
      bs_drawn st' = bs_drawn st ++ utf8_codepoints n text (bs_i st) /\
      bs_vertex_count st' =
        bs_vertex_count st +
        6 * quads_per_glyph effects * glyphs (utf8_codepoints n text (bs_i st)).
Proof.
  intros Hct. induction n as [|n IH]; intros st Hinv Hok; rewrite draw_text_loop_S;
    cbn [utf8_text_ok utf8_codepoints] in *.
  - apply Nat.leb_le in Hok.
    destruct (Nat.ltb_spec (bs_i st) (strlen text)); [lia|].
    exists st. cbn [List.filter length]. rewrite app_nil_r.
    split; [reflexivity|]. split; [exact Hinv|]. split; [reflexivity | lia].
  - destruct (Nat.ltb_spec (bs_i st) (strlen text)) as [Hlt | Hge].
    2:{ exists st. cbn [List.filter length]. rewrite app_nil_r.
        split; [reflexivity|]. split; [exact Hinv|]. split; [reflexivity | lia]. }
    apply andb_true_iff in Hok as [Hst Hok]. apply negb_true_iff in Hst.
    pose proof (decode_step_advances _ _ Hst) as Hadv.
    destruct (draw_text_step_advancing st Hinv) as (st' & Hstep & Hinv' & Hi' & Hd' & Hc').
    { rewrite Hct. exact Hadv. }
    rewrite Hct in Hi', Hd', Hc'. rewrite Hstep.
    rewrite <- Hi' in Hok.
    destruct (IH st' Hinv' Hok) as (st'' & Hloop & Hinv'' & Hd'' & Hc'').
    exists st''. split; [exact Hloop|]. split; [exact Hinv''|].
    rewrite (decoders_agree_unless_stalled _ _ Hst). rewrite Hi' in Hd'', Hc''.
    split.
    + rewrite Hd'', Hd', <- app_assoc. reflexivity.
    + rewrite Hc'', Hc'. cbn [List.filter].
      destruct (visible (rn_atlas r) (fst (glyph_utf8_decode text (bs_i st))));
        cbn [length]; lia.
Qed.

(** The iteration reads through no [NULL] pointer and inside [chars]. *)
Lemma draw_text_step_outcome st :
  (exists st', draw_text_step r text effects st = Returns st') \/
  draw_text_step r text effects st = WritesOutside.
Proof.
  unfold draw_text_step. destruct (next st) as [cp i'].
  destruct (draw_lookup (rn_atlas r) cp) as [|k|k] eqn:Hl;
    [eauto | | exfalso; exact (draw_lookup_inside _ _ Hl)].
  destruct (ch_width _ =? 0); [eauto|].
  destruct (push_quad r _) as [st1| | |] eqn:H1;
    try (unfold push_quad in H1; destruct (_ <=? _) in H1; discriminate);
    [|right; reflexivity].
  cbn [mbind outcome_bind].
  destruct (negb (Z.land effects GLYPHGL_BOLD =? 0)).
  - destruct (push_quad r st1) as [st2| | |] eqn:H2;
      try (unfold push_quad in H2; destruct (_ <=? _) in H2; discriminate);
      [|right; reflexivity].
    cbn [mbind outcome_bind].
    destruct (negb (Z.land effects GLYPHGL_UNDERLINE =? 0)); [|eauto].
    destruct (push_quad r st2) as [st3| | |] eqn:H3;
      try (unfold push_quad in H3; destruct (_ <=? _) in H3; discriminate);
      [eauto | right; reflexivity].
  - cbn [mbind outcome_bind].
    destruct (negb (Z.land effects GLYPHGL_UNDERLINE =? 0)); [|eauto].
    destruct (push_quad r st1) as [st3| | |] eqn:H3;
      try (unfold push_quad in H3; destruct (_ <=? _) in H3; discriminate);
      [eauto | right; reflexivity].
Qed.

Section Stalled.

Variable i : nat.

Hypothesis utf8 : is_utf8 (rn_char_type r) = true.
Hypothesis inside : (i < strlen text)%nat.
Hypothesis stalled : stalls_at text i = true.

Lemma stalled_next st : bs_i st = i -> next st = (0xFFFD, i).
Proof.
  intros ->. rewrite utf8. apply decode_stalled_codepoint; assumption.
Qed.

(** A run that ends, ends in a write outside the vertex buffer. *)
Lemma stalled_loop_faults fuel st res :
  bs_i st = i -> loop fuel st = Some res -> res = WritesOutside.
Proof.
  revert st. induction fuel as [|fuel IH]; intros st Hi; [discriminate|].
  rewrite draw_text_loop_S. rewrite Hi.
  destruct (Nat.ltb_spec i (strlen text)) as [_|]; [|lia].
  destruct (draw_text_step_outcome st) as [[st' Hstep] | Hstep]; rewrite Hstep.
  - apply IH. rewrite (proj1 (draw_text_step_moves _ _ _ _ _ Hstep)).
    rewrite (stalled_next st Hi). reflexivity.
  - intros [= <-]. reflexivity.
Qed.

(** U+FFFD is not drawn: the batch stays as it is and so does the index. *)
Lemma stalled_loop_invisible fuel st :
  visible (rn_atlas r) 0xFFFD = false -> bs_i st = i -> loop fuel st = None.
Proof.
  intros Hvis. revert st. induction fuel as [|fuel IH]; intros st Hi; [reflexivity|].
  rewrite draw_text_loop_S. rewrite Hi.
  destruct (Nat.ltb_spec i (strlen text)) as [_|]; [|lia].
  assert (Hstep : exists st', draw_text_step r text effects st = Returns st' /\ bs_i st' = i).
  { unfold draw_text_step. rewrite (stalled_next st Hi).
    unfold visible in Hvis.
    destruct (draw_lookup (rn_atlas r) 65533) as [|k|k] eqn:Hl.
    - eexists. split; reflexivity.
    - apply negb_false_iff in Hvis. rewrite Hvis. eexists. split; reflexivity.
    - exfalso. exact (draw_lookup_inside _ _ Hl). }
  destruct Hstep as (st' & -> & Hi'). exact (IH st' Hi').
Qed.

(** U+FFFD is drawn: every iteration adds quads, until one does not fit. *)
Lemma stalled_loop_overruns m :
  visible (rn_atlas r) 0xFFFD = true -> buffer_bytes r < 2 ^ 64 ->
  forall st,
    bs_i st = i -> 0 <= bs_vertex_count st -> 16 * bs_vertex_count st <= buffer_bytes r ->
    (buffer_bytes r - 16 * bs_vertex_count st <= Z.of_nat m) ->
    exists fuel, loop fuel st = Some WritesOutside.
Proof.
  intros Hvis Hbytes. induction m as [|m IH]; intros st Hi H0 Hfits Hm.
  - exists 1%nat. rewrite draw_text_loop_S, Hi.
    destruct (Nat.ltb_spec i (strlen text)) as [_|]; [|lia].
    destruct (draw_text_step_outcome st) as [[st' Hstep] | ->]; [|reflexivity].
    exfalso. revert Hstep. unfold draw_text_step. rewrite (stalled_next st Hi).
    unfold visible in Hvis.
    destruct (draw_lookup (rn_atlas r) 65533) as [|k|k]; try discriminate.
    apply negb_true_iff in Hvis. rewrite Hvis.
    set (st0 := {| bs_i := i; bs_vertex_count := bs_vertex_count st;
                   bs_writes := bs_writes st; bs_drawn := bs_drawn st ++ [65533] |}).
    destruct (push_quad r st0) as [st1| | |] eqn:H1; try discriminate.
    apply push_quad_returns in H1 as (_ & _ & _ & _ & Hle).
    subst st0. cbn [bs_vertex_count] in Hle.
    rewrite size_mul_small in Hle by lia. unfold sizeof_float in Hle. lia.
  - destruct (draw_text_step_outcome st) as [[st' Hstep] | Hstep].
    2:{ exists 1%nat. rewrite draw_text_loop_S, Hi.
        destruct (Nat.ltb_spec i (strlen text)) as [_|]; [|lia].
        rewrite Hstep. reflexivity. }
    assert (Hst' : bs_i st' = i /\ bs_vertex_count st + 6 <= bs_vertex_count st' /\
                   16 * bs_vertex_count st' <= buffer_bytes r).
    { split.
      { rewrite (proj1 (draw_text_step_moves _ _ _ _ _ Hstep)).
        rewrite (stalled_next st Hi). reflexivity. }
      revert Hstep. unfold draw_text_step. rewrite (stalled_next st Hi).
      unfold visible in Hvis.
      destruct (draw_lookup (rn_atlas r) 65533) as [|k|k]; try discriminate.
      apply negb_true_iff in Hvis. rewrite Hvis.
      set (st0 := {| bs_i := i; bs_vertex_count := bs_vertex_count st;
                     bs_writes := bs_writes st; bs_drawn := bs_drawn st ++ [65533] |}).
      assert (Hc0 : bs_vertex_count st0 = bs_vertex_count st) by reflexivity.
      clearbody st0.
      assert (Hpush : forall s s', push_quad r s = Returns s' ->
                0 <= bs_vertex_count s -> 16 * bs_vertex_count s <= buffer_bytes r ->
                bs_vertex_count s' = bs_vertex_count s + 6 /\
                16 * bs_vertex_count s' <= buffer_bytes r).
      { intros s s' Hs Hs0 Hsfits.
        apply push_quad_returns in Hs as (_ & _ & Hc & _ & Hle).
        rewrite size_mul_small in Hle by lia. unfold sizeof_float in Hle.
        rewrite size_add_small in Hc by lia. lia. }
      destruct (push_quad r st0) as [st1| | |] eqn:H1; try discriminate.
      apply Hpush in H1 as [Hc1 Hf1]; [|lia..]. cbn [mbind outcome_bind].
      destruct (negb (Z.land effects GLYPHGL_BOLD =? 0)).
      - destruct (push_quad r st1) as [st2| | |] eqn:H2; try discriminate.
        apply Hpush in H2 as [Hc2 Hf2]; [|lia..]. cbn [mbind outcome_bind].
        destruct (negb (Z.land effects GLYPHGL_UNDERLINE =? 0)).
        + intros H3. apply Hpush in H3 as [Hc3 Hf3]; [|lia..]. lia.
        + intros [= <-]. lia.
      - cbn [mbind outcome_bind].
        destruct (negb (Z.land effects GLYPHGL_UNDERLINE =? 0)).
        + intros H3. apply Hpush in H3 as [Hc3 Hf3]; [|lia..]. lia.
        + intros [= <-]. lia. }
    destruct Hst' as (Hi' & Hc' & Hf').
    destruct (IH st' Hi') as [fuel Hfuel]; [lia | exact Hf' | lia |].
    exists (S fuel). rewrite draw_text_loop_S, Hi.
    destruct (Nat.ltb_spec i (strlen text)) as [_|]; [|lia].
    rewrite Hstep. exact Hfuel.
Qed.

End Stalled.

(** UTF-8 with a truncated or broken sequence: the loop is never left by its
    test.  It runs for ever when U+FFFD is not drawn, and otherwise fills the
    vertex buffer and writes behind it. *)
Lemma draw_loop_not_ok n :
  is_utf8 (rn_char_type r) = true ->
  forall st,
    batch_inv text st -> (strlen text - bs_i st <= n)%nat ->
    utf8_text_ok n text (bs_i st) = false ->
    (forall fuel res, loop fuel st = Some res -> res = WritesOutside) /\
    (visible (rn_atlas r) 0xFFFD = false -> forall fuel, loop fuel st = None) /\
    (visible (rn_atlas r) 0xFFFD = true -> buffer_bytes r < 2 ^ 64 ->
     exists fuel, loop fuel st = Some WritesOutside).
Proof.
  intros Hct. induction n as [|n IH]; intros st Hinv Hn Hok; cbn [utf8_text_ok] in Hok.
  { apply Nat.leb_gt in Hok. lia. }
  destruct (Nat.ltb_spec (bs_i st) (strlen text)) as [Hlt|]; [|discriminate].
  destruct (stalls_at text (bs_i st)) eqn:Hst.
  - split; [|split].
    + intros fuel res. exact (stalled_loop_faults _ Hct Hlt Hst fuel st res eq_refl).
    + intros Hvis fuel. exact (stalled_loop_invisible _ Hct Hlt Hst fuel st Hvis eq_refl).
    + intros Hvis Hbytes. destruct Hinv as (_ & Hvc & _).
      apply (stalled_loop_overruns _ Hct Hlt Hst
               (Z.to_nat (buffer_bytes r - 16 * bs_vertex_count st)) Hvis Hbytes st eq_refl);
        lia.
  - cbn [negb andb] in Hok.
    pose proof (decode_step_advances _ _ Hst) as Hadv.
    destruct (draw_text_step_advancing st Hinv) as (st' & Hstep & Hinv' & Hi' & _).
    { rewrite Hct. exact Hadv. }
    rewrite Hct in Hi'. rewrite <- Hi' in Hok.
    destruct (IH st' Hinv') as (Hfault & Hnone & Hover); [lia | exact Hok |].
    assert (Hloop : forall fuel, loop (S fuel) st = loop fuel st').
    { intros fuel. rewrite draw_text_loop_S.
      destruct (Nat.ltb_spec (bs_i st) (strlen text)) as [_|]; [|lia].
      rewrite Hstep. reflexivity. }
    split; [|split].
    + intros [|fuel] res; [discriminate|]. rewrite Hloop. apply Hfault.
    + intros Hvis [|fuel]; [reflexivity|]. rewrite Hloop. apply Hnone, Hvis.
    + intros Hvis Hbytes. destruct (Hover Hvis Hbytes) as [fuel Hfuel].
      exists (S fuel). rewrite Hloop. exact Hfuel.
Qed.

(** The loop on a text that can be drawn. *)
Lemma draw_loop_drawable st0 :
  st0 = {| bs_i := 0; bs_vertex_count := 0; bs_writes := []; bs_drawn := [] |} ->
  drawable_text (rn_char_type r) text = true ->
  exists st,
    loop (S (strlen text)) st0 = Some (Returns st) /\
    batch_inv text st /\
    bs_drawn st = charset_codepoints (rn_char_type r) text /\
    bs_vertex_count st =
      6 * quads_per_glyph effects * glyphs (charset_codepoints (rn_char_type r) text).
Proof.
  intros -> Hok.
  assert (Hinv : batch_inv text
                   {| bs_i := 0; bs_vertex_count := 0; bs_writes := []; bs_drawn := [] |}).
  { split; [cbn; lia|]. split; [cbn; lia | constructor]. }
  unfold drawable_text, charset_codepoints in *.
  destruct (is_utf8 (rn_char_type r)) eqn:Hct.
  - destruct (draw_loop_utf8_ok (strlen text) Hct _ Hinv Hok) as (st & Hloop & Hinv' & Hd & Hc).
    exists st. split; [exact Hloop|]. split; [exact Hinv'|].
    split; [exact Hd|]. rewrite Hc. cbn [bs_vertex_count bs_i]. lia.
  - destruct (draw_loop_bytes (strlen text) Hct _ Hinv) as (st & Hloop & Hinv' & Hd & Hc).
    { cbn [bs_i]. lia. }
    cbn [bs_i bs_drawn bs_vertex_count app] in Hd, Hc. rewrite Nat.sub_0_r in Hd, Hc.
    exists st. split; [exact Hloop|]. split; [exact Hinv'|].
    split; [exact Hd|]. rewrite Hc. lia.
Qed.

(** The loop on a text that cannot. *)
Lemma draw_loop_not_drawable st0 :
  st0 = {| bs_i := 0; bs_vertex_count := 0; bs_writes := []; bs_drawn := [] |} ->
  drawable_text (rn_char_type r) text = false ->
  (forall fuel res, loop fuel st0 = Some res -> res = WritesOutside) /\
  (visible (rn_atlas r) 0xFFFD = false -> forall fuel, loop fuel st0 = None) /\
  (visible (rn_atlas r) 0xFFFD = true -> buffer_bytes r < 2 ^ 64 ->
   exists fuel, loop fuel st0 = Some WritesOutside).
Proof.
  intros -> Hok. unfold drawable_text in Hok.
  destruct (is_utf8 (rn_char_type r)) eqn:Hct; [|discriminate].
  apply (draw_loop_not_ok (strlen text) Hct); [|cbn [bs_i]; lia | exact Hok].
  split; [cbn; lia|]. split; [cbn; lia | constructor].
Qed.

End Batch.

(** *** Before the loop *)

Lemma required_size_eq text :
  Z.of_nat (strlen text) < 2 ^ 32 ->
  required_size text = 288 * Z.of_nat (strlen text).
Proof.
  intros H. unfold required_size, sizeof_float.
  change (2 ^ 32) with 4294967296 in H.
  assert (H64 : 2 ^ 64 = 18446744073709551616) by reflexivity.
  rewrite (size_mul_small 4 24) by lia.
  rewrite (size_mul_small (4 * 24) (Z.of_nat (strlen text))) by lia.
  rewrite size_mul_small by lia. lia.
Qed.

Lemma grow_vertex_buffer_spec env r text r' :
  buffer_holds r -> Z.of_nat (strlen text) < 2 ^ 32 ->
  grow_vertex_buffer env r text = Some r' ->
  buffer_holds r' /\ required_size text <= rn_vertex_buffer_size r' /\
  rn_atlas r' = rn_atlas r /\ rn_char_type r' = rn_char_type r /\
  (buffer_bytes r < 2 ^ 64 -> buffer_bytes r' < 2 ^ 64).
Proof.
  intros Hb Hlen. unfold grow_vertex_buffer.
  pose proof (required_size_eq text Hlen) as Hreq.
  destruct (Z.gtb_spec (required_size text) (rn_vertex_buffer_size r)) as [Hgt | Hle].
  - destruct (realloc_vertex_buffer env _ _); [|discriminate].
    intros [= <-]. unfold buffer_holds, buffer_bytes. cbn.
    change (2 ^ 32) with 4294967296 in Hlen.
    assert (H64 : 2 ^ 64 = 18446744073709551616) by reflexivity.
    rewrite size_mul_small by lia. repeat split; lia.
  - intros [= <-]. repeat split; try apply Hb; lia.
Qed.

Lemma grow_vertex_buffer_succeeds env r text :
  (forall ptr bytes, realloc_vertex_buffer env ptr bytes <> None) ->
  exists r', grow_vertex_buffer env r text = Some r'.
Proof.
  intros Hre. unfold grow_vertex_buffer.
  destruct (required_size text >? rn_vertex_buffer_size r); [|eauto].
  destruct (realloc_vertex_buffer env _ _) eqn:E; [|exfalso; exact (Hre _ _ E)].
  eexists. reflexivity.
Qed.

(** The call returns before its loop, or it enters the loop with a buffer that
    has room for three quads for each byte of the text. *)
Lemma draw_text_prelude env r text effects :
  buffer_holds r -> Z.of_nat (strlen text) < 2 ^ 32 ->
  (exists r1,
     buffer_holds r1 /\
     (rn_initialized r = 0 \/ grow_vertex_buffer env r1 text = None) /\
     forall fuel,
       glyph_renderer_draw_text env fuel (Some r) text effects =
       Some (Returns {| dr_renderer := Some r1; dr_batch := None |})) \/
  (exists r2,
     rn_initialized r <> 0 /\
     rn_atlas r2 = rn_atlas r /\ rn_char_type r2 = rn_char_type r /\
     buffer_holds r2 /\ 288 * Z.of_nat (strlen text) <= buffer_bytes r2 /\
     (buffer_bytes r < 2 ^ 64 -> buffer_bytes r2 < 2 ^ 64) /\
     forall fuel,
       glyph_renderer_draw_text env fuel (Some r) text effects =
       match draw_text_loop fuel r2 text effects (strlen text)
               {| bs_i := 0; bs_vertex_count := 0; bs_writes := []; bs_drawn := [] |} with
       | None => None
       | Some (Returns st) =>
         Some (Returns {| dr_renderer := Some r2; dr_batch := Some st |})
       | Some ReadsNull => Some ReadsNull
       | Some ReadsOutside => Some ReadsOutside
       | Some WritesOutside => Some WritesOutside
       end).
Proof.
  intros Hb Hlen. unfold glyph_renderer_draw_text.
  destruct (Z.eqb_spec (rn_initialized r) 0) as [H0 | Hinit].
  { left. exists r. split; [exact Hb|]. split; [left; exact H0 | reflexivity]. }
  set (r1 := if negb (rn_cached_effects r =? effects) then set_cached_effects effects r else r).
  assert (Hb1 : buffer_holds r1) by (subst r1; destruct (negb _); exact Hb).
  assert (Ha1 : rn_atlas r1 = rn_atlas r) by (subst r1; destruct (negb _); reflexivity).
  assert (Hc1 : rn_char_type r1 = rn_char_type r) by (subst r1; destruct (negb _); reflexivity).
  assert (Hbytes1 : buffer_bytes r1 = buffer_bytes r)
    by (subst r1; destruct (negb _); reflexivity).
  clearbody r1.
  destruct (grow_vertex_buffer env r1 text) as [r2|] eqn:Hgrow.
  2:{ left. exists r1. split; [exact Hb1|]. split; [right; exact Hgrow | reflexivity]. }
  destruct (grow_vertex_buffer_spec _ _ _ _ Hb1 Hlen Hgrow) as (Hb2 & Hreq & Ha2 & Hc2 & Hlt).
  right. exists r2. split; [exact Hinit|].
  split; [congruence|]. split; [congruence|]. split; [exact Hb2|].
  rewrite required_size_eq in Hreq by exact Hlen. unfold buffer_holds in Hb2.
  split; [lia|]. split; [rewrite <- Hbytes1; exact Hlt | reflexivity].
Qed.

Lemma draw_text_enters_loop env r text effects :
  rn_initialized r <> 0 -> buffer_holds r -> Z.of_nat (strlen text) < 2 ^ 32 ->
  (forall ptr bytes, realloc_vertex_buffer env ptr bytes <> None) ->
  exists r2,
    rn_atlas r2 = rn_atlas r /\ rn_char_type r2 = rn_char_type r /\
    buffer_holds r2 /\ 288 * Z.of_nat (strlen text) <= buffer_bytes r2 /\
    (buffer_bytes r < 2 ^ 64 -> buffer_bytes r2 < 2 ^ 64) /\
    forall fuel,
      glyph_renderer_draw_text env fuel (Some r) text effects =
      match draw_text_loop fuel r2 text effects (strlen text)
              {| bs_i := 0; bs_vertex_count := 0; bs_writes := []; bs_drawn := [] |} with
      | None => None
      | Some (Returns st) =>
        Some (Returns {| dr_renderer := Some r2; dr_batch := Some st |})
      | Some ReadsNull => Some ReadsNull
      | Some ReadsOutside => Some ReadsOutside
      | Some WritesOutside => Some WritesOutside
      end.
Proof.
  intros Hinit Hb Hlen Hre.
  destruct (draw_text_prelude env r text effects Hb Hlen)
    as [(r1 & _ & [H0 | Hgrow] & _) | (r2 & _ & H)].
  - contradiction.
  - destruct (grow_vertex_buffer_succeeds env r1 text Hre) as [r' Hr']. congruence.
  - exists r2. exact H.
Qed.

(** X3. What a call of [glyph_renderer_draw_text] that enters its loop does.  On
    the texts [drawable_text] accepts it returns within [strlen text]
    iterations and has looked up the codepoints [glyph_atlas_create] reads
    from the same string as a charset.  On every other text it never returns:
    it runs for ever when U+FFFD, or ['?'] in its place, is not drawn, and
    otherwise it adds quads to the batch until one is written behind the end
    of the vertex buffer. *)
Theorem draw_text_returns_on_drawable_text_only
    (env : env_t) (r : glyph_renderer_t) (text : cstring) (effects : Z) :
  rn_initialized r <> 0 ->
  buffer_holds r ->
  chars_allocated (Some (rn_atlas r)) ->
  Z.of_nat (strlen text) < 2 ^ 32 ->
  (forall ptr bytes, realloc_vertex_buffer env ptr bytes <> None) ->
  (drawable_text (rn_char_type r) text = true ->
   forall extra, exists r' st,
     glyph_renderer_draw_text env (S (strlen text) + extra) (Some r) text effects =
       Some (Returns {| dr_renderer := Some r'; dr_batch := Some st |}) /\
     bs_drawn st = charset_codepoints (rn_char_type r) text) /\
  (drawable_text (rn_char_type r) text = false ->
   (forall fuel res,
      glyph_renderer_draw_text env fuel (Some r) text effects = Some res ->
      res = WritesOutside) /\
   (visible (rn_atlas r) 0xFFFD = false ->
    forall fuel, glyph_renderer_draw_text env fuel (Some r) text effects = None) /\
   (visible (rn_atlas r) 0xFFFD = true -> buffer_bytes r < 2 ^ 64 ->
    exists fuel,
      glyph_renderer_draw_text env fuel (Some r) text effects = Some WritesOutside)).
Proof.
  intros Hinit Hb Halloc Hlen Hre.
  destruct (draw_text_enters_loop env r text effects Hinit Hb Hlen Hre)
    as (r2 & Ha2 & Hc2 & Hb2 & Hroom & Hbytes & Hdraw).
  assert (Halloc2 : chars_allocated (Some (rn_atlas r2))) by (rewrite Ha2; exact Halloc).
  split.
  - intros Hok extra. rewrite <- Hc2 in Hok.
    destruct (draw_loop_drawable r2 text effects Halloc2 Hlen Hroom _ eq_refl Hok)
      as (st & Hloop & _ & Hd & _).
    exists r2, st. rewrite Hdraw.
    rewrite (draw_text_loop_more _ _ _ _ extra _ _ Hloop).
    split; [reflexivity|]. rewrite Hd, Hc2. reflexivity.
  - intros Hok. rewrite <- Hc2 in Hok.
    destruct (draw_loop_not_drawable r2 text effects Halloc2 Hlen Hroom _ eq_refl Hok)
      as (Hfault & Hnone & Hover).
    rewrite Ha2 in Hnone, Hover.
    split; [|split].
    + intros fuel res. rewrite Hdraw.
      destruct (draw_text_loop fuel r2 text effects (strlen text) _)
        as [[st| | |]|] eqn:Hloop; try discriminate;
        pose proof (Hfault _ _ Hloop) as Hres; try discriminate.
      intros [= <-]. reflexivity.
    + intros Hvis fuel. rewrite Hdraw, (Hnone Hvis fuel). reflexivity.
    + intros Hvis Hlt. destruct (Hover Hvis (Hbytes Hlt)) as [fuel Hfuel].
      exists fuel. rewrite Hdraw, Hfuel. reflexivity.
Qed.

Lemma sample_utf8_renderer_ready :
  rn_initialized sample_utf8_renderer <> 0 /\ buffer_holds sample_utf8_renderer /\
  chars_allocated (Some (rn_atlas sample_utf8_renderer)).
Proof.
  split; [vm_compute; discriminate|]. split.
  - unfold buffer_holds. vm_compute. split; discriminate.
  - vm_compute. lia.
Qed.

Lemma fallback_renderer_ready :
  rn_initialized fallback_renderer <> 0 /\ buffer_holds fallback_renderer /\
  chars_allocated (Some (rn_atlas fallback_renderer)).
Proof.
  split; [vm_compute; discriminate|]. split.
  - unfold buffer_holds. vm_compute. split; discriminate.
  - vm_compute. lia.
Qed.

Lemma draw_text_returns_on_drawable_text_only_witness :
  (exists r' st,
     glyph_renderer_draw_text sample_env 6 (Some sample_utf8_renderer)
       [x41; xe2; x82; xac; xff] 0 =
       Some (Returns {| dr_renderer := Some r'; dr_batch := Some st |}) /\
     bs_drawn st = [65; 0x20AC; 0xFFFD]) /\
  (forall fuel,
     glyph_renderer_draw_text sample_env fuel (Some sample_utf8_renderer)
       [x41; xe2; x82] 0 = None) /\
  (exists fuel,
     glyph_renderer_draw_text sample_env fuel (Some fallback_renderer)
       [x41; xe2; x82] 0 = Some WritesOutside).
Proof.
  destruct sample_utf8_renderer_ready as (Hinit & Hbuf & Halloc).
  destruct fallback_renderer_ready as (Hinit' & Hbuf' & Halloc').
  split; [|split].
  - destruct (proj1 (draw_text_returns_on_drawable_text_only sample_env sample_utf8_renderer
                       [x41; xe2; x82; xac; xff] 0 Hinit Hbuf Halloc
                       ltac:(vm_compute; reflexivity) ltac:(intros ptr bytes; discriminate))
                    ltac:(vm_compute; reflexivity) 0%nat) as (r' & st & Hdraw & Hdrawn).
    exists r', st. split; [exact Hdraw|]. rewrite Hdrawn. vm_compute. reflexivity.
  - apply (proj2 (draw_text_returns_on_drawable_text_only sample_env sample_utf8_renderer
                    [x41; xe2; x82] 0 Hinit Hbuf Halloc
                    ltac:(vm_compute; reflexivity) ltac:(intros ptr bytes; discriminate))
                 ltac:(vm_compute; reflexivity)).
    vm_compute. reflexivity.
  - apply (proj2 (draw_text_returns_on_drawable_text_only sample_env fallback_renderer
                    [x41; xe2; x82] 0 Hinit' Hbuf' Halloc'
                    ltac:(vm_compute; reflexivity) ltac:(intros ptr bytes; discriminate))
                 ltac:(vm_compute; reflexivity)).
    + vm_compute. reflexivity.
    + vm_compute. reflexivity.
Defined.

(** ** Malformed UTF-8 in [glyph_renderer_draw_text] *)

(** C10, at the input [C3 41]: index 0 is inside the string, yet
    [glyph_utf8_decode] answers U+FFFD and leaves the index at 0.  A call of
    [glyph_renderer_draw_text] on this text with a UTF-8 renderer never
    returns once it has entered its loop, whatever the renderer and the
    effects: it returns only where it returns before the loop.  With the
    renderer of the charset "AB?", in which U+FFFD is not drawn, the loop runs
    for ever. *)
Theorem glyph_utf8_decode_stalls_on_malformed :
  (0 < strlen [xc3; x41])%nat /\
  glyph_utf8_decode [xc3; x41] 0 = (0xFFFD, 0%nat) /\
  (forall env fuel r effects res,
     rn_char_type r = GLYPH_ENCODING_UTF8 ->
     glyph_renderer_draw_text env fuel (Some r) [xc3; x41] effects = Some (Returns res) ->
     dr_batch res = None) /\
  (forall fuel,
     glyph_renderer_draw_text sample_env fuel (Some sample_utf8_renderer) [xc3; x41] 0
     = None).
Proof.
  split; [simpl; lia|]. split; [reflexivity|]. split.
  - intros env fuel r effects res Hct. unfold glyph_renderer_draw_text.
    destruct (rn_initialized r =? 0); [intros [= <-]; reflexivity|].
    set (r1 := if negb (rn_cached_effects r =? effects) then set_cached_effects effects r
               else r).
    assert (Hct1 : rn_char_type r1 = GLYPH_ENCODING_UTF8)
      by (subst r1; destruct (negb _); exact Hct).
    clearbody r1.
    destruct (grow_vertex_buffer env r1 [xc3; x41]) as [r2|] eqn:Hgrow;
      [|intros [= <-]; reflexivity].
    apply grow_vertex_buffer_keeps in Hgrow as [_ Hct2]. rewrite Hct1 in Hct2.
    destruct (draw_text_loop fuel r2 [xc3; x41] effects (strlen [xc3; x41]) _)
      as [[st| | |]|] eqn:Hloop; try discriminate.
    exfalso. revert Hloop.
    apply (stalled_loop_never_returns r2 [xc3; x41] effects 0);
      [rewrite Hct2; reflexivity | simpl; lia | reflexivity | reflexivity].
  - intros fuel.
    destruct sample_utf8_renderer_ready as (Hinit & Hbuf & Halloc).
    destruct (draw_text_enters_loop sample_env sample_utf8_renderer [xc3; x41] 0 Hinit Hbuf
                ltac:(vm_compute; reflexivity) ltac:(intros ptr bytes; discriminate))
      as (r2 & Ha2 & Hc2 & _ & Hroom & _ & Hdraw).
    assert (Halloc2 : chars_allocated (Some (rn_atlas r2))) by (rewrite Ha2; exact Halloc).
    assert (Hok : drawable_text (rn_char_type r2) [xc3; x41] = false)
      by (rewrite Hc2; vm_compute; reflexivity).
    destruct (draw_loop_not_drawable r2 [xc3; x41] 0 Halloc2 ltac:(vm_compute; reflexivity)
                Hroom _ eq_refl Hok) as (_ & Hnone & _).
    rewrite Hdraw, Hnone; [reflexivity|]. rewrite Ha2. vm_compute. reflexivity.
Qed.

Section CreatedLookup.

Variable host : host_t.
Variable fuel : nat.
Variable path : cstring.
Variable ph : float.
Variable charset : option cstring.
Variable char_type : glyph_encoding_type_t.
Variable use_sdf : bool.
Variable font : glyph_font_t.
Variable atlas : glyph_atlas_t.
Variable cs : list glyph_atlas_char_t.

Hypothesis font_loaded : glyph_ttf_load_font_from_file host path = Some font.
Hypothesis charset_short : Z.of_nat (strlen (charset_or_default charset)) < 2 ^ 31.
Hypothesis created :
  glyph_atlas_create host fuel path ph charset char_type use_sdf = Some (Returns atlas).
Hypothesis allocated : chars atlas = Some cs.

#[local] Abbreviation codepoints :=
  (charset_codepoints char_type (charset_or_default charset)).

Lemma created_lookup_loop cp :
  glyph_atlas_find_char (Some atlas) cp = find_char_loop cs cp 0 (length cs) /\
  ch_codepoint <$> cs = codepoints.
Proof.
  pose proof (created_chars_length _ _ _ _ _ _ _ _ _ _
                font_loaded charset_short created allocated) as Hnum.
  split; [|exact (created_codepoints _ _ _ _ _ _ _ _ _ _
                    font_loaded charset_short created allocated)].
  unfold glyph_atlas_find_char. rewrite allocated, Hnum. reflexivity.
Qed.

Lemma created_lookup_found cp k :
  glyph_atlas_find_char (Some atlas) cp = FoundAt k <->
  codepoints !! k = Some cp /\ forall j, (j < k)%nat -> codepoints !! j <> Some cp.
Proof.
  destruct (created_lookup_loop cp) as [Hfind Hcodes].
  pose proof (find_char_loop_spec cs cp (length cs) 0 (Nat.le_refl _)) as Hspec.
  rewrite Hfind, <- Hcodes.
  assert (Hcell : forall j, (ch_codepoint <$> cs) !! j = Some cp <->
                            exists c, cs !! j = Some c /\ ch_codepoint c = cp).
  { intros j. rewrite list_lookup_fmap. destruct (cs !! j) as [c|]; cbn.
    - split; [intros [= <-]; eauto | intros (c' & [= <-] & <-); reflexivity].
    - split; [discriminate | intros (c' & [=] & _)]. }
  destruct (find_char_loop cs cp 0 (length cs)) as [|k'|k'] eqn:E; [| |contradiction].
  - split; [discriminate|]. intros [Hk _]. exfalso.
    apply Hcell in Hk as (c & Hc & Hcode).
    apply (Hspec k c); [|exact Hc | exact Hcode].
    apply lookup_lt_Some in Hc. lia.
  - destruct Hspec as (Hrange & Hat & Hfirst). split.
    + intros [= <-]. split; [apply Hcell, Hat|].
      intros j Hj Hjc. apply Hcell in Hjc as (c & Hc & Hcode).
      apply (Hfirst j c); [lia | exact Hc | exact Hcode].
    + intros [Hk Hbefore]. f_equal.
      destruct (Nat.lt_trichotomy k k') as [Hlt | [-> | Hgt]]; [|reflexivity|].
      * exfalso. apply Hcell in Hk as (c & Hc & Hcode).
        apply (Hfirst k c); [lia | exact Hc | exact Hcode].
      * exfalso. apply (Hbefore k' Hgt). apply Hcell, Hat.
Qed.

Lemma created_lookup_null cp :
  glyph_atlas_find_char (Some atlas) cp = FoundNull <-> cp ∉ codepoints.
Proof.
  destruct (created_lookup_loop cp) as [Hfind Hcodes].
  pose proof (find_char_loop_spec cs cp (length cs) 0 (Nat.le_refl _)) as Hspec.
  rewrite Hfind, <- Hcodes.
  destruct (find_char_loop cs cp 0 (length cs)) as [|k'|k'] eqn:E; [| |contradiction].
  - split; [|reflexivity]. intros _ Hin.
    apply list_elem_of_fmap in Hin as (c & Hcode & Hc).
    apply list_elem_of_lookup in Hc as [j Hj].
    apply (Hspec j c); [|exact Hj | congruence].
    apply lookup_lt_Some in Hj. lia.
  - split; [discriminate|]. intros Hnot. exfalso. apply Hnot.
    destruct Hspec as (_ & (c & Hc & Hcode) & _).
    apply list_elem_of_fmap. exists c. split; [congruence|].
    apply list_elem_of_lookup. eauto.
Qed.

Lemma created_lookup_total cp :
  cp ∈ codepoints -> exists k, glyph_atlas_find_char (Some atlas) cp = FoundAt k.
Proof.
  intros Hin.
  destruct (created_lookup_loop cp) as [Hfind Hcodes].
  pose proof (find_char_loop_spec cs cp (length cs) 0 (Nat.le_refl _)) as Hspec.
  destruct (glyph_atlas_find_char (Some atlas) cp) as [|k|k] eqn:E.
  - apply created_lookup_null in E. contradiction.
  - eauto.
  - rewrite <- Hfind in Hspec. contradiction.
Qed.

End CreatedLookup.

(** ** Lookup in a created atlas *)

(** X4. The lookup in an atlas that was created with its entries answers, for a
    codepoint of the charset, the index of its first occurrence in the
    charset, and [NULL] for any other codepoint. *)
Theorem created_atlas_finds_first_occurrence
    (host : host_t) (fuel : nat) (path : cstring) (ph : float) (charset : option cstring)
    (char_type : glyph_encoding_type_t) (use_sdf : bool)
    (font : glyph_font_t) (atlas : glyph_atlas_t) (cs : list glyph_atlas_char_t) (cp : Z) :
  glyph_ttf_load_font_from_file host path = Some font ->
  Z.of_nat (strlen (charset_or_default charset)) < 2 ^ 31 ->
  glyph_atlas_create host fuel path ph charset char_type use_sdf = Some (Returns atlas) ->
  chars atlas = Some cs ->
  let codepoints := charset_codepoints char_type (charset_or_default charset) in
  (forall k,
     glyph_atlas_find_char (Some atlas) cp = FoundAt k <->
     codepoints !! k = Some cp /\ forall j, (j < k)%nat -> codepoints !! j <> Some cp) /\
  (glyph_atlas_find_char (Some atlas) cp = FoundNull <-> cp ∉ codepoints) /\
  (cp ∈ codepoints -> exists k, glyph_atlas_find_char (Some atlas) cp = FoundAt k).
Proof.
  intros Hfont Hlen Hcreate Hcs codepoints. split; [|split].
  - intros k. exact (created_lookup_found _ _ _ _ _ _ _ _ _ _ Hfont Hlen Hcreate Hcs cp k).
  - exact (created_lookup_null _ _ _ _ _ _ _ _ _ _ Hfont Hlen Hcreate Hcs cp).
  - exact (created_lookup_total _ _ _ _ _ _ _ _ _ _ Hfont Hlen Hcreate Hcs cp).
Qed.

Lemma created_atlas_finds_first_occurrence_witness :
  exists atlas,
    glyph_atlas_create (sample_host (sample_font 20 30) true true true) 8 font_path
      (Float.of_int 32) (Some (list_byte_of_string "ABA")) GLYPH_ENCODING_ASCII false = Some (Returns atlas) /\
    (glyph_atlas_find_char (Some atlas) 65 = FoundNull <-> 65 ∉ [65; 66; 65]) /\
    exists k, glyph_atlas_find_char (Some atlas) 65 = FoundAt k.
Proof.
  eexists. split; [vm_compute; reflexivity|].
  pose proof (created_atlas_finds_first_occurrence
                (sample_host (sample_font 20 30) true true true) 8 font_path (Float.of_int 32)
                (Some (list_byte_of_string "ABA")) GLYPH_ENCODING_ASCII false
                (sample_font 20 30) _ _ 65 eq_refl ltac:(vm_compute; reflexivity)
                ltac:(vm_compute; reflexivity) eq_refl) as (_ & Hnull & Hin).
  split; [exact Hnull|]. apply Hin. apply elem_of_cons. left. reflexivity.
Defined.

(** X5. What [glyph_renderer_draw_text] draws for a codepoint: its own entry when
    the charset has it, the entry of ['?'] when the charset has ['?'] but not
    the codepoint, and nothing when it has neither. *)
Theorem draw_lookup_falls_back_to_question_mark
    (host : host_t) (fuel : nat) (path : cstring) (ph : float) (charset : option cstring)
    (char_type : glyph_encoding_type_t) (use_sdf : bool)
    (font : glyph_font_t) (atlas : glyph_atlas_t) (cs : list glyph_atlas_char_t) (cp : Z) :
  glyph_ttf_load_font_from_file host path = Some font ->
  Z.of_nat (strlen (charset_or_default charset)) < 2 ^ 31 ->
  glyph_atlas_create host fuel path ph charset char_type use_sdf = Some (Returns atlas) ->
  chars atlas = Some cs ->
  let codepoints := charset_codepoints char_type (charset_or_default charset) in
  (cp ∈ codepoints ->
   exists k c, draw_lookup atlas cp = FoundAt k /\ cs !! k = Some c /\ ch_codepoint c = cp) /\
  (cp ∉ codepoints -> 63 ∈ codepoints ->
   exists k c, draw_lookup atlas cp = FoundAt k /\ cs !! k = Some c /\ ch_codepoint c = 63) /\
  (cp ∉ codepoints -> 63 ∉ codepoints -> draw_lookup atlas cp = FoundNull).
Proof.
  intros Hfont Hlen Hcreate Hcs codepoints.
  pose proof (created_codepoints _ _ _ _ _ _ _ _ _ _ Hfont Hlen Hcreate Hcs) as Hcodes.
  assert (Hentry : forall q k, glyph_atlas_find_char (Some atlas) q = FoundAt k ->
                     exists c, cs !! k = Some c /\ ch_codepoint c = q).
  { intros q k Hk.
    apply (created_lookup_found _ _ _ _ _ _ _ _ _ _ Hfont Hlen Hcreate Hcs) in Hk as [Hk _].
    rewrite <- Hcodes, list_lookup_fmap in Hk.
    destruct (cs !! k) as [c|]; [|discriminate]. injection Hk as Hk. eauto. }
  unfold draw_lookup. split; [|split].
  - intros Hin.
    destruct (created_lookup_total _ _ _ _ _ _ _ _ _ _ Hfont Hlen Hcreate Hcs cp Hin)
      as [k Hk].
    rewrite Hk. destruct (Hentry cp k Hk) as (c & Hc & Hcode). eauto.
  - intros Hnot Hq.
    apply (created_lookup_null _ _ _ _ _ _ _ _ _ _ Hfont Hlen Hcreate Hcs) in Hnot.
    rewrite Hnot.
    destruct (created_lookup_total _ _ _ _ _ _ _ _ _ _ Hfont Hlen Hcreate Hcs 63 Hq)
      as [k Hk].
    rewrite Hk. destruct (Hentry 63 k Hk) as (c & Hc & Hcode). eauto.
  - intros Hnot Hq.
    apply (created_lookup_null _ _ _ _ _ _ _ _ _ _ Hfont Hlen Hcreate Hcs) in Hnot.
    apply (created_lookup_null _ _ _ _ _ _ _ _ _ _ Hfont Hlen Hcreate Hcs) in Hq.
    rewrite Hnot. exact Hq.
Qed.

Lemma draw_lookup_falls_back_to_question_mark_witness :
  exists atlas cs k c,
    glyph_atlas_create (sample_host (sample_font 20 30) true true true) 8 font_path
      (Float.of_int 32) (Some (list_byte_of_string "AB?")) GLYPH_ENCODING_ASCII false = Some (Returns atlas) /\
    chars atlas = Some cs /\
    draw_lookup atlas 90 = FoundAt k /\ cs !! k = Some c /\ ch_codepoint c = 63.
Proof.
  eexists. eexists.
  pose proof (draw_lookup_falls_back_to_question_mark
                (sample_host (sample_font 20 30) true true true) 8 font_path (Float.of_int 32)
                (Some (list_byte_of_string "AB?")) GLYPH_ENCODING_ASCII false
                (sample_font 20 30) _ _ 90 eq_refl ltac:(vm_compute; reflexivity)
                ltac:(vm_compute; reflexivity) eq_refl) as (_ & Hfall & _).
  destruct Hfall as (k & c & Hk & Hc & Hcode).
  - change (90 ∉ [65; 66; 63]). rewrite !elem_of_cons, elem_of_nil. lia.
  - change (63 ∈ [65; 66; 63]). rewrite !elem_of_cons. lia.
  - exists k, c. split; [vm_compute; reflexivity|]. split; [reflexivity|].
    split; [exact Hk|]. split; [exact Hc | exact Hcode].
Defined.

Lemma default_charset_codepoints char_type :
  charset_codepoints char_type default_charset = Z.of_nat <$> seq 32 95.
Proof. destruct char_type; vm_compute; reflexivity. Qed.

(** X6. With the default charset the entry of the printable ASCII character [cp]
    is entry [cp - 32], and every other codepoint is drawn as ['?'], which is
    entry 31. *)
Theorem default_charset_lookup
    (host : host_t) (fuel : nat) (path : cstring) (ph : float)
    (char_type : glyph_encoding_type_t) (use_sdf : bool)
    (font : glyph_font_t) (atlas : glyph_atlas_t) (cs : list glyph_atlas_char_t) (cp : Z) :
  glyph_ttf_load_font_from_file host path = Some font ->
  glyph_atlas_create host fuel path ph None char_type use_sdf = Some (Returns atlas) ->
  chars atlas = Some cs ->
  num_chars atlas = 95 /\
  (32 <= cp <= 126 ->
   glyph_atlas_find_char (Some atlas) cp = FoundAt (Z.to_nat (cp - 32))) /\
  (~ 32 <= cp <= 126 ->
   glyph_atlas_find_char (Some atlas) cp = FoundNull /\
   draw_lookup atlas cp = FoundAt 31).
Proof.
  intros Hfont Hcreate Hcs.
  assert (Hlen : Z.of_nat (strlen (charset_or_default None)) < 2 ^ 31) by (vm_compute; reflexivity).
  pose proof (created_lookup_found _ _ _ _ _ _ _ _ _ _ Hfont Hlen Hcreate Hcs) as Hfound.
  pose proof (created_lookup_null _ _ _ _ _ _ _ _ _ _ Hfont Hlen Hcreate Hcs) as Hnull.
  change (charset_or_default None) with default_charset in *.
  rewrite default_charset_codepoints in *.
  assert (Hat : forall q k, (Z.of_nat <$> seq 32 95) !! k = Some q <->
                            (k < 95)%nat /\ q = Z.of_nat (32 + k)).
  { intros q k. rewrite list_lookup_fmap.
    destruct (Nat.lt_ge_cases k 95) as [Hk | Hk].
    - rewrite lookup_seq_lt by exact Hk. cbn.
      split; [intros [= <-]; split; [exact Hk | reflexivity] | intros [_ ->]; reflexivity].
    - rewrite lookup_seq_ge by exact Hk. cbn. split; [discriminate | lia]. }
  split; [|split].
  - rewrite (create_num_chars _ _ _ _ _ _ _ _ _ Hfont Hcreate).
    destruct char_type; vm_compute; reflexivity.
  - intros Hcp. apply Hfound. split.
    + apply Hat. lia.
    + intros j Hj Hjc. apply Hat in Hjc. lia.
  - intros Hcp.
    assert (Hn : glyph_atlas_find_char (Some atlas) cp = FoundNull).
    { apply Hnull. intros Hin. apply list_elem_of_lookup in Hin as [k Hk].
      apply Hat in Hk. lia. }
    split; [exact Hn|]. unfold draw_lookup. rewrite Hn.
    apply Hfound. split.
    + apply Hat. lia.
    + intros j Hj Hjc. apply Hat in Hjc. lia.
Qed.

Lemma default_charset_lookup_witness :
  exists atlas,
    glyph_atlas_create (sample_host (sample_font 20 30) true true true) 200 font_path
      (Float.of_int 32) None GLYPH_ENCODING_UTF8 false = Some (Returns atlas) /\
    num_chars atlas = 95 /\
    glyph_atlas_find_char (Some atlas) 65 = FoundAt 33 /\
    draw_lookup atlas 8364 = FoundAt 31.
Proof.
  eexists. split; [vm_compute; reflexivity|].
  pose proof (fun cp =>
                default_charset_lookup
                  (sample_host (sample_font 20 30) true true true) 200 font_path (Float.of_int 32)
                  GLYPH_ENCODING_UTF8 false (sample_font 20 30) _ _ cp eq_refl
                  ltac:(vm_compute; reflexivity) eq_refl) as H.
  split; [exact (proj1 (H 65))|]. split.
  - exact (proj1 (proj2 (H 65)) ltac:(lia)).
  - exact (proj2 (proj2 (proj2 (H 8364)) ltac:(lia))).
Defined.

Section SevenBit.

Variable text : cstring.
Hypothesis ascii : seven_bit text = true.

Lemma seven_bit_at j : (j < strlen text)%nat -> (uchar_at text j <? 0x80) = true.
Proof.
  intros Hj. unfold seven_bit in ascii.
  rewrite forallb_forall in ascii. apply ascii. apply in_seq. lia.
Qed.

Lemma utf8_codepoints_seven_bit fuel i :
  (strlen text - i <= fuel)%nat ->
  utf8_codepoints fuel text i = map (uchar_at text) (seq i (strlen text - i)).
Proof.
  revert i. induction fuel as [|fuel IH]; intros i Hfuel.
  - replace (strlen text - i)%nat with 0%nat by lia. reflexivity.
  - cbn [utf8_codepoints].
    destruct (Nat.ltb_spec i (strlen text)) as [Hlt | Hge].
    + unfold glyph_atlas_utf8_decode. cbv zeta. rewrite (seven_bit_at i Hlt). cbn [fst snd].
      rewrite IH by lia.
      replace (strlen text - i)%nat with (S (strlen text - S i)) by lia. reflexivity.
    + replace (strlen text - i)%nat with 0%nat by lia. reflexivity.
Qed.

Lemma utf8_text_ok_seven_bit fuel i :
  (strlen text - i <= fuel)%nat -> utf8_text_ok fuel text i = true.
Proof.
  revert i. induction fuel as [|fuel IH]; intros i Hfuel.
  - cbn. apply Nat.leb_le. lia.
  - cbn [utf8_text_ok].
    destruct (Nat.ltb_spec i (strlen text)) as [Hlt | Hge]; [|reflexivity].
    assert (Hst : stalls_at text i = false).
    { unfold stalls_at. rewrite (seven_bit_at i Hlt).
      destruct (Nat.leb_spec (strlen text) i); [lia | reflexivity]. }
    rewrite Hst. cbn [negb andb]. apply IH.
    pose proof (decode_step_advances _ _ Hst). lia.
Qed.

End SevenBit.

(** X7. A text of 7-bit bytes is read the same way whether the encoding is UTF-8
    or not, one codepoint per byte, and is always drawn to its end. *)
Theorem seven_bit_text_is_read_bytewise (text : cstring) :
  seven_bit text = true ->
  forall char_type,
    charset_codepoints char_type text = map (uchar_at text) (seq 0 (strlen text)) /\
    drawable_text char_type text = true /\
    forall env r effects extra,
      rn_char_type r = char_type ->
      rn_initialized r <> 0 -> buffer_holds r ->
      chars_allocated (Some (rn_atlas r)) ->
      Z.of_nat (strlen text) < 2 ^ 32 ->
      (forall ptr bytes, realloc_vertex_buffer env ptr bytes <> None) ->
      exists r' st,
        glyph_renderer_draw_text env (S (strlen text) + extra) (Some r) text effects =
          Some (Returns {| dr_renderer := Some r'; dr_batch := Some st |}) /\
        bs_drawn st = map (uchar_at text) (seq 0 (strlen text)).
Proof.
  intros Hascii char_type.
  assert (Hcodes : charset_codepoints char_type text
                   = map (uchar_at text) (seq 0 (strlen text))).
  { unfold charset_codepoints.
    destruct (is_utf8 char_type); [|reflexivity].
    rewrite (utf8_codepoints_seven_bit text Hascii) by lia.
    rewrite Nat.sub_0_r. reflexivity. }
  assert (Hok : drawable_text char_type text = true).
  { unfold drawable_text. destruct (is_utf8 char_type); [|reflexivity].
    apply (utf8_text_ok_seven_bit text Hascii). lia. }
  split; [exact Hcodes|]. split; [exact Hok|].
  intros env r effects extra Hct Hinit Hbuf Halloc Hlen Hre. subst char_type.
  destruct (draw_text_enters_loop env r text effects Hinit Hbuf Hlen Hre)
    as (r2 & Ha2 & Hc2 & Hb2 & Hroom & _ & Hdraw).
  assert (Halloc2 : chars_allocated (Some (rn_atlas r2))) by (rewrite Ha2; exact Halloc).
  rewrite <- Hc2 in Hok.
  destruct (draw_loop_drawable r2 text effects Halloc2 Hlen Hroom _ eq_refl Hok)
    as (st & Hloop & _ & Hd & _).
  exists r2, st. rewrite Hdraw.
  rewrite (draw_text_loop_more _ _ _ _ extra _ _ Hloop).
  split; [reflexivity|]. rewrite Hd, Hc2. exact Hcodes.
Qed.

Lemma seven_bit_text_is_read_bytewise_witness :
  exists r' st,
    glyph_renderer_draw_text sample_env 3 (Some sample_utf8_renderer)
      (list_byte_of_string "Hi") 0 =
      Some (Returns {| dr_renderer := Some r'; dr_batch := Some st |}) /\
    bs_drawn st = [72; 105].
Proof.
  destruct sample_utf8_renderer_ready as (Hinit & Hbuf & Halloc).
  exact (proj2 (proj2 (seven_bit_text_is_read_bytewise (list_byte_of_string "Hi") eq_refl
                         GLYPH_ENCODING_UTF8))
               sample_env sample_utf8_renderer 0 0%nat ltac:(vm_compute; reflexivity)
               Hinit Hbuf Halloc ltac:(vm_compute; reflexivity)
               ltac:(intros ptr bytes; discriminate)).
Defined.

(** ** The side of the atlas and the place of its glyphs *)

Lemma smear_all_negative x : - 2 ^ 31 <= x < 0 -> smear_all x = -1.
Proof.
  intros Hx. apply Z.bits_inj'. intros i Hi.
  rewrite Z.bits_m1 by exact Hi.
  apply (covers_smear_all x i Hi).
  exists (Z.max 0 (31 - i)). split; [lia|].
  apply Z.bits_above_log2_neg; [lia|].
  destruct (Z.eq_dec x (-1)) as [-> | Hne];
    [change (Z.log2 (Z.pred (- -1))) with 0; lia|].
  apply Z.log2_lt_pow2; [lia|].
  apply Z.lt_le_trans with (2 ^ 31); [lia|].
  apply Z.pow_le_mono_r; lia.
Qed.

(** [glyph_atlas__next_pow2] on any [int]: 0, [INT_MIN], or a power of two. *)
Lemma next_pow2_cases v :
  Int.in_range v ->
  glyph_atlas__next_pow2 v = 0 \/ glyph_atlas__next_pow2 v = - 2 ^ 31 \/
  exists k, 0 <= k <= 30 /\ glyph_atlas__next_pow2 v = 2 ^ k.
Proof.
  intros Hv. unfold Int.in_range, Int.min_signed, Int.max_signed in Hv.
  destruct (Z_lt_le_dec 1 v) as [H1 | H1].
  - destruct (Z_le_gt_dec v (2 ^ 30)) as [H30 | H30].
    + right. right. rewrite next_pow2_eq by lia.
      exists (Z.log2 (v - 1) + 1). split; [|reflexivity].
      split; [pose proof (Z.log2_nonneg (v - 1)); lia|].
      assert (Z.log2 (v - 1) < 30); [|lia]. apply Z.log2_lt_pow2; lia.
    + right. left. unfold glyph_atlas__next_pow2, Int.sub, Int.add.
      rewrite (wrap32_small (v - 1)) by int_range.
      change (smear 16 (smear 8 (smear 4 (smear 2 (smear 1 (v - 1))))))
        with (smear_all (v - 1)).
      rewrite smear_all_ones by lia.
      assert (Hlog : Z.log2 (v - 1) = 30).
      { apply Z.log2_unique; [lia|]. change (Z.succ 30) with 31. lia. }
      rewrite Hlog. reflexivity.
  - destruct (Z.eq_dec v 1) as [-> | Hne1]; [right; right; exists 0; split; [lia | reflexivity]|].
    destruct (Z.eq_dec v (- 2 ^ 31)) as [-> | Hmin]; [right; left; reflexivity|].
    left. unfold glyph_atlas__next_pow2, Int.sub, Int.add.
    rewrite (wrap32_small (v - 1)) by int_range.
    change (smear 16 (smear 8 (smear 4 (smear 2 (smear 1 (v - 1))))))
      with (smear_all (v - 1)).
    rewrite smear_all_negative by lia. reflexivity.
Qed.

Lemma estimate_size_cases host total_width max_height :
  exists k, 11 <= k <= 30 /\
    first_side (estimate_size host total_width max_height) = 2 ^ k.
Proof.
  unfold estimate_size.
  set (v := Int.add _ 256).
  assert (Hv : Int.in_range v) by apply wrap32_range.
  unfold first_side, GLYPHGL_ATLAS_WIDTH.
  destruct (next_pow2_cases v Hv) as [H | [H | (k & Hk & H)]].
  - exists 11. split; [lia|]. rewrite H. reflexivity.
  - exists 11. split; [lia|]. rewrite H. reflexivity.
  - destruct (Z_lt_le_dec k 11) as [Hlt | Hge].
    + exists 11. split; [lia|]. rewrite H.
      destruct (Z.ltb_spec (2 ^ k) 2048) as [_ | Hbig]; [reflexivity|].
      exfalso. assert (2 ^ k < 2 ^ 11) by (apply Z.pow_lt_mono_r; lia). lia.
    + exists k. split; [lia|]. rewrite H.
      destruct (Z.ltb_spec (2 ^ k) 2048) as [Hsmall | _]; [|reflexivity].
      exfalso. assert (2 ^ 11 <= 2 ^ k) by (apply Z.pow_le_mono_r; lia). lia.
Qed.

Section PackLoopInv.

Variable temp_glyphs : list temp_glyph_t.
Variable glyph_order : list nat.
Variable n : nat.

Hypothesis heights_nonneg : Forall (fun g => 0 <= tg_height g) temp_glyphs.
Hypothesis rows_fit : needed_height temp_glyphs glyph_order n <= 2 ^ 30.

(** A side that started as a power of two of at least 2048 is still one. *)
Lemma pack_inv_side k0 st :
  11 <= k0 ->
  pack_inv temp_glyphs glyph_order n (2 ^ k0) st ->
  exists k, 11 <= k <= 30 /\ atlas_height st = 2 ^ k.
Proof.
  intros Hk0 (_ & _ & _ & _ & Hh & _ & _ & k & Hk & Hpow).
  rewrite <- Z.pow_add_r in Hpow by lia.
  exists (k0 + k). split; [|exact Hpow]. split; [lia|].
  assert (k0 + k < 31); [|lia].
  apply (Z.pow_lt_mono_r_iff 2); [lia | lia|].
  rewrite <- Hpow. unfold Int.max_signed in Hh. lia.
Qed.

(** The image of every pass the loop has entered was cleared inside its
    buffer. *)
Lemma pack_loop_clears h0 fuel st st' :
  pack_inv temp_glyphs glyph_order n h0 st ->
  clears (atlas_height st) = true ->
  pack_loop temp_glyphs glyph_order n fuel st = Some (Returns st') ->
  pack_inv temp_glyphs glyph_order n h0 st' /\ clears (atlas_height st') = true.
Proof.
  intros Hinv Hclears Hloop.
  refine (proj1 (pack_loop_ind temp_glyphs glyph_order n
                   (fun s => pack_inv temp_glyphs glyph_order n h0 s /\
                             clears (atlas_height s) = true)
                   _ _ _ _ Hloop (conj Hinv Hclears))).
  intros s s' Hlt Hs [Hi Hc].
  destruct (pack_step_cases _ _ _ heights_nonneg rows_fit h0 s Hi Hlt)
    as [(_ & s1 & Hs1 & Hi1 & _ & Hh) | (_ & _ & cs & Hs1 & Hi1)];
    rewrite Hs1 in Hs.
  - injection Hs as <-. split; [exact Hi1|]. rewrite Hh. exact Hc.
  - destruct (clears (2 * atlas_height s)) eqn:Hc2; [|discriminate].
    injection Hs as <-. split; [exact Hi1 | exact Hc2].
Qed.

End PackLoopInv.

(** X8. When the rows of the glyph set fit into 2^30 pixels, the image of the
    atlas is a square whose side is a power of two between 2048 and 2^30; the
    side is never 32768, where the [memset] would have stopped the call. *)
Theorem created_atlas_side_is_power_of_two
    (host : host_t) (fuel : nat) (path : cstring) (ph : float) (charset : option cstring)
    (char_type : glyph_encoding_type_t) (use_sdf : bool) (font : glyph_font_t)
    (fresh : nat -> glyph_atlas_char_t) (atlas : glyph_atlas_t)
    (cs : list glyph_atlas_char_t) :
  let rs := rasterized host font ph (charset_or_default charset) char_type use_sdf fresh in
  let n := Z.to_nat (charset_length char_type (charset_or_default charset)) in
  glyph_ttf_load_font_from_file host path = Some font ->
  malloc_chars host = Some fresh ->
  Forall (fun g => 0 <= tg_height g) (rs_temp_glyphs rs) ->
  needed_height (rs_temp_glyphs rs) (sort_glyph_order (rs_temp_glyphs rs) n) n <= 2 ^ 30 ->
  glyph_atlas_create host fuel path ph charset char_type use_sdf = Some (Returns atlas) ->
  chars atlas = Some cs ->
  exists k, 11 <= k <= 30 /\ image atlas = glyph_image_create (2 ^ k) (2 ^ k) /\ k <> 15.
Proof.
  intros rs n Hfont Hfresh Hheights Hfit Hcreate Hcs.
  destruct (create_chars _ _ _ _ _ _ _ _ _ Hfont Hcreate cs Hcs)
    as (fresh' & st & Hfresh' & Hloop & _ & Himg & Hclears).
  rewrite Hfresh in Hfresh'. injection Hfresh' as <-.
  cbv zeta in Hloop, Hclears. fold rs n in Hloop, Hclears.
  destruct (estimate_size_cases host (rs_total_width rs) (rs_max_height rs))
    as (k0 & Hk0 & Hside0).
  rewrite Hside0 in Hloop, Hclears.
  assert (Hpos : 0 < 2 ^ k0 <= Int.max_signed).
  { assert (0 < 2 ^ k0) by (apply Z.pow_pos_nonneg; lia).
    assert (2 ^ k0 <= 2 ^ 30) by (apply Z.pow_le_mono_r; lia).
    unfold Int.max_signed. lia. }
  pose proof (pass_start_inv (rs_temp_glyphs rs) (sort_glyph_order (rs_temp_glyphs rs) n) n
                _ (rs_chars rs) Hpos) as Hinv0.
  destruct (pack_loop_clears _ _ _ Hheights Hfit _ _ _ _ Hinv0 Hclears Hloop)
    as (Hinv & Hclears').
  destruct (pack_inv_side _ _ _ k0 st ltac:(lia) Hinv) as (k & Hk & Hside).
  exists k. split; [exact Hk|].
  destruct Hinv as (_ & _ & _ & _ & _ & Hw & Hi & _).
  split; [rewrite Himg, Hi, Hw, Hside; reflexivity|].
  intros ->. rewrite Hside in Hclears'. discriminate Hclears'.
Qed.

Lemma created_atlas_side_is_power_of_two_witness :
  exists atlas k,
    glyph_atlas_create (sample_host (sample_font 1000 10) true true true) 8 font_path
      (Float.of_int 32) (Some (list_byte_of_string "ABC")) GLYPH_ENCODING_ASCII false
      = Some (Returns atlas) /\
    11 <= k <= 30 /\ image atlas = glyph_image_create (2 ^ k) (2 ^ k).
Proof.
  assert (Hheights :
    Forall (fun g => 0 <= tg_height g)
      (rs_temp_glyphs
         (rasterized (sample_host (sample_font 1000 10) true true true)
            (sample_font 1000 10) (Float.of_int 32)
            (charset_or_default (Some (list_byte_of_string "ABC")))
            GLYPH_ENCODING_ASCII false stale_cell))).
  { change (charset_or_default (Some (list_byte_of_string "ABC")))
      with (list_byte_of_string "ABC").
    rewrite sample_glyphs_rasterized. repeat constructor; cbn; lia. }
  destruct (created_atlas_side_is_power_of_two
              (sample_host (sample_font 1000 10) true true true) 8 font_path (Float.of_int 32)
              (Some (list_byte_of_string "ABC")) GLYPH_ENCODING_ASCII false
              (sample_font 1000 10) stale_cell _ _ eq_refl eq_refl Hheights
              ltac:(vm_compute; discriminate) ltac:(vm_compute; reflexivity) eq_refl)
    as (k & Hk & Himg & _).
  eexists. exists k. split; [vm_compute; reflexivity|]. split; [exact Hk | exact Himg].
Defined.

Section Placed.

Variable temp_glyphs : list temp_glyph_t.
Variable glyph_order : list nat.
Variable n : nat.

Hypothesis heights_nonneg : Forall (fun g => 0 <= tg_height g) temp_glyphs.
Hypothesis rows_fit : needed_height temp_glyphs glyph_order n <= 2 ^ 30.
Hypothesis widths_fit :
  Forall (fun g => 0 <= tg_width g <= GLYPHGL_ATLAS_WIDTH - 2 * padding) temp_glyphs.
Hypothesis order_perm : Permutation (seq 0 n) glyph_order.

Lemma glyph_width_fits i :
  0 <= tg_width (glyph temp_glyphs i) <= GLYPHGL_ATLAS_WIDTH - 2 * padding.
Proof.
  unfold glyph. destruct (nth_in_or_default i temp_glyphs temp_glyph_zero) as [Hin | ->].
  - exact (proj1 (List.Forall_forall _ _) widths_fit _ Hin).
  - cbn. unfold GLYPHGL_ATLAS_WIDTH, padding. lia.
Qed.

Lemma align_row_box row cs j c :
  align_row temp_glyphs row cs !! j = Some c ->
  exists c0, cs !! j = Some c0 /\ entry_box c = entry_box c0.
Proof.
  assert (H : entry_box <$> align_row temp_glyphs row cs = entry_box <$> cs).
  { unfold align_row. generalize (row_max_yoff temp_glyphs row) as m. intros m.
    revert cs. induction row as [|r row IH]; intros cs; cbn [fold_left]; [reflexivity|].
    rewrite IH. apply alter_keeps. intros c0. reflexivity. }
  intros Hc. apply (f_equal (fun l => l !! j)) in H.
  rewrite !list_lookup_fmap, Hc in H.
  destruct (cs !! j) as [c0|]; [|discriminate].
  exists c0. split; [reflexivity|]. cbn in H. congruence.
Qed.

Lemma placed_entry_box g width c c0 :
  entry_box c = entry_box c0 -> placed_entry g width c0 -> placed_entry g width c.
Proof.
  unfold entry_box, placed_entry. intros [= -> -> -> -> ->] H. exact H.
Qed.

Lemma order_lookup_inj p q i :
  glyph_order !! p = Some i -> glyph_order !! q = Some i -> p = q.
Proof.
  apply NoDup_lookup. rewrite <- order_perm. apply NoDup_seq.
Qed.

Lemma pack_step_placed k0 st st' :
  11 <= k0 ->
  pack_inv temp_glyphs glyph_order n (2 ^ k0) st -> (order_idx st < n)%nat ->
  pack_step temp_glyphs glyph_order st = Returns st' ->
  placed_inv temp_glyphs glyph_order st ->
  placed_inv temp_glyphs glyph_order st'.
Proof.
  intros Hk0 Hinv Hidx Hstep [Hpen Hdone].
  destruct (pack_inv_side _ _ _ k0 st Hk0 Hinv) as (k & Hk & Hside).
  destruct (pack_step_inv _ _ _ heights_nonneg rows_fit _ _ _ Hinv Hidx Hstep) as [Hinv' _].
  destruct (pack_inv_side _ _ _ k0 _ Hk0 Hinv') as (k' & Hk' & Hside').
  assert (Hw : atlas_width st = atlas_height st) by apply Hinv.
  assert (Hw' : atlas_width st' = atlas_height st') by apply Hinv'.
  assert (H11 : 2 ^ 11 <= 2 ^ k) by (apply Z.pow_le_mono_r; lia).
  assert (H30 : 2 ^ k <= 2 ^ 30) by (apply Z.pow_le_mono_r; lia).
  assert (H11' : 2 ^ 11 <= 2 ^ k') by (apply Z.pow_le_mono_r; lia).
  change (2 ^ 11) with 2048 in *. change (2 ^ 30) with 1073741824 in *.
  assert (Hlen : (order_idx st < length glyph_order)%nat).
  { rewrite <- (Permutation_length order_perm), length_seq. exact Hidx. }
  destruct (lookup_lt_is_Some_2 glyph_order (order_idx st) Hlen) as [i Hi].
  revert Hstep. unfold pack_step.
  rewrite (nth_lookup_Some _ _ 0%nat _ Hi).
  pose proof (glyph_width_fits i) as Hwidth.
  unfold GLYPHGL_ATLAS_WIDTH, padding in Hwidth.
  destruct (is_empty_glyph (glyph temp_glyphs i)) eqn:Hempty.
  { intros [= <-]. split; unfold skip_glyph; state_fields; [exact Hpen|].
    intros p j c Hp Hj Hje Hc.
    assert (j <> i) by (intros ->; congruence).
    rewrite list_lookup_alter_ne in Hc by congruence.
    apply (Hdone p j c); [|assumption..].
    destruct (Nat.eq_dec p (order_idx st)) as [-> | ?]; [congruence | lia]. }
  set (st1 := if _ >? atlas_width st then close_row temp_glyphs st else st).
  assert (H1 : placed_inv temp_glyphs glyph_order st1 /\ order_idx st1 = order_idx st /\
               atlas_width st1 = atlas_width st /\
               pen_x st1 + tg_width (glyph temp_glyphs i) + 4 <= atlas_width st).
  { subst st1. unfold padding in *.
    destruct (Z.gtb_spec (Int.add (Int.add (pen_x st) (tg_width (glyph temp_glyphs i))) 4)
                         (atlas_width st)) as [Hgt | Hle].
    - unfold close_row; state_fields; unfold padding.
      split; [|split; [reflexivity|split; [reflexivity|lia]]].
      split; state_fields; [unfold padding; lia|].
      intros p j c Hp Hj Hje Hc. apply align_row_box in Hc as (c0 & Hc0 & Hbox).
      apply (placed_entry_box _ _ _ _ Hbox). now apply (Hdone p j c0).
    - split; [split; assumption|]. split; [reflexivity|]. split; [reflexivity|].
      unfold Int.add in Hle.
      rewrite (wrap32_small (pen_x st + tg_width (glyph temp_glyphs i))) in Hle by int_range.
      rewrite wrap32_small in Hle by int_range. lia. }
  destruct H1 as ([Hpen1 Hdone1] & Hidx1 & Hw1 & Hfit1).
  destruct (_ >? atlas_height st1).
  - intros Hgrow. apply grow_and_restart_returns in Hgrow. subst st'.
    unfold restarted in *. revert Hw' Hside'. state_fields.
    intros Hw' Hside'. split; state_fields; [unfold padding; lia|].
    intros p j c Hp. lia.
  - intros [= <-]. unfold place_glyph. split; state_fields.
    + unfold padding in *. unfold Int.add, Int.mul.
      rewrite (wrap32_small (4 * 2)) by int_range.
      rewrite (wrap32_small (tg_width (glyph temp_glyphs i) + 4 * 2)) by int_range.
      rewrite wrap32_small by int_range. lia.
    + rewrite Hidx1, Hw1. intros p j c Hp Hj Hje Hc.
      destruct (Nat.eq_dec j i) as [-> | Hne].
      * rewrite list_lookup_alter_eq in Hc.
        destruct (atlas_chars st1 !! i) as [c0|]; [|discriminate].
        injection Hc as <-. unfold placed_entry, set_geometry. cbn.
        unfold padding in *. repeat split; lia.
      * rewrite list_lookup_alter_ne in Hc by congruence.
        rewrite <- Hw1. apply (Hdone1 p j c); [|assumption..].
        destruct (Nat.eq_dec p (order_idx st)) as [-> | ?]; [congruence | lia].
Qed.

Lemma pack_loop_placed k0 fuel st st' :
  11 <= k0 ->
  pack_loop temp_glyphs glyph_order n fuel st = Some (Returns st') ->
  pack_inv temp_glyphs glyph_order n (2 ^ k0) st ->
  placed_inv temp_glyphs glyph_order st ->
  placed_inv temp_glyphs glyph_order st'.
Proof.
  intros Hk0 Hloop Hinv Hplaced.
  refine (proj2 (proj1 (pack_loop_ind temp_glyphs glyph_order n
                   (fun s => pack_inv temp_glyphs glyph_order n (2 ^ k0) s /\
                             placed_inv temp_glyphs glyph_order s)
                   _ _ _ _ Hloop (conj Hinv Hplaced)))).
  intros s s' Hlt Hs [Hi Hp]. split.
  - exact (proj1 (pack_step_inv _ _ _ heights_nonneg rows_fit _ _ _ Hi Hlt Hs)).
  - exact (pack_step_placed k0 s s' Hk0 Hi Hlt Hs Hp).
Qed.

End Placed.

(** X9. When no glyph is wider than the 2048-pixel atlas minus its padding, every
    packed glyph gets an entry with the size and offsets of its bitmap, at
    least [padding] pixels away from the left and right borders of the image. *)
Theorem packed_glyphs_lie_between_borders
    (temp_glyphs : list temp_glyph_t) (glyph_order : list nat) (n : nat)
    (host : host_t) (total_width max_height : Z) (cs0 : list glyph_atlas_char_t)
    (fuel : nat) (st0 st : pack_state) (i : nat) (c : glyph_atlas_char_t) :
  Permutation (seq 0 n) glyph_order ->
  Forall (fun g => 0 <= tg_height g) temp_glyphs ->
  needed_height temp_glyphs glyph_order n <= 2 ^ 30 ->
  Forall (fun g => 0 <= tg_width g <= GLYPHGL_ATLAS_WIDTH - 2 * padding) temp_glyphs ->
  pack_init (estimate_size host total_width max_height) cs0 = Returns st0 ->
  pack_loop temp_glyphs glyph_order n fuel st0 = Some (Returns st) ->
  (i < n)%nat -> is_empty_glyph (glyph temp_glyphs i) = false ->
  finish_last_row temp_glyphs st !! i = Some c ->
  placed_entry (glyph temp_glyphs i) (img_width (atlas_image st)) c.
Proof.
  intros Hperm Hheights Hfit Hwidths Hinit Hloop Hi Hne Hc.
  apply pack_init_returns in Hinit. subst st0.
  destruct (estimate_size_cases host total_width max_height) as (k0 & Hk0 & Hside0).
  rewrite Hside0 in Hloop.
  assert (Hpos : 0 < 2 ^ k0 <= Int.max_signed).
  { assert (0 < 2 ^ k0) by (apply Z.pow_pos_nonneg; lia).
    assert (2 ^ k0 <= 2 ^ 30) by (apply Z.pow_le_mono_r; lia).
    unfold Int.max_signed. lia. }
  pose proof (pass_start_inv temp_glyphs glyph_order n _ cs0 Hpos) as Hinv0.
  destruct (pack_loop_inv _ _ _ Hheights Hfit _ _ _ _ Hinv0 Hloop) as (Hinv & Hidx).
  assert (Hstart : placed_inv temp_glyphs glyph_order (pass_start (2 ^ k0) cs0)).
  { split.
    - cbn [pen_x atlas_width pass_start]. unfold padding. lia.
    - cbn [order_idx pass_start]. intros p j c' Hp. lia. }
  destruct (pack_loop_placed _ _ _ Hheights Hfit Hwidths Hperm k0 _ _ _
              ltac:(lia) Hloop Hinv0 Hstart) as [_ Hdone].
  assert (Hin : i ∈ glyph_order).
  { rewrite <- Hperm. apply elem_of_seq. lia. }
  apply list_elem_of_lookup in Hin as [p Hp].
  assert (Hplt : (p < order_idx st)%nat).
  { rewrite Hidx. apply lookup_lt_Some in Hp.
    rewrite <- (Permutation_length Hperm), length_seq in Hp. exact Hp. }
  assert (Himg : img_width (atlas_image st) = atlas_width st).
  { destruct Hinv as (_ & _ & _ & _ & _ & _ & -> & _). reflexivity. }
  rewrite Himg. unfold finish_last_row in Hc.
  destruct (current_row st) as [|r row]; [exact (Hdone p i c Hplt Hp Hne Hc)|].
  apply align_row_box in Hc as (c0 & Hc0 & Hbox).
  apply (placed_entry_box _ _ _ _ Hbox). exact (Hdone p i c0 Hplt Hp Hne Hc0).
Qed.

Lemma packed_glyphs_lie_between_borders_witness :
  exists st0 st c,
    pack_init (estimate_size (sample_host (sample_font 1000 10) true true true) 3012 10)
              (map stale_cell (seq 0 3)) = Returns st0 /\
    pack_loop sample_glyphs [0; 1; 2]%nat 3 8 st0 = Some (Returns st) /\
    finish_last_row sample_glyphs st !! 2%nat = Some c /\
    placed_entry (glyph sample_glyphs 2) (img_width (atlas_image st)) c.
Proof.
  eexists. eexists. eexists. split; [vm_compute; reflexivity|].
  split; [vm_compute; reflexivity|]. split; [vm_compute; reflexivity|].
  eapply (packed_glyphs_lie_between_borders sample_glyphs [0; 1; 2]%nat 3
            (sample_host (sample_font 1000 10) true true true) 3012 10
            (map stale_cell (seq 0 3)) 8 _ _ 2).
  - reflexivity.
  - repeat constructor; cbn; lia.
  - vm_compute. discriminate.
  - unfold sample_glyphs.
    repeat (constructor; [cbn; unfold GLYPHGL_ATLAS_WIDTH, padding; lia|]). constructor.
  - vm_compute. reflexivity.
  - vm_compute. reflexivity.
  - lia.
  - reflexivity.
  - vm_compute. reflexivity.
Defined.

(** ** The rest of the atlas interface *)

Section PackImage.

Variable temp_glyphs : list temp_glyph_t.
Variable glyph_order : list nat.
Variable n : nat.

Lemma pack_step_image_data st st' :
  pack_step temp_glyphs glyph_order st = Returns st' ->
  img_data (atlas_image st) = true -> img_data (atlas_image st') = true.
Proof.
  unfold pack_step. intros Hstep H. revert Hstep.
  destruct (is_empty_glyph _); [intros [= <-]; exact H|].
  destruct (_ >? atlas_width st); destruct (_ >? _);
    try (intros [= <-]; exact H);
    intros Hgrow; apply grow_and_restart_returns in Hgrow; subst st'; reflexivity.
Qed.

Lemma pack_loop_image_data fuel st st' :
  pack_loop temp_glyphs glyph_order n fuel st = Some (Returns st') ->
  img_data (atlas_image st) = true -> img_data (atlas_image st') = true.
Proof.
  intros Hloop Himg.
  refine (proj1 (pack_loop_ind temp_glyphs glyph_order n
                   (fun s => img_data (atlas_image s) = true) _ _ _ _ Hloop Himg)).
  intros s s' _ Hs. exact (pack_step_image_data s s' Hs).
Qed.

End PackImage.

(** An atlas comes with both of its blocks or with neither. *)
Lemma created_atlas_blocks host fuel path ph charset char_type use_sdf atlas :
  glyph_atlas_create host fuel path ph charset char_type use_sdf = Some (Returns atlas) ->
  (chars atlas = None /\ image atlas = image_zero) \/
  ((exists cs, chars atlas = Some cs) /\ img_data (image atlas) = true).
Proof.
  unfold glyph_atlas_create.
  destruct (glyph_ttf_load_font_from_file host path) as [font|];
    [|intros [= <-]; left; split; reflexivity].
  destruct (malloc_chars host) as [fresh|]; [|intros [= <-]; left; split; reflexivity].
  destruct (negb (malloc_temp_glyphs host)); [intros [= <-]; left; split; reflexivity|].
  destruct (negb (malloc_glyph_order host)); [intros [= <-]; left; split; reflexivity|].
  rewrite pack_init_eq. destruct (clears _); [|discriminate].
  destruct (pack_loop _ _ _ _ _) as [[st| | |]|] eqn:Hloop; try discriminate.
  intros [= <-]. right. cbn. split; [eauto|].
  apply (pack_loop_image_data _ _ _ _ _ _ Hloop). reflexivity.
Qed.

(** X10. After [glyph_atlas_free] the atlas has no entries: every lookup answers
    [NULL], [glyph_atlas_print_info] reads no entry, and a second call does not
    free [chars] again. *)
Theorem atlas_free_leaves_no_entries (env : env_t) (a : glyph_atlas_t) :
  exists a',
    result_of (glyph_atlas_free env (Some a)) = Some a' /\
    chars a' = None /\ num_chars a' = 0 /\
    (forall cp, glyph_atlas_find_char (Some a') cp = FoundNull) /\
    result_of (glyph_atlas_print_info (Some a')) = Returns tt /\
    (forall path, result_of (glyph_atlas_save_metadata env (Some a') path) = Returns (-1)) /\
    (call_GLYPH_FREE_chars ∈ calls_of (glyph_atlas_free env (Some a)) <->
     chars a <> None) /\
    call_GLYPH_FREE_chars ∉ calls_of (glyph_atlas_free env (Some a')).
Proof.
  unfold glyph_atlas_free.
  destruct (chars a) as [cs|] eqn:Hc; cbn; eexists; (split; [reflexivity|]); cbn.
  - repeat split; try reflexivity; try discriminate.
    + intros _. apply elem_of_cons. left. reflexivity.
    + rewrite list_elem_of_singleton. discriminate.
  - repeat split; try reflexivity; try discriminate.
    + rewrite list_elem_of_singleton. discriminate.
    + intros H. contradiction.
    + rewrite list_elem_of_singleton. discriminate.
Qed.

(** X11. An atlas that [glyph_atlas_create] returns without entries cannot be
    saved: the three save functions answer -1 and touch no file. *)
Theorem failed_atlas_is_not_saved
    (host : host_t) (env : env_t) (fuel : nat) (path : cstring) (ph : float)
    (charset : option cstring) (char_type : glyph_encoding_type_t) (use_sdf : bool)
    (atlas : glyph_atlas_t) (output_path : cstring) :
  glyph_atlas_create host fuel path ph charset char_type use_sdf = Some (Returns atlas) ->
  chars atlas = None ->
  glyph_atlas_save_png env (Some atlas) output_path = (-1, []) /\
  glyph_atlas_save_bmp env (Some atlas) output_path = (-1, []) /\
  glyph_atlas_save_metadata env (Some atlas) output_path = (Returns (-1), []) /\
  forall cp, glyph_atlas_find_char (Some atlas) cp = FoundNull.
Proof.
  intros Hcreate Hc.
  destruct (created_atlas_blocks _ _ _ _ _ _ _ _ Hcreate) as [[_ Hi] | [[cs Hcs] _]];
    [|congruence].
  unfold glyph_atlas_save_png, glyph_atlas_save_bmp, glyph_atlas_save_metadata,
    glyph_atlas_find_char.
  rewrite Hi, Hc. cbn. repeat split.
Qed.

Lemma failed_atlas_is_not_saved_witness :
  exists atlas,
    glyph_atlas_create (sample_host (sample_font 20 30) false true true) 8 font_path
      (Float.of_int 32) (Some (list_byte_of_string "ABC")) GLYPH_ENCODING_ASCII false = Some (Returns atlas) /\
    glyph_atlas_save_png sample_env (Some atlas) font_path = (-1, []) /\
    glyph_atlas_save_metadata sample_env (Some atlas) font_path = (Returns (-1), []).
Proof.
  eexists. split; [vm_compute; reflexivity|].
  destruct (failed_atlas_is_not_saved
              (sample_host (sample_font 20 30) false true true) sample_env 8 font_path
              (Float.of_int 32) (Some (list_byte_of_string "ABC")) GLYPH_ENCODING_ASCII false
              _ font_path eq_refl eq_refl) as (Hpng & _ & Hmeta & _).
  split; [exact Hpng | exact Hmeta].
Defined.

Lemma save_metadata_loop_spec cs i left :
  (i + left <= length cs)%nat ->
  save_metadata_loop cs i left =
  (Returns tt, map (fun c => call_fprintf (line_char c)) (take left (drop i cs))).
Proof.
  revert i. induction left as [|left IH]; intros i Hlen; [reflexivity|].
  cbn [save_metadata_loop].
  destruct (cs !! i) as [c|] eqn:Hc.
  2:{ apply lookup_ge_None in Hc. lia. }
  rewrite IH by lia.
  rewrite (drop_S _ _ _ Hc). reflexivity.
Qed.

(** X12. The metadata file of an atlas holds, after the six header lines, one line
    for each entry, and the codepoints of these lines are the codepoints of
    the charset in charset order. *)
Theorem saved_metadata_lists_the_charset
    (host : host_t) (env : env_t) (fuel : nat) (path : cstring) (ph : float)
    (charset : option cstring) (char_type : glyph_encoding_type_t) (use_sdf : bool)
    (font : glyph_font_t) (atlas : glyph_atlas_t) (cs : list glyph_atlas_char_t)
    (output_path : cstring) :
  glyph_ttf_load_font_from_file host path = Some font ->
  Z.of_nat (strlen (charset_or_default charset)) < 2 ^ 31 ->
  glyph_atlas_create host fuel path ph charset char_type use_sdf = Some (Returns atlas) ->
  chars atlas = Some cs ->
  fopen env output_path = true ->
  glyph_atlas_save_metadata env (Some atlas) output_path =
    (Returns 0,
     [call_fopen output_path true] ++ map call_fprintf (metadata_lines atlas cs)
       ++ [call_fclose]) /\
  map ch_codepoint cs = charset_codepoints char_type (charset_or_default charset) /\
  num_chars atlas = Z.of_nat (length cs).
Proof.
  intros Hfont Hlen Hcreate Hcs Hopen.
  pose proof (created_chars_length _ _ _ _ _ _ _ _ _ _ Hfont Hlen Hcreate Hcs) as Hnum.
  pose proof (created_codepoints _ _ _ _ _ _ _ _ _ _ Hfont Hlen Hcreate Hcs) as Hcodes.
  split; [|split].
  - unfold glyph_atlas_save_metadata, metadata_lines. rewrite Hcs, Hopen, Hnum.
    rewrite save_metadata_loop_spec by (cbn; lia).
    rewrite drop_0, firstn_all. cbn.
    rewrite map_map. reflexivity.
  - rewrite map_fmap. exact Hcodes.
  - rewrite (create_num_chars _ _ _ _ _ _ _ _ _ Hfont Hcreate).
    rewrite charset_length_codepoints by exact Hlen.
    rewrite <- Hcodes, length_fmap. reflexivity.
Qed.

Lemma saved_metadata_lists_the_charset_witness :
  exists atlas cs,
    glyph_atlas_create (sample_host (sample_font 20 30) true true true) 8 font_path
      (Float.of_int 32) (Some (list_byte_of_string "ABA")) GLYPH_ENCODING_ASCII false = Some (Returns atlas) /\
    glyph_atlas_save_metadata sample_env (Some atlas) font_path =
      (Returns 0,
       [call_fopen font_path true] ++ map call_fprintf (metadata_lines atlas cs)
         ++ [call_fclose]) /\
    map ch_codepoint cs = [65; 66; 65].
Proof.
  eexists. eexists. split; [vm_compute; reflexivity|].
  destruct (saved_metadata_lists_the_charset
              (sample_host (sample_font 20 30) true true true) sample_env 8 font_path
              (Float.of_int 32) (Some (list_byte_of_string "ABA")) GLYPH_ENCODING_ASCII false
              (sample_font 20 30) _ _ font_path eq_refl ltac:(vm_compute; reflexivity)
              ltac:(vm_compute; reflexivity) eq_refl eq_refl) as (Hsave & Hcodes & _).
  split; [exact Hsave | exact Hcodes].
Defined.

(** X13. After a failed allocation the atlas keeps its entry count but has no
    entries; [glyph_atlas_print_info], which does not test [chars], reads
    through the [NULL] pointer as soon as the count is positive. *)
Theorem print_info_reads_null_after_failed_allocation
    (host : host_t) (fuel : nat) (path : cstring) (ph : float) (charset : option cstring)
    (char_type : glyph_encoding_type_t) (use_sdf : bool) (font : glyph_font_t) :
  glyph_ttf_load_font_from_file host path = Some font ->
  malloc_chars host = None \/ malloc_temp_glyphs host = false \/
    malloc_glyph_order host = false ->
  0 < charset_length char_type (charset_or_default charset) ->
  exists atlas,
    glyph_atlas_create host fuel path ph charset char_type use_sdf = Some (Returns atlas) /\
    result_of (glyph_atlas_print_info (Some atlas)) = ReadsNull /\
    forall env, exists freed,
      result_of (glyph_atlas_free env (Some atlas)) = Some freed /\
      result_of (glyph_atlas_print_info (Some freed)) = Returns tt.
Proof.
  intros Hfont Hfail Hpos.
  assert (Hcreate :
    glyph_atlas_create host fuel path ph charset char_type use_sdf =
    Some (Returns {| image := image_zero; chars := None;
                     num_chars := charset_length char_type (charset_or_default charset);
                     pixel_height := ph |})).
  { unfold glyph_atlas_create, charset_or_default. rewrite Hfont.
    destruct (malloc_chars host) as [fresh|]; [|reflexivity].
    destruct (malloc_temp_glyphs host); [|reflexivity].
    destruct (malloc_glyph_order host); [|reflexivity].
    destruct Hfail as [H | [H | H]]; discriminate. }
  eexists. split; [exact Hcreate|]. split.
  - unfold glyph_atlas_print_info. cbn.
    destruct (Z.to_nat (charset_length char_type (charset_or_default charset))) eqn:E;
      [lia | reflexivity].
  - intros env. eexists. split; reflexivity.
Qed.

Lemma print_info_reads_null_after_failed_allocation_witness :
  exists atlas,
    glyph_atlas_create (sample_host (sample_font 20 30) true false true) 8 font_path
      (Float.of_int 32) (Some (list_byte_of_string "ABC")) GLYPH_ENCODING_ASCII false = Some (Returns atlas) /\
    result_of (glyph_atlas_print_info (Some atlas)) = ReadsNull.
Proof.
  destruct (print_info_reads_null_after_failed_allocation
              (sample_host (sample_font 20 30) true false true) 8 font_path (Float.of_int 32)
              (Some (list_byte_of_string "ABC")) GLYPH_ENCODING_ASCII false
              (sample_font 20 30) eq_refl (or_intror (or_introl eq_refl))
              ltac:(vm_compute; reflexivity)) as (atlas & Hcreate & Hinfo & _).
  exists atlas. split; [exact Hcreate | exact Hinfo].
Defined.

(** ** The renderer: creation and release *)

Lemma give_back_head x l : give_back x (x :: l) = Some l.
Proof. cbn. rewrite decide_True by reflexivity. reflexivity. Qed.

Lemma give_back_skip x y l :
  x <> y -> give_back x (y :: l) = (fun l' => y :: l') <$> give_back x l.
Proof.
  intros H. cbn [give_back]. rewrite decide_False by exact H.
  destruct (give_back x l); reflexivity.
Qed.

Ltac ledger :=
  repeat first
    [ progress cbn [held_after released acquired app fmap option_fmap option_map]
    | rewrite give_back_head
    | rewrite give_back_skip by discriminate
    | match goal with H : (_ =? 0) = _ |- _ => rewrite H end ].

#[local] Opaque give_back.

(** The call frees every bitmap except where the allocation of [glyph_order]
    fails. *)
Lemma unfreed_when_glyph_order host path ph charset char_type use_sdf :
  malloc_glyph_order host = true ->
  glyph_atlas_create_unfreed host path ph charset char_type use_sdf = [].
Proof.
  intros Horder. unfold glyph_atlas_create_unfreed. rewrite Horder.
  destruct (glyph_ttf_load_font_from_file host path); [|reflexivity].
  destruct (malloc_chars host); [|reflexivity].
  destruct (negb (malloc_temp_glyphs host)); reflexivity.
Qed.

Lemma unfreed_when_chars host fuel path ph charset char_type use_sdf atlas cs :
  glyph_atlas_create host fuel path ph charset char_type use_sdf = Some (Returns atlas) ->
  chars atlas = Some cs ->
  glyph_atlas_create_unfreed host path ph charset char_type use_sdf = [].
Proof.
  unfold glyph_atlas_create, glyph_atlas_create_unfreed.
  destruct (glyph_ttf_load_font_from_file host path); [|reflexivity].
  destruct (malloc_chars host); [|reflexivity].
  destruct (negb (malloc_temp_glyphs host)); [reflexivity|].
  destruct (negb (malloc_glyph_order host)); [|reflexivity].
  intros [= <-]. discriminate.
Qed.

Section RendererCreate.

Variable host : host_t.
Variable env : env_t.
Variable fuel : nat.
Variable path : cstring.
Variable ph : float.
Variable charset : option cstring.
Variable char_type : glyph_encoding_type_t.
Variable effect : option glyph_effect_t.
Variable use_sdf : bool.
Variable m : io glyph_renderer_t.

Hypothesis created :
  glyph_renderer_create host env fuel path ph charset char_type effect use_sdf = Some (Returns m).

(** The ledger of one [glyph_renderer_create] call. *)
Lemma create_ledger :
  held_after (calls_of m) [] =
  Some (if rn_initialized (result_of m) =? 0
        then if glyph_gl_load_functions env
             then map Bitmap (glyph_atlas_create_unfreed host path ph charset char_type use_sdf)
             else []
        else owned (result_of m)).
Proof.
  revert created. unfold glyph_renderer_create.
  destruct (glyph_gl_load_functions env); cbn [negb]; [|intros [= <-]; reflexivity].
  destruct (glyph_atlas_create _ _ _ _ _ _ _) as [[atlas| | |]|] eqn:Hcreate;
    try discriminate.
  intros [= <-].
  destruct (created_atlas_blocks _ _ _ _ _ _ _ _ Hcreate) as [[Hc Hi] | [[cs Hc] Hi]].
  { destruct atlas as [img cs0 nc ph']. cbn in Hc, Hi. subst. reflexivity. }
  rewrite (unfreed_when_chars _ _ _ _ _ _ _ _ _ Hcreate Hc).
  destruct atlas as [[w h d] cs0 nc ph']. cbn in Hc, Hi. subst. clear Hcreate.
  cbn.
  destruct (malloc_red_channel env (uint_mul w h)) as [red|]; cbn; [|reflexivity].
  set (prog := glyph__create_program env _ _).
  destruct (prog =? 0) eqn:Hprog; cbn; [ledger; reflexivity|].
  destruct (malloc_vertex_buffer env _) as [addr|]; cbn; ledger; reflexivity.
Qed.

(** What an initialised renderer is made of. *)
Lemma create_initialized :
  rn_initialized (result_of m) = 0 \/
  rn_initialized (result_of m) = 1 /\
  glyph_atlas_create host fuel path ph charset char_type use_sdf
    = Some (Returns (rn_atlas (result_of m))) /\
  (exists cs, chars (rn_atlas (result_of m)) = Some cs) /\
  img_data (image (rn_atlas (result_of m))) = true /\
  rn_char_type (result_of m) = char_type /\
  rn_vertex_buffer_size (result_of m) = 294912 /\
  exists addr,
    rn_vertex_buffer (result_of m) = Some {| block_addr := addr; block_bytes := 1179648 |}.
Proof.
  revert created. unfold glyph_renderer_create.
  destruct (glyph_gl_load_functions env); cbn [negb]; [|intros [= <-]; left; reflexivity].
  destruct (glyph_atlas_create _ _ _ _ _ _ _) as [[atlas| | |]|] eqn:Hcreate;
    try discriminate.
  intros [= <-].
  destruct (created_atlas_blocks _ _ _ _ _ _ _ _ Hcreate) as [[Hc Hi] | [[cs Hc] Hi]].
  { destruct atlas as [img cs0 nc ph']. cbn in Hc, Hi. subst. left. reflexivity. }
  destruct atlas as [[w h d] cs0 nc ph']. cbn in Hc, Hi. subst.
  cbn.
  destruct (malloc_red_channel env (uint_mul w h)) as [red|]; cbn; [|left; reflexivity].
  set (prog := glyph__create_program env _ _).
  destruct (prog =? 0) eqn:Hprog; cbn; [left; reflexivity|].
  destruct (malloc_vertex_buffer env _) as [addr|]; cbn; [|left; reflexivity].
  right. repeat split; eauto.
Qed.

End RendererCreate.



Lemma held_after_app a b held :
  held_after (a ++ b) held =
  match held_after a held with
  | Some held' => held_after b held'
  | None => None
  end.
Proof.
  revert held. induction a as [|e a IH]; intros held; [reflexivity|].
  cbn [app held_after]. destruct (released e) as [x|]; [|apply IH].
  destruct (give_back x held); [apply IH | reflexivity].
Qed.

(** [glyph_renderer_free] gives back what an initialised renderer names. *)
Lemma free_ledger env r cs :
  rn_initialized r <> 0 -> chars (rn_atlas r) = Some cs ->
  img_data (image (rn_atlas r)) = true ->
  held_after (calls_of (glyph_renderer_free env (Some r))) (owned r) = Some [] /\
  exists r', result_of (glyph_renderer_free env (Some r)) = Some r' /\
             rn_initialized r' = 0.
Proof.
  intros Hinit Hc Hi. unfold glyph_renderer_free, owned.
  destruct (Z.eqb_spec (rn_initialized r) 0) as [|_]; [contradiction|].
  destruct r as [[img cs0 nc php] t p va vb buf size init ct ce eff].
  cbn in Hc, Hi. subst cs0. destruct img as [w h d]. cbn in Hi. subst d.
  destruct buf as [[addr bytes]|]; cbn; (split; [ledger; reflexivity | eauto]).
Qed.



(** X16. A custom effect has type [GLYPH_EFFECT_NONE], so the renderer compiles the
    default sources for it: the calls are those of a renderer without effect,
    and no program is ever created from the caller's sources. *)
Theorem custom_effect_compiles_default_shaders
    (host : host_t) (env : env_t) (fuel : nat) (path : cstring) (ph : float)
    (charset : option cstring) (char_type : glyph_encoding_type_t)
    (vs fs : option shader_source) (use_sdf : bool) (m : io glyph_renderer_t) :
  glyph_renderer_create host env fuel path ph charset char_type
    (Some (glyph_effect_create_custom vs fs)) use_sdf = Some (Returns m) ->
  (exists m',
     glyph_renderer_create host env fuel path ph charset char_type None use_sdf = Some (Returns m') /\
     calls_of m = calls_of m' /\
     rn_shader (result_of m) = rn_shader (result_of m') /\
     rn_initialized (result_of m) = rn_initialized (result_of m')) /\
  (forall vs' fs' id,
     call_glyph__create_program vs' fs' id ∈ calls_of m ->
     vs' = Some vertex_shader_source_cached /\ fs' = Some fragment_shader_source_cached).
Proof.
  unfold glyph_renderer_create.
  cbn [glyph_effect_create_custom effect_type effect_zero].
  destruct (glyph_gl_load_functions env); cbn [negb].
  2:{ intros [= <-]. split; [eexists; repeat split|].
      intros vs' fs' id Hin. cbn in Hin. apply elem_of_nil in Hin. contradiction. }
  destruct (glyph_atlas_create _ _ _ _ _ _ _) as [[[[w h d] cs nc php]| | |]|];
    try discriminate.
  intros [= <-]. split.
  - eexists. split; [reflexivity|].
    destruct cs; cbn; [|repeat split].
    destruct d; cbn; [|repeat split].
    destruct (malloc_red_channel env _); cbn; [|repeat split].
    destruct (glyph__create_program env _ _ =? 0); cbn; [repeat split|].
    destruct (malloc_vertex_buffer env _); cbn; repeat split.
  - intros vs' fs' id.
    destruct cs; cbn; [|rewrite list_elem_of_singleton; discriminate].
    destruct d; cbn; [|rewrite list_elem_of_singleton; discriminate].
    destruct (malloc_red_channel env _); cbn.
    2:{ rewrite !elem_of_cons, elem_of_nil. intros H.
        repeat (destruct H as [H|H]; [discriminate|]). contradiction. }
    destruct (glyph__create_program env _ _ =? 0); cbn;
      [|destruct (malloc_vertex_buffer env _); cbn];
      rewrite !elem_of_cons, elem_of_nil; intros H;
      repeat (destruct H as [H|H];
              [first [discriminate | injection H as -> -> _; split; reflexivity]|]);
      contradiction.
Qed.

Lemma custom_effect_compiles_default_shaders_witness :
  exists m,
    glyph_renderer_create (sample_host (sample_font 20 30) true true true) sample_env 8
      font_path (Float.of_int 32) (Some (list_byte_of_string "AB?")) GLYPH_ENCODING_ASCII
      (Some (glyph_effect_create_custom (Some (caller_source [x41])) (Some (caller_source [x42]))))
      false = Some (Returns m) /\
    forall vs' fs' id,
      call_glyph__create_program vs' fs' id ∈ calls_of m ->
      vs' = Some vertex_shader_source_cached /\ fs' = Some fragment_shader_source_cached.
Proof.
  eexists. split; [vm_compute; reflexivity|].
  apply (custom_effect_compiles_default_shaders
           (sample_host (sample_font 20 30) true true true) sample_env 8 font_path (Float.of_int 32)
           (Some (list_byte_of_string "AB?")) GLYPH_ENCODING_ASCII
           (Some (caller_source [x41])) (Some (caller_source [x42])) false).
  vm_compute. reflexivity.
Defined.

(** X17. An initialised renderer meets what [glyph_renderer_draw_text] relies on:
    its vertex buffer is a block of four times [vertex_buffer_size] bytes and
    its atlas has room for the entries it declares. *)
Theorem created_renderer_is_ready_to_draw
    (host : host_t) (env : env_t) (fuel : nat) (path : cstring) (ph : float)
    (charset : option cstring) (char_type : glyph_encoding_type_t)
    (effect : option glyph_effect_t) (use_sdf : bool) (m : io glyph_renderer_t) :
  glyph_renderer_create host env fuel path ph charset char_type effect use_sdf = Some (Returns m) ->
  rn_initialized (result_of m) <> 0 ->
  Z.of_nat (strlen (charset_or_default charset)) < 2 ^ 31 ->
  buffer_holds (result_of m) /\
  buffer_bytes (result_of m) = sizeof_float * rn_vertex_buffer_size (result_of m) /\
  chars_allocated (Some (rn_atlas (result_of m))) /\
  rn_char_type (result_of m) = char_type.
Proof.
  intros Hcreate Hinit Hlen.
  destruct (create_initialized _ _ _ _ _ _ _ _ _ _ Hcreate)
    as [H0 | (_ & Hatlas & _ & _ & Hct & Hsize & addr & Hbuf)]; [contradiction|].
  unfold buffer_holds, buffer_bytes. rewrite Hbuf, Hsize. cbn.
  split; [lia|]. split; [reflexivity|]. split; [|exact Hct].
  exact (created_atlas_allocated _ _ _ _ _ _ _ _ Hlen Hatlas).
Qed.

Lemma created_renderer_is_ready_to_draw_witness :
  exists m,
    glyph_renderer_create (sample_host (sample_font 20 30) true true true) sample_env 8
      font_path (Float.of_int 32) (Some (list_byte_of_string "AB?")) GLYPH_ENCODING_ASCII None false
      = Some (Returns m) /\
    buffer_holds (result_of m) /\ chars_allocated (Some (rn_atlas (result_of m))).
Proof.
  eexists. split; [vm_compute; reflexivity|].
  destruct (created_renderer_is_ready_to_draw
              (sample_host (sample_font 20 30) true true true) sample_env 8 font_path
              (Float.of_int 32) (Some (list_byte_of_string "AB?")) GLYPH_ENCODING_ASCII None false
              _ ltac:(vm_compute; reflexivity) ltac:(vm_compute; discriminate)
              ltac:(vm_compute; reflexivity)) as (Hbuf & _ & Halloc & _).
  split; [exact Hbuf | exact Halloc].
Defined.

(** ** The renderer: the vertex batch *)

(** X18. A run of [glyph_renderer_draw_text] that ends has either returned, and
    then every quad was written inside the vertex buffer and the upload reads
    inside it, or it has stopped in a write behind the end of the vertex
    buffer, and then the text is one that cannot be drawn.  On a text that can
    be drawn every run that ends returns. *)
Theorem draw_text_writes_inside_buffer
    (env : env_t) (fuel : nat) (r : glyph_renderer_t) (text : cstring) (effects : Z)
    (res : outcome draw_result) :
  buffer_holds r -> chars_allocated (Some (rn_atlas r)) ->
  Z.of_nat (strlen text) < 2 ^ 32 ->
  glyph_renderer_draw_text env fuel (Some r) text effects = Some res ->
  (exists r' batch,
     res = Returns {| dr_renderer := Some r'; dr_batch := batch |} /\
     buffer_holds r' /\
     forall st, batch = Some st ->
       Forall (write_inside r') (bs_writes st) /\
       upload_bytes st <= buffer_bytes r') \/
  (res = WritesOutside /\ drawable_text (rn_char_type r) text = false).
Proof.
  intros Hb Halloc Hlen.
  destruct (draw_text_prelude env r text effects Hb Hlen)
    as [(r1 & Hb1 & _ & Hdraw) | (r2 & _ & Ha2 & Hc2 & Hb2 & Hroom & _ & Hdraw)];
    rewrite Hdraw.
  { intros [= <-]. left. exists r1, None.
    split; [reflexivity|]. split; [exact Hb1 | discriminate]. }
  assert (Halloc2 : chars_allocated (Some (rn_atlas r2))) by (rewrite Ha2; exact Halloc).
  destruct (drawable_text (rn_char_type r) text) eqn:Hok; rewrite <- Hc2 in Hok.
  - destruct (draw_loop_drawable r2 text effects Halloc2 Hlen Hroom _ eq_refl Hok)
      as (st & Hloop & Hinv & _).
    destruct (draw_text_loop fuel r2 text effects (strlen text) _) as [res'|] eqn:Hfuel;
      [|discriminate].
    apply (draw_text_loop_more _ _ _ _ (S (strlen text))) in Hfuel.
    apply (draw_text_loop_more _ _ _ _ fuel) in Hloop.
    rewrite Nat.add_comm, Hloop in Hfuel. injection Hfuel as <-.
    intros [= <-]. left. exists r2, (Some st).
    split; [reflexivity|]. split; [exact Hb2|].
    intros st' [= <-]. destruct Hinv as (Hi & Hvc & Hw).
    unfold buffer_holds in Hb2. split.
    + eapply Forall_impl; [exact Hw|]. cbn. intros w Hwr.
      unfold write_inside, sizeof_float. lia.
    + unfold upload_bytes, sizeof_float.
      change (2 ^ 32) with 4294967296 in Hlen.
      assert (H64 : 2 ^ 64 = 18446744073709551616) by reflexivity.
      rewrite (size_mul_small (bs_vertex_count st) 4) by lia.
      rewrite size_mul_small by lia. lia.
  - destruct (draw_loop_not_drawable r2 text effects Halloc2 Hlen Hroom _ eq_refl Hok)
      as (Hfault & _).
    destruct (draw_text_loop fuel r2 text effects (strlen text) _)
      as [[st| | |]|] eqn:Hloop; try discriminate;
      pose proof (Hfault _ _ Hloop) as Hres; try discriminate.
    intros [= <-]. right. split; reflexivity.
Qed.

Lemma sample_renderer_ready :
  buffer_holds sample_renderer /\ chars_allocated (Some (rn_atlas sample_renderer)) /\
  rn_initialized sample_renderer <> 0.
Proof.
  split; [|split].
  - unfold buffer_holds. vm_compute. split; discriminate.
  - vm_compute. lia.
  - vm_compute. discriminate.
Qed.

Lemma draw_text_writes_inside_buffer_witness :
  exists r' st,
    glyph_renderer_draw_text sample_env 4 (Some sample_renderer)
      (list_byte_of_string "ABZ") (Z.lor GLYPHGL_BOLD GLYPHGL_UNDERLINE) =
      Some (Returns {| dr_renderer := Some r'; dr_batch := Some st |}) /\
    Forall (write_inside r') (bs_writes st) /\
    upload_bytes st <= buffer_bytes r'.
Proof.
  eexists. eexists. split; [vm_compute; reflexivity|].
  destruct sample_renderer_ready as (Hbuf & Halloc & _).
  destruct (draw_text_writes_inside_buffer sample_env 4 sample_renderer
              (list_byte_of_string "ABZ") (Z.lor GLYPHGL_BOLD GLYPHGL_UNDERLINE) _
              Hbuf Halloc ltac:(vm_compute; reflexivity) ltac:(vm_compute; reflexivity))
    as [(r' & batch & Hres & _ & Hw) | [Hres _]]; [|discriminate Hres].
  injection Hres as <- <-. exact (Hw _ eq_refl).
Defined.

(** X19. A text that can be drawn is drawn in at most [strlen text] iterations,
    six vertices for each quad of each visible codepoint. *)
Theorem draw_text_vertex_count
    (env : env_t) (r : glyph_renderer_t) (text : cstring) (effects : Z) (extra : nat) :
  rn_initialized r <> 0 ->
  buffer_holds r ->
  chars_allocated (Some (rn_atlas r)) ->
  Z.of_nat (strlen text) < 2 ^ 32 ->
  (forall ptr bytes, realloc_vertex_buffer env ptr bytes <> None) ->
  drawable_text (rn_char_type r) text = true ->
  exists r' st,
    glyph_renderer_draw_text env (S (strlen text) + extra) (Some r) text effects =
      Some (Returns {| dr_renderer := Some r'; dr_batch := Some st |}) /\
    let glyphs :=
      Z.of_nat (length (List.filter (visible (rn_atlas r))
                                    (charset_codepoints (rn_char_type r) text))) in
    bs_vertex_count st = 6 * (quads_per_glyph effects * glyphs) /\
    upload_bytes st = 96 * (quads_per_glyph effects * glyphs) /\
    (upload_bytes st <= sizeof_float * GLYPHGL_VERTEX_BUFFER_SIZE <->
     quads_per_glyph effects * glyphs <= 3072).
Proof.
  intros Hinit Hb Halloc Hlen Hre Hok.
  destruct (draw_text_enters_loop env r text effects Hinit Hb Hlen Hre)
    as (r2 & Ha2 & Hc2 & Hb2 & Hroom & _ & Hdraw).
  assert (Halloc2 : chars_allocated (Some (rn_atlas r2))) by (rewrite Ha2; exact Halloc).
  rewrite <- Hc2 in Hok.
  destruct (draw_loop_drawable r2 text effects Halloc2 Hlen Hroom _ eq_refl Hok)
    as (st & Hloop & Hinv & _ & Hcount).
  exists r2, st. rewrite Hdraw.
  rewrite (draw_text_loop_more _ _ _ _ extra _ _ Hloop).
  split; [reflexivity|].
  rewrite Hc2, Ha2 in Hcount. cbv zeta.
  set (glyphs := Z.of_nat (length _)) in *.
  destruct Hinv as (Hi & Hvc & _).
  assert (Hup : upload_bytes st = 96 * (quads_per_glyph effects * glyphs)).
  { unfold upload_bytes, sizeof_float.
    change (2 ^ 32) with 4294967296 in Hlen.
    assert (H64 : 2 ^ 64 = 18446744073709551616) by reflexivity.
    rewrite (size_mul_small (bs_vertex_count st) 4) by lia.
    rewrite size_mul_small by lia. lia. }
  split; [lia|]. split; [exact Hup|].
  rewrite Hup. unfold sizeof_float, GLYPHGL_VERTEX_BUFFER_SIZE. lia.
Qed.

Lemma draw_text_vertex_count_witness :
  exists r' st,
    glyph_renderer_draw_text sample_env 4 (Some sample_renderer)
      (list_byte_of_string "ABZ") GLYPHGL_BOLD =
      Some (Returns {| dr_renderer := Some r'; dr_batch := Some st |}) /\
    bs_vertex_count st = 24 /\ upload_bytes st = 384.
Proof.
  destruct sample_renderer_ready as (Hbuf & Halloc & Hinit).
  destruct (draw_text_vertex_count sample_env sample_renderer (list_byte_of_string "ABZ")
              GLYPHGL_BOLD 0 Hinit Hbuf Halloc ltac:(vm_compute; reflexivity)
              ltac:(intros ptr bytes; discriminate) eq_refl)
    as (r' & st & Hdraw & Hcount & Hup & _).
  exists r', st. split; [exact Hdraw|]. split; [exact Hcount | exact Hup].
Defined.

Section RasterGlyphs.

Variable host : host_t.
Variable font : glyph_font_t.
Variable ph : float.
Variable charset : cstring.
Variable char_type : glyph_encoding_type_t.
Variable use_sdf : bool.

#[local] Abbreviation step := (rasterize_step host font ph charset char_type use_sdf).

Lemma rasterize_step_glyph st i :
  rs_temp_glyphs (step st i) =
  rs_temp_glyphs st ++
    [rasterized_glyph host font ph use_sdf (fst (read_at charset char_type st i))].
Proof.
  unfold rasterize_step, read_at, rasterized_glyph, missing_glyph.
  destruct (if is_utf8 char_type then _ else _) as [cp idx]. cbn [fst].
  destruct (_ && _); reflexivity.
Qed.

Lemma rasterize_fold_temp_keep m s st k :
  (k < length (rs_temp_glyphs st))%nat ->
  rs_temp_glyphs (fold_left step (seq s m) st) !! k = rs_temp_glyphs st !! k.
Proof.
  revert s st. induction m as [|m IH]; intros s st Hk; cbn [seq fold_left]; [reflexivity|].
  rewrite IH by (rewrite rasterize_step_glyph, length_app; lia).
  rewrite rasterize_step_glyph. now apply lookup_app_l.
Qed.

Lemma rasterize_fold_temp m s st k :
  length (rs_temp_glyphs st) = s -> (k < m)%nat ->
  rs_temp_glyphs (fold_left step (seq s m) st) !! (s + k)%nat =
  Some (rasterized_glyph host font ph use_sdf
          (nth k (read_codepoints char_type charset m s (rs_charset_idx st)) 0)).
Proof.
  revert s st k. induction m as [|m IH]; intros s st k Hlen Hk; [lia|].
  cbn [seq fold_left read_codepoints].
  destruct k as [|k].
  - rewrite Nat.add_0_r, rasterize_fold_temp_keep
      by (rewrite rasterize_step_glyph, length_app; cbn [length]; lia).
    rewrite rasterize_step_glyph, lookup_app_r by lia.
    rewrite Hlen, Nat.sub_diag. reflexivity.
  - replace (s + S k)%nat with (S s + k)%nat by lia.
    rewrite IH; [|rewrite rasterize_step_glyph, length_app; cbn [length]; lia | lia].
    rewrite rasterize_step_idx. reflexivity.
Qed.

End RasterGlyphs.

Section Sized.

Variable temp_glyphs : list temp_glyph_t.
Variable glyph_order : list nat.
Variable n : nat.

Lemma sized_as_box g c c0 : entry_box c = entry_box c0 -> sized_as g c0 -> sized_as g c.
Proof.
  unfold entry_box, sized_as. intros [= _ -> -> -> ->] H. exact H.
Qed.

Lemma pack_step_sized st st' :
  (order_idx st < length glyph_order)%nat ->
  pack_step temp_glyphs glyph_order st = Returns st' ->
  sized_inv temp_glyphs glyph_order st ->
  sized_inv temp_glyphs glyph_order st'.
Proof.
  intros Hlen Hstep Hdone. revert Hstep. unfold pack_step.
  destruct (lookup_lt_is_Some_2 glyph_order (order_idx st) Hlen) as [i Hi].
  rewrite (nth_lookup_Some _ _ 0%nat _ Hi).
  destruct (is_empty_glyph (glyph temp_glyphs i)) eqn:Hempty.
  { intros [= <-]. unfold skip_glyph, sized_inv; state_fields.
    intros p j c Hp Hj Hje Hc.
    assert (j <> i) by (intros ->; congruence).
    rewrite list_lookup_alter_ne in Hc by congruence.
    apply (Hdone p j c); [|assumption..].
    destruct (Nat.eq_dec p (order_idx st)) as [-> | ?]; [congruence | lia]. }
  set (st1 := if _ >? atlas_width st then close_row temp_glyphs st else st).
  assert (H1 : sized_inv temp_glyphs glyph_order st1 /\ order_idx st1 = order_idx st).
  { subst st1. destruct (_ >? atlas_width st); [|split; [assumption | reflexivity]].
    split; [|reflexivity]. unfold close_row, sized_inv; state_fields.
    intros p j c Hp Hj Hje Hc. apply align_row_box in Hc as (c0 & Hc0 & Hbox).
    apply (sized_as_box _ _ _ Hbox). now apply (Hdone p j c0). }
  destruct H1 as [Hdone1 Hidx1].
  destruct (_ >? atlas_height st1).
  - intros Hgrow. apply grow_and_restart_returns in Hgrow. subst st'.
    unfold restarted, sized_inv; state_fields. intros p j c Hp. lia.
  - intros [= <-]. unfold place_glyph, sized_inv; state_fields.
    rewrite Hidx1. intros p j c Hp Hj Hje Hc.
    destruct (Nat.eq_dec j i) as [-> | Hne].
    + rewrite list_lookup_alter_eq in Hc.
      destruct (atlas_chars st1 !! i) as [c0|]; [|discriminate].
      injection Hc as <-. repeat split.
    + rewrite list_lookup_alter_ne in Hc by congruence.
      apply (Hdone1 p j c); [|assumption..].
      destruct (Nat.eq_dec p (order_idx st)) as [-> | ?]; [congruence | lia].
Qed.

Lemma pack_loop_sized fuel st st' :
  length glyph_order = n ->
  pack_loop temp_glyphs glyph_order n fuel st = Some (Returns st') ->
  sized_inv temp_glyphs glyph_order st ->
  sized_inv temp_glyphs glyph_order st' /\ (n <= order_idx st')%nat.
Proof.
  intros Hlen Hloop Hinv.
  refine (pack_loop_ind temp_glyphs glyph_order n (sized_inv temp_glyphs glyph_order)
            _ _ _ _ Hloop Hinv).
  intros s s' Hlt Hs. apply pack_step_sized; [lia | exact Hs].
Qed.

(** Every glyph with a bitmap ends with an entry of its size. *)
Lemma packed_glyph_sized fuel size cs0 st i c :
  Permutation (seq 0 n) glyph_order ->
  pack_loop temp_glyphs glyph_order n fuel (pass_start size cs0) = Some (Returns st) ->
  (i < n)%nat -> is_empty_glyph (glyph temp_glyphs i) = false ->
  finish_last_row temp_glyphs st !! i = Some c ->
  sized_as (glyph temp_glyphs i) c.
Proof.
  intros Hperm Hloop Hi Hne Hc.
  assert (Hlen : length glyph_order = n).
  { rewrite <- (Permutation_length Hperm). apply length_seq. }
  destruct (pack_loop_sized _ _ _ Hlen Hloop) as [Hdone Hidx].
  { intros p j c' Hp. cbn in Hp. lia. }
  assert (Hin : i ∈ glyph_order).
  { rewrite <- Hperm. apply elem_of_seq. lia. }
  apply list_elem_of_lookup in Hin as [p Hp].
  assert (Hplt : (p < order_idx st)%nat).
  { apply lookup_lt_Some in Hp. lia. }
  unfold finish_last_row in Hc.
  destruct (current_row st) as [|r row]; [exact (Hdone p i c Hplt Hp Hne Hc)|].
  apply align_row_box in Hc as (c0 & Hc0 & Hbox).
  apply (sized_as_box _ _ _ Hbox). exact (Hdone p i c0 Hplt Hp Hne Hc0).
Qed.

End Sized.

(** X20. Every entry of a created atlas is filled from the glyph of its codepoint:
    the codepoint itself; when the font has the glyph, its advance times the
    scale, multiplied as [float]s, rounded to the nearest [float] and then
    truncated; and the size and offsets of the bitmap, or zeros when there is
    no bitmap to pack. *)
Theorem created_entries_are_filled_from_their_glyphs
    (host : host_t) (fuel : nat) (path : cstring) (ph : float) (charset : option cstring)
    (char_type : glyph_encoding_type_t) (use_sdf : bool) (font : glyph_font_t)
    (atlas : glyph_atlas_t) (cs : list glyph_atlas_char_t) (i : nat) (cp : Z) :
  glyph_ttf_load_font_from_file host path = Some font ->
  Z.of_nat (strlen (charset_or_default charset)) < 2 ^ 31 ->
  glyph_atlas_create host fuel path ph charset char_type use_sdf = Some (Returns atlas) ->
  chars atlas = Some cs ->
  charset_codepoints char_type (charset_or_default charset) !! i = Some cp ->
  exists c,
    cs !! i = Some c /\ ch_codepoint c = cp /\
    (missing_glyph font cp = false ->
     ch_advance c =
       float_to_int
         (Float.mul
            (Float.of_int (glyph_ttf_get_glyph_advance font
                             (glyph_ttf_find_glyph_index font cp)))
            (glyph_ttf_scale_for_pixel_height font ph))) /\
    (is_empty_glyph (rasterized_glyph host font ph use_sdf cp) = true -> zero_geometry c) /\
    (is_empty_glyph (rasterized_glyph host font ph use_sdf cp) = false ->
     sized_as (rasterized_glyph host font ph use_sdf cp) c).
Proof.
  intros Hfont Hlen Hcreate Hcs Hcp.
  destruct (create_chars _ _ _ _ _ _ _ _ _ Hfont Hcreate cs Hcs)
    as (fresh & st & Hfresh & Hloop & -> & _).
  cbv zeta in Hloop.
  set (cset := charset_or_default charset) in *.
  set (rs := rasterized host font ph cset char_type use_sdf fresh) in *.
  set (temp := rs_temp_glyphs rs) in *.
  set (n := Z.to_nat (charset_length char_type cset)) in *.
  assert (Hn : n = length (charset_codepoints char_type cset)).
  { subst n. now rewrite charset_length_codepoints, Nat2Z.id. }
  assert (Hi : (i < n)%nat) by (rewrite Hn; eapply lookup_lt_Some, Hcp).
  assert (Hreads : read_codepoints char_type cset n 0 0 = charset_codepoints char_type cset).
  { rewrite Hn. apply read_codepoints_charset. }
  assert (Hrs : rs_chars rs !! i = Some (raster_entry font ph cp (fresh i))).
  { subst rs. unfold rasterized, rasterize_all. fold n.
    rewrite rasterize_fold_chars. cbn [rs_chars rs_charset_idx].
    destruct (decide (0 <= i < 0 + n)%nat); [|lia].
    rewrite Hreads, Nat.sub_0_r, (nth_lookup_Some _ _ 0 _ Hcp).
    rewrite map_fmap, list_lookup_fmap, lookup_seq_lt by lia. reflexivity. }
  assert (Hglyph : glyph temp i = rasterized_glyph host font ph use_sdf cp).
  { unfold glyph. subst temp rs. unfold rasterized, rasterize_all. fold n.
    pose proof (rasterize_fold_temp host font ph cset char_type use_sdf n 0
                  {| rs_charset_idx := 0; rs_chars := map fresh (seq 0 n);
                     rs_temp_glyphs := []; rs_total_width := 0; rs_max_height := 0 |}
                  i eq_refl Hi) as Hg.
    cbn [Nat.add rs_charset_idx] in Hg.
    rewrite Hreads, (nth_lookup_Some _ _ 0 _ Hcp) in Hg.
    exact (nth_lookup_Some _ _ temp_glyph_zero _ Hg). }
  set (final := finish_last_row temp st).
  assert (Hkeep : forall (B : Type) (f : glyph_atlas_char_t -> B),
             packer_keeps f -> f <$> final = f <$> rs_chars rs).
  { intros B f Hf. subst final. rewrite (finish_last_row_keeps _ _ Hf).
    now rewrite (pack_loop_keeps _ _ _ _ Hf _ _ _ Hloop). }
  assert (Hc : exists c, final !! i = Some c).
  { apply lookup_lt_is_Some. apply lookup_lt_Some in Hrs.
    pose proof (f_equal length (Hkeep _ _ keeps_cell)) as Hl.
    rewrite !length_fmap in Hl. lia. }
  destruct Hc as [c Hc]. exists c. split; [exact Hc|].
  pose proof (f_equal (fun l => l !! i) (Hkeep _ _ keeps_codepoint)) as Hcode.
  pose proof (f_equal (fun l => l !! i) (Hkeep _ _ keeps_advance)) as Hadv.
  cbn beta in Hcode, Hadv. rewrite !list_lookup_fmap, Hc, Hrs in Hcode, Hadv.
  injection Hcode as Hcode. injection Hadv as Hadv.
  pose proof (sort_glyph_order_perm temp n) as Hperm.
  split; [rewrite Hcode; apply raster_entry_codepoint|]. split; [|split].
  - intros Hmiss. rewrite Hadv. unfold raster_entry, rasterized_glyph. rewrite Hmiss.
    reflexivity.
  - intros Hempty. rewrite <- Hglyph in Hempty.
    exact (packed_empty_glyph_cleared temp _ n fuel _ _ st i c Hperm Hloop Hi Hempty Hc).
  - intros Hempty. rewrite <- Hglyph in *.
    exact (packed_glyph_sized temp _ n fuel _ _ st i c Hperm Hloop Hi Hempty Hc).
Qed.

Lemma created_entries_are_filled_from_their_glyphs_witness :
  exists atlas cs c,
    glyph_atlas_create (sample_host (coarse_font 20 30) true true true) 8 font_path
      (Float.of_int 18) (Some (list_byte_of_string "AZ")) GLYPH_ENCODING_ASCII false
      = Some (Returns atlas) /\
    chars atlas = Some cs /\ cs !! 0%nat = Some c /\
    ch_codepoint c = 65 /\ ch_advance c = 26 /\ ch_width c = 20 /\ ch_height c = 30.
Proof.
  eexists. eexists.
  destruct (created_entries_are_filled_from_their_glyphs
              (sample_host (coarse_font 20 30) true true true) 8 font_path (Float.of_int 18)
              (Some (list_byte_of_string "AZ")) GLYPH_ENCODING_ASCII false
              (coarse_font 20 30) _ _ 0 65 eq_refl ltac:(vm_compute; reflexivity)
              ltac:(vm_compute; reflexivity) eq_refl eq_refl)
    as (c & Hc & Hcode & Hadv & _ & Hsize).
  exists c. split; [vm_compute; reflexivity|]. split; [reflexivity|].
  split; [exact Hc|]. split; [exact Hcode|].
  split; [rewrite (Hadv eq_refl); vm_compute; reflexivity|].
  destruct (Hsize eq_refl) as (Hw & Hh & _). split; [exact Hw | exact Hh].
Defined.

Lemma doubled_side_next size :
  doubled_side size ->
  doubled_side (Int.mul size 2) /\ size <= 2 ^ 30 /\ clears (Int.mul size 2) = true.
Proof.
  intros [(k & Hk & ->) | [-> | ->]].
  - assert (H30 : 2 ^ k <= 2 ^ 30) by (apply Z.pow_le_mono_r; lia).
    destruct (Z.eq_dec k 30) as [-> | Hne].
    { split; [right; left; reflexivity|]. split; [lia | reflexivity]. }
    assert (H29 : 2 ^ k <= 2 ^ 29) by (apply Z.pow_le_mono_r; lia).
    assert (0 < 2 ^ k) by (apply Z.pow_pos_nonneg; lia).
    assert (Hdouble : Int.mul (2 ^ k) 2 = 2 ^ (k + 1)).
    { unfold Int.mul. rewrite wrap32_small by int_range.
      rewrite Z.pow_add_r by lia. lia. }
    rewrite Hdouble. split; [left; exists (k + 1); split; [lia | reflexivity]|].
    split; [exact H30|]. rewrite clears_pow2 by lia.
    destruct (Z.eqb_spec (k + 1) 15); [lia | reflexivity].
  - split; [right; right; reflexivity|]. split; [lia | reflexivity].
  - split; [right; right; reflexivity|]. split; [lia | reflexivity].
Qed.

Section TooTall.

Variable temp_glyphs : list temp_glyph_t.
Variable glyph_order : list nat.
Variable n : nat.
Variable bound : Z.

Hypothesis some_glyph : (0 < n)%nat.
Hypothesis bound_range : 0 <= bound <= 2 ^ 30.
Hypothesis first_too_tall : too_tall bound (glyph temp_glyphs (nth 0 glyph_order 0%nat)).

(** A pass in an atlas of at most [bound] pixels ends at its first glyph. *)
Lemma too_tall_pass_fails size cs :
  - 2 ^ 31 <= size <= bound ->
  pack_step temp_glyphs glyph_order (pass_start size cs) =
  if clears (Int.mul size 2) then Returns (pass_start (Int.mul size 2) cs)
  else WritesOutside.
Proof.
  intros Hsize.
  destruct first_too_tall as (Hempty & Hlo & Hhi). unfold padding in Hlo.
  change (2 ^ 30) with 1073741824 in *. change (2 ^ 31) with 2147483648 in *.
  unfold pack_step. change (order_idx (pass_start size cs)) with 0%nat. rewrite Hempty.
  set (g := glyph temp_glyphs (nth 0 glyph_order 0%nat)) in *.
  assert (Hfail : forall st1, (pen_y st1 = 4 \/ pen_y st1 = 8) -> atlas_height st1 = size ->
            (Int.add (Int.add (pen_y st1) (tg_height g)) padding >? atlas_height st1) = true).
  { intros st1 Hpen Hh. unfold Int.add, padding.
    rewrite (wrap32_small (pen_y st1 + tg_height g)) by int_range.
    rewrite wrap32_small by int_range. rewrite Hh. apply Z.gtb_lt. lia. }
  destruct (_ >? atlas_width (pass_start size cs)).
  - rewrite Hfail; [|right; reflexivity | reflexivity].
    rewrite grow_and_restart_square by reflexivity. reflexivity.
  - rewrite Hfail; [|left; reflexivity | reflexivity].
    rewrite grow_and_restart_square by reflexivity. reflexivity.
Qed.

(** From 65536 on every image is cleared, and the passes go on for ever. *)
Lemma too_tall_never_packed fuel size cs :
  bound = 2 ^ 30 -> doubled_side size ->
  pack_loop temp_glyphs glyph_order n fuel (pass_start size cs) = None.
Proof.
  intros Hbound. revert size. induction fuel as [|fuel IH]; intros size Hsize; [reflexivity|].
  rewrite pack_loop_S. change (order_idx (pass_start size cs)) with 0%nat.
  destruct (Nat.ltb_spec 0 n) as [_|]; [|lia].
  destruct (doubled_side_next size Hsize) as (Hnext & Hle & Hclears).
  rewrite too_tall_pass_fails.
  - rewrite Hclears. apply IH, Hnext.
  - split; [|lia].
    destruct Hsize as [(k & Hk & ->) | [-> | ->]]; [|lia..].
    assert (0 < 2 ^ k) by (apply Z.pow_pos_nonneg; lia). lia.
Qed.

(** From 16384 down the passes end at 32768, where the image is not cleared. *)
Lemma too_tall_stops fuel k cs :
  bound = 2 ^ 14 -> 11 <= k <= 14 -> (Z.to_nat (15 - k) <= fuel)%nat ->
  pack_loop temp_glyphs glyph_order n fuel (pass_start (2 ^ k) cs) = Some WritesOutside.
Proof.
  intros Hbound. revert k. induction fuel as [|fuel IH]; intros k Hk Hfuel; [lia|].
  rewrite pack_loop_S. change (order_idx (pass_start (2 ^ k) cs)) with 0%nat.
  destruct (Nat.ltb_spec 0 n) as [_|]; [|lia].
  assert (H14 : 2 ^ k <= 2 ^ 14) by (apply Z.pow_le_mono_r; lia).
  assert (Hpos : 0 < 2 ^ k) by (apply Z.pow_pos_nonneg; lia).
  change (2 ^ 14) with 16384 in *.
  assert (Hdouble : Int.mul (2 ^ k) 2 = 2 ^ (k + 1)).
  { unfold Int.mul. rewrite wrap32_small by int_range.
    rewrite Z.pow_add_r by lia. lia. }
  rewrite too_tall_pass_fails by lia.
  rewrite Hdouble, clears_pow2 by lia.
  destruct (Z.eqb_spec (k + 1) 15) as [|Hne]; cbn [negb]; [reflexivity|].
  apply IH; lia.
Qed.

End TooTall.

(** The glyph at the head of the sorted order is a tallest one. *)
Lemma sort_glyph_order_head temp_glyphs n j :
  (j < S n)%nat ->
  exists i, sort_glyph_order temp_glyphs (S n) !! 0%nat = Some i /\ (i < S n)%nat /\
            height_of temp_glyphs j <= height_of temp_glyphs i.
Proof.
  intros Hj.
  destruct (sort_glyph_order_passes temp_glyphs n)
    as (Hperm & _ & pre & suf & Heq & Hsuf & _ & Hcross).
  assert (Hlen : length (pre ++ suf) = S n).
  { rewrite <- Heq, <- Hperm. apply length_seq. }
  rewrite length_app in Hlen.
  destruct pre as [|a [|b pre]]; cbn [length] in Hlen; try lia.
  exists a. rewrite Heq. split; [reflexivity|].
  assert (Hin : forall x, x ∈ seq 0 (S n) <-> x ∈ [a] ++ suf).
  { intros x. rewrite Hperm, Heq. reflexivity. }
  split.
  - assert (Ha : a ∈ seq 0 (S n)) by (apply Hin, elem_of_app; left; now apply list_elem_of_singleton).
    apply elem_of_seq in Ha. lia.
  - assert (Hjin : j ∈ [a] ++ suf) by (apply Hin, elem_of_seq; lia).
    apply elem_of_app in Hjin as [Hja | Hjs].
    + apply list_elem_of_singleton in Hja as ->. lia.
    + apply (Hcross a j); [now apply list_elem_of_singleton | exact Hjs].
Qed.

(** When every glyph has a bitmap, the first glyph of the packing order is as
    high as any. *)
Lemma first_glyph_is_tallest temp_glyphs n bound :
  length temp_glyphs = n ->
  Forall (fun g => is_empty_glyph g = false /\ tg_height g <= 2 ^ 31 - 13) temp_glyphs ->
  Exists (fun g => bound - 2 * padding < tg_height g) temp_glyphs ->
  (0 < n)%nat /\
  too_tall bound (glyph temp_glyphs (nth 0 (sort_glyph_order temp_glyphs n) 0%nat)).
Proof.
  intros Hlen Hall Hsome.
  apply Exists_exists in Hsome as (g & Hg & Htall).
  apply list_elem_of_lookup in Hg as [j Hj].
  assert (Hjn : (j < n)%nat) by (rewrite <- Hlen; eapply lookup_lt_Some, Hj).
  destruct n as [|n']; [lia|]. split; [lia|].
  destruct (sort_glyph_order_head temp_glyphs n' j Hjn) as (i & Hi & Hin & Hheight).
  unfold height_of in Hheight. rewrite (nth_lookup_Some _ _ _ _ Hj) in Hheight.
  assert (Hgi : exists gi, temp_glyphs !! i = Some gi).
  { apply lookup_lt_is_Some. lia. }
  destruct Hgi as [gi Hgi].
  rewrite (nth_lookup_Some _ _ _ _ Hgi) in Hheight.
  assert (Hgi_all : is_empty_glyph gi = false /\ tg_height gi <= 2 ^ 31 - 13).
  { apply (proj1 (List.Forall_forall _ _) Hall).
    apply list_elem_of_In, list_elem_of_lookup. eauto. }
  rewrite (nth_lookup_Some _ _ _ _ Hi). unfold glyph.
  rewrite (nth_lookup_Some _ _ _ _ Hgi).
  destruct Hgi_all as [Hne Hhi]. split; [exact Hne|]. lia.
Qed.

(** The call, once the font is loaded and the three blocks are allocated. *)
Lemma glyph_atlas_create_packing host fuel path ph charset char_type use_sdf font fresh :
  glyph_ttf_load_font_from_file host path = Some font ->
  malloc_chars host = Some fresh ->
  malloc_temp_glyphs host = true -> malloc_glyph_order host = true ->
  glyph_atlas_create host fuel path ph charset char_type use_sdf =
  let rs := rasterized host font ph (charset_or_default charset) char_type use_sdf fresh in
  let temp := rs_temp_glyphs rs in
  let n := Z.to_nat (charset_length char_type (charset_or_default charset)) in
  let side := first_side (estimate_size host (rs_total_width rs) (rs_max_height rs)) in
  if clears side then
    match pack_loop temp (sort_glyph_order temp n) n fuel (pass_start side (rs_chars rs)) with
    | None => None
    | Some (Returns st) =>
      Some (Returns (finish_atlas temp (charset_length char_type (charset_or_default charset))
                                  ph st))
    | Some ReadsNull => Some ReadsNull
    | Some ReadsOutside => Some ReadsOutside
    | Some WritesOutside => Some WritesOutside
    end
  else Some WritesOutside.
Proof.
  intros Hfont Hfresh Htemp Horder.
  unfold glyph_atlas_create. rewrite Hfont, Hfresh, Htemp, Horder. cbn [negb].
  fold (charset_or_default charset).
  set (n := Z.to_nat (charset_length char_type (charset_or_default charset))).
  change (rasterize_all host font ph (charset_or_default charset) char_type use_sdf
            (map fresh (seq 0 n)) n)
    with (rasterized host font ph (charset_or_default charset) char_type use_sdf fresh).
  rewrite pack_init_eq. cbv zeta. destruct (clears _); reflexivity.
Qed.

(** X21. When every glyph has a bitmap, one of them is higher than 16384 minus
    twice the padding and the first atlas is at most 32768 pixels wide, the
    call does not return: the tallest glyph comes first and fails the vertical
    test in every atlas up to 16384, the atlas is doubled to 32768, and the
    [memset] that clears the new image is asked for more bytes than the image
    has.  When the first atlas is itself 32768 pixels wide, its own [memset]
    is. *)
Theorem atlas_create_stops_at_32768_on_tall_glyph
    (host : host_t) (path : cstring) (ph : float) (charset : option cstring)
    (char_type : glyph_encoding_type_t) (use_sdf : bool) (font : glyph_font_t)
    (fresh : nat -> glyph_atlas_char_t) :
  let rs := rasterized host font ph (charset_or_default charset) char_type use_sdf fresh in
  glyph_ttf_load_font_from_file host path = Some font ->
  malloc_chars host = Some fresh ->
  malloc_temp_glyphs host = true -> malloc_glyph_order host = true ->
  Forall (fun g => is_empty_glyph g = false /\ tg_height g <= 2 ^ 31 - 13)
         (rs_temp_glyphs rs) ->
  Exists (fun g => 2 ^ 14 - 2 * padding < tg_height g) (rs_temp_glyphs rs) ->
  first_side (estimate_size host (rs_total_width rs) (rs_max_height rs)) <= 2 ^ 15 ->
  forall extra,
    glyph_atlas_create host (4 + extra) path ph charset char_type use_sdf
    = Some WritesOutside.
Proof.
  intros rs Hfont Hfresh Htemp Horder Hall Hsome Hlow extra.
  set (n := Z.to_nat (charset_length char_type (charset_or_default charset))).
  set (temp := rs_temp_glyphs rs) in *.
  assert (Hlen : length temp = n).
  { subst temp rs. unfold rasterized, rasterize_all. fold n.
    rewrite rasterize_fold_temp_length. reflexivity. }
  destruct (estimate_size_cases host (rs_total_width rs) (rs_max_height rs))
    as (k & Hk & Hside).
  rewrite Hside in Hlow.
  destruct (first_glyph_is_tallest temp n (2 ^ 14) Hlen Hall Hsome) as [Hn Htall].
  assert (Hk15 : k <= 15) by (apply (Z.pow_le_mono_r_iff 2); lia).
  rewrite (glyph_atlas_create_packing _ _ _ _ _ _ _ _ _ Hfont Hfresh Htemp Horder).
  cbv zeta. fold rs temp n. rewrite Hside, clears_pow2 by lia.
  destruct (Z.eqb_spec k 15) as [|Hne]; cbn [negb]; [reflexivity|].
  rewrite (too_tall_stops temp _ n (2 ^ 14) Hn ltac:(lia) Htall (4 + extra) k _ eq_refl);
    [reflexivity | lia | lia].
Qed.

Lemma atlas_create_stops_at_32768_on_tall_glyph_witness :
  glyph_atlas_create (sample_host (sample_font 20 20000) true true true) 9
    font_path (Float.of_int 32) (Some (list_byte_of_string "AB")) GLYPH_ENCODING_ASCII false
  = Some WritesOutside.
Proof.
  assert (Hglyphs :
    exists g1 g2,
      rs_temp_glyphs
        (rasterized (sample_host (sample_font 20 20000) true true true)
           (sample_font 20 20000) (Float.of_int 32)
           (charset_or_default (Some (list_byte_of_string "AB")))
           GLYPH_ENCODING_ASCII false stale_cell) = [g1; g2] /\
      is_empty_glyph g1 = false /\ is_empty_glyph g2 = false /\
      tg_height g1 = 20000 /\ tg_height g2 = 20000).
  { eexists. eexists. split; [vm_compute; reflexivity|]. vm_compute. tauto. }
  destruct Hglyphs as (g1 & g2 & Hrs & He1 & He2 & Hh1 & Hh2).
  apply (atlas_create_stops_at_32768_on_tall_glyph
           (sample_host (sample_font 20 20000) true true true) font_path
           (Float.of_int 32) (Some (list_byte_of_string "AB")) GLYPH_ENCODING_ASCII
           false (sample_font 20 20000) stale_cell eq_refl eq_refl eq_refl eq_refl
           ltac:(rewrite Hrs;
                 repeat (constructor; [split; [assumption | lia]|]); constructor)
           ltac:(rewrite Hrs; constructor; rewrite Hh1; unfold padding; lia)
           ltac:(vm_compute; discriminate) 5%nat).
Defined.



(** X26. When every glyph has a bitmap, one of them is higher than 2^30 minus
    twice the padding and the first atlas is 65536 pixels wide or more, the
    packing loop never ends.  From 65536 on the length given to [memset] has
    wrapped to 0 and every image is cleared; the tallest glyph comes first,
    fails the vertical test in every atlas up to 2^30, and goes on failing
    once the doubled side has overflowed to [INT_MIN] and then to 0. *)
Theorem atlas_create_never_returns_on_too_tall_glyph
    (host : host_t) (path : cstring) (ph : float) (charset : option cstring)
    (char_type : glyph_encoding_type_t) (use_sdf : bool) (font : glyph_font_t)
    (fresh : nat -> glyph_atlas_char_t) :
  let rs := rasterized host font ph (charset_or_default charset) char_type use_sdf fresh in
  glyph_ttf_load_font_from_file host path = Some font ->
  malloc_chars host = Some fresh ->
  malloc_temp_glyphs host = true -> malloc_glyph_order host = true ->
  Forall (fun g => is_empty_glyph g = false /\ tg_height g <= 2 ^ 31 - 13)
         (rs_temp_glyphs rs) ->
  Exists (fun g => 2 ^ 30 - 2 * padding < tg_height g) (rs_temp_glyphs rs) ->
  2 ^ 16 <= first_side (estimate_size host (rs_total_width rs) (rs_max_height rs)) ->
  forall fuel, glyph_atlas_create host fuel path ph charset char_type use_sdf = None.
Proof.
  intros rs Hfont Hfresh Htemp Horder Hall Hsome Hhigh fuel.
  set (n := Z.to_nat (charset_length char_type (charset_or_default charset))).
  set (temp := rs_temp_glyphs rs) in *.
  assert (Hlen : length temp = n).
  { subst temp rs. unfold rasterized, rasterize_all. fold n.
    rewrite rasterize_fold_temp_length. reflexivity. }
  destruct (estimate_size_cases host (rs_total_width rs) (rs_max_height rs))
    as (k & Hk & Hside).
  rewrite Hside in Hhigh.
  destruct (first_glyph_is_tallest temp n (2 ^ 30) Hlen Hall Hsome) as [Hn Htall].
  assert (Hk16 : 16 <= k) by (apply (Z.pow_le_mono_r_iff 2); lia).
  rewrite (glyph_atlas_create_packing _ _ _ _ _ _ _ _ _ Hfont Hfresh Htemp Horder).
  cbv zeta. fold rs temp n. rewrite Hside, clears_pow2 by lia.
  destruct (Z.eqb_spec k 15) as [|_]; [lia|]. cbn [negb].
  rewrite (too_tall_never_packed temp _ n (2 ^ 30) Hn ltac:(lia) Htall fuel (2 ^ k) _ eq_refl);
    [reflexivity|].
  left. exists k. split; [lia | reflexivity].
Qed.

Lemma atlas_create_never_returns_on_too_tall_glyph_witness :
  glyph_atlas_create (sample_host (sample_font 1 (2 ^ 30)) true true true) 1000
    font_path (Float.of_int 32) (Some (list_byte_of_string "A")) GLYPH_ENCODING_ASCII false
  = None.
Proof.
  assert (Hglyphs :
    exists g1,
      rs_temp_glyphs
        (rasterized (sample_host (sample_font 1 (2 ^ 30)) true true true)
           (sample_font 1 (2 ^ 30)) (Float.of_int 32)
           (charset_or_default (Some (list_byte_of_string "A")))
           GLYPH_ENCODING_ASCII false stale_cell) = [g1] /\
      is_empty_glyph g1 = false /\ tg_height g1 = 2 ^ 30).
  { eexists. split; [vm_compute; reflexivity|]. vm_compute. tauto. }
  destruct Hglyphs as (g1 & Hrs & He1 & Hh1).
  apply (atlas_create_never_returns_on_too_tall_glyph
           (sample_host (sample_font 1 (2 ^ 30)) true true true) font_path
           (Float.of_int 32) (Some (list_byte_of_string "A")) GLYPH_ENCODING_ASCII
           false (sample_font 1 (2 ^ 30)) stale_cell eq_refl eq_refl eq_refl eq_refl
           ltac:(rewrite Hrs;
                 repeat (constructor; [split; [assumption | lia]|]); constructor)
           ltac:(rewrite Hrs; constructor; rewrite Hh1; unfold padding; lia)
           ltac:(vm_compute; discriminate) 1000%nat).
Defined.

Section SevenBitCharset.

Variable host : host_t.
Variable font : glyph_font_t.
Variable ph : float.
Variable charset : cstring.
Variable char_type : glyph_encoding_type_t.
Variable use_sdf : bool.

Hypothesis ascii : seven_bit charset = true.

#[local] Abbreviation step_utf8 :=
  (rasterize_step host font ph charset GLYPH_ENCODING_UTF8 use_sdf).
#[local] Abbreviation step_bytes :=
  (rasterize_step host font ph charset char_type use_sdf).

Lemma rasterize_step_seven_bit a b s :
  is_utf8 char_type = false -> (s < strlen charset)%nat ->
  same_rasters a b -> rs_charset_idx a = s ->
  same_rasters (step_utf8 a s) (step_bytes b s) /\ rs_charset_idx (step_utf8 a s) = S s.
Proof.
  intros Hct Hs (Hc & Ht & Hw & Hh) Hidx.
  unfold rasterize_step. rewrite Hct. cbn [is_utf8].
  unfold glyph_atlas_utf8_decode. cbv zeta.
  rewrite Hidx, (seven_bit_at charset ascii s Hs).
  rewrite Hc, Ht, Hw, Hh.
  destruct (_ && _); (split; [repeat split | reflexivity]).
Qed.

Lemma rasterize_fold_seven_bit m s a b :
  is_utf8 char_type = false -> (s + m <= strlen charset)%nat ->
  same_rasters a b -> rs_charset_idx a = s ->
  same_rasters (fold_left step_utf8 (seq s m) a) (fold_left step_bytes (seq s m) b).
Proof.
  intros Hct. revert s a b. induction m as [|m IH]; intros s a b Hlen Hsame Hidx;
    [exact Hsame|].
  cbn [seq fold_left].
  destruct (rasterize_step_seven_bit a b s Hct ltac:(lia) Hsame Hidx) as [Hsame' Hidx'].
  apply IH; [lia | exact Hsame' | exact Hidx'].
Qed.

End SevenBitCharset.

(** X22. For a charset of 7-bit bytes the encoding makes no difference: the atlas
    made in UTF-8 mode is the atlas made in any other mode. *)
Theorem seven_bit_charset_gives_the_same_atlas
    (host : host_t) (fuel : nat) (path : cstring) (ph : float) (charset : option cstring)
    (char_type : glyph_encoding_type_t) (use_sdf : bool) :
  seven_bit (charset_or_default charset) = true ->
  Z.of_nat (strlen (charset_or_default charset)) < 2 ^ 31 ->
  glyph_atlas_create host fuel path ph charset GLYPH_ENCODING_UTF8 use_sdf =
  glyph_atlas_create host fuel path ph charset char_type use_sdf.
Proof.
  intros Hascii Hlen.
  destruct (is_utf8 char_type) eqn:Hct; [destruct char_type; try discriminate; reflexivity|].
  assert (Hcount : charset_length GLYPH_ENCODING_UTF8 (charset_or_default charset) =
                   charset_length char_type (charset_or_default charset)).
  { rewrite !charset_length_codepoints by exact Hlen.
    unfold charset_codepoints. rewrite Hct. cbn [is_utf8].
    rewrite (utf8_codepoints_seven_bit _ Hascii) by lia.
    rewrite Nat.sub_0_r. reflexivity. }
  assert (Hn : Z.to_nat (charset_length char_type (charset_or_default charset))
               = strlen (charset_or_default charset)).
  { rewrite charset_length_codepoints by exact Hlen.
    unfold charset_codepoints. rewrite Hct, length_map, length_seq. apply Nat2Z.id. }
  unfold glyph_atlas_create. fold (charset_or_default charset).
  rewrite Hcount.
  destruct (glyph_ttf_load_font_from_file host path) as [font|]; [|reflexivity].
  destruct (malloc_chars host) as [fresh|]; [|reflexivity].
  destruct (negb (malloc_temp_glyphs host)); [reflexivity|].
  set (n := Z.to_nat (charset_length char_type (charset_or_default charset))) in *.
  destruct (rasterize_fold_seven_bit host font ph (charset_or_default charset) char_type
              use_sdf Hascii n 0
              {| rs_charset_idx := 0; rs_chars := map fresh (seq 0 n); rs_temp_glyphs := [];
                 rs_total_width := 0; rs_max_height := 0 |}
              {| rs_charset_idx := 0; rs_chars := map fresh (seq 0 n); rs_temp_glyphs := [];
                 rs_total_width := 0; rs_max_height := 0 |}
              Hct ltac:(lia) ltac:(repeat split) eq_refl) as (Hc & Ht & Hw & Hh).
  unfold rasterize_all. rewrite Hc, Ht, Hw, Hh. reflexivity.
Qed.

Lemma seven_bit_charset_gives_the_same_atlas_witness :
  glyph_atlas_create (sample_host (sample_font 20 30) true true true) 200 font_path
    (Float.of_int 32) None GLYPH_ENCODING_UTF8 false =
  glyph_atlas_create (sample_host (sample_font 20 30) true true true) 200 font_path
    (Float.of_int 32) None GLYPH_ENCODING_ASCII false.
Proof.
  apply seven_bit_charset_gives_the_same_atlas.
  - vm_compute. reflexivity.
  - vm_compute. reflexivity.
Defined.

Lemma print_info_loop_spec cs i left :
  (i + left <= length cs)%nat ->
  print_info_loop (Some cs) i left =
  (Returns tt,
   map (fun c => call_GLYPH_LOG (line_char_info (printable (ch_codepoint c)) c))
       (take left (drop i cs))).
Proof.
  revert i. induction left as [|left IH]; intros i Hlen; [reflexivity|].
  cbn [print_info_loop].
  destruct (cs !! i) as [c|] eqn:Hc.
  2:{ apply lookup_ge_None in Hc. lia. }
  rewrite IH by lia.
  rewrite (drop_S _ _ _ Hc). reflexivity.
Qed.

Lemma printable_range cp : 32 <= printable cp <= 126.
Proof.
  unfold printable.
  destruct (Z.leb_spec 32 cp), (Z.ltb_spec cp 127); cbn [andb]; lia.
Qed.

(** X23. On an atlas created with its entries [glyph_atlas_print_info] returns
    after five header lines and one line per entry, in index order, and the
    character it shows for an entry is always a printable ASCII character:
    the codepoint itself when it is one, ['?'] otherwise. *)
Theorem print_info_lists_every_entry
    (host : host_t) (fuel : nat) (path : cstring) (ph : float) (charset : option cstring)
    (char_type : glyph_encoding_type_t) (use_sdf : bool)
    (font : glyph_font_t) (atlas : glyph_atlas_t) (cs : list glyph_atlas_char_t) :
  glyph_ttf_load_font_from_file host path = Some font ->
  Z.of_nat (strlen (charset_or_default charset)) < 2 ^ 31 ->
  glyph_atlas_create host fuel path ph charset char_type use_sdf = Some (Returns atlas) ->
  chars atlas = Some cs ->
  glyph_atlas_print_info (Some atlas) =
    (Returns tt, map call_GLYPH_LOG (info_lines atlas cs)) /\
  length (info_lines atlas cs) =
    (5 + length (charset_codepoints char_type (charset_or_default charset)))%nat /\
  forall ch c, line_char_info ch c ∈ info_lines atlas cs ->
    32 <= ch <= 126 /\ (32 <= ch_codepoint c <= 126 -> ch = ch_codepoint c) /\
    (~ 32 <= ch_codepoint c <= 126 -> ch = 63).
Proof.
  intros Hfont Hlen Hcreate Hcs.
  pose proof (created_chars_length _ _ _ _ _ _ _ _ _ _ Hfont Hlen Hcreate Hcs) as Hnum.
  pose proof (created_codepoints _ _ _ _ _ _ _ _ _ _ Hfont Hlen Hcreate Hcs) as Hcodes.
  split; [|split].
  - unfold glyph_atlas_print_info, info_lines. rewrite Hcs, Hnum.
    rewrite print_info_loop_spec by (cbn; lia).
    rewrite drop_0, firstn_all. cbn. rewrite map_map. reflexivity.
  - unfold info_lines. rewrite length_app, length_map, <- Hcodes, length_fmap. reflexivity.
  - intros ch c Hin. unfold info_lines in Hin.
    apply elem_of_app in Hin as [Hin | Hin].
    { rewrite !elem_of_cons, elem_of_nil in Hin.
      repeat (destruct Hin as [Hin | Hin]; [discriminate|]). contradiction. }
    rewrite map_fmap in Hin. apply list_elem_of_fmap in Hin as (c' & [= -> ->] & _).
    split; [apply printable_range|]. unfold printable.
    destruct (Z.leb_spec 32 (ch_codepoint c')), (Z.ltb_spec (ch_codepoint c') 127);
      cbn [andb]; split; intros; lia.
Qed.

Lemma print_info_lists_every_entry_witness :
  exists atlas cs,
    glyph_atlas_create (sample_host (sample_font 20 30) true true true) 8 font_path
      (Float.of_int 32) (Some (list_byte_of_string "ABA")) GLYPH_ENCODING_ASCII false = Some (Returns atlas) /\
    glyph_atlas_print_info (Some atlas) =
      (Returns tt, map call_GLYPH_LOG (info_lines atlas cs)) /\
    length (info_lines atlas cs) = 8%nat.
Proof.
  eexists. eexists. split; [vm_compute; reflexivity|].
  destruct (print_info_lists_every_entry
              (sample_host (sample_font 20 30) true true true) 8 font_path (Float.of_int 32)
              (Some (list_byte_of_string "ABA")) GLYPH_ENCODING_ASCII false
              (sample_font 20 30) _ _ eq_refl ltac:(vm_compute; reflexivity)
              ltac:(vm_compute; reflexivity) eq_refl) as (Hinfo & Hlen & _).
  split; [exact Hinfo | exact Hlen].
Defined.

(** X24. [vertex_buffer_size] counts floats when the buffer is created and bytes
    once it has grown.  For a renderer as [glyph_renderer_create] returns it,
    a text of at most 1024 bytes leaves the buffer alone; a longer text of
    fewer than 2048 bytes has the buffer reallocated to fewer bytes than it
    had, which are still enough for the text. *)
Theorem first_growth_shrinks_the_vertex_buffer
    (host : host_t) (env env' : env_t) (fuel : nat) (path : cstring) (ph : float)
    (charset : option cstring) (char_type : glyph_encoding_type_t)
    (effect : option glyph_effect_t) (use_sdf : bool) (m : io glyph_renderer_t)
    (text : cstring) :
  glyph_renderer_create host env fuel path ph charset char_type effect use_sdf = Some (Returns m) ->
  rn_initialized (result_of m) <> 0 ->
  buffer_bytes (result_of m) = 1179648 /\
  ((strlen text <= 1024)%nat ->
   grow_vertex_buffer env' (result_of m) text = Some (result_of m)) /\
  ((1024 < strlen text < 2048)%nat ->
   (forall ptr bytes, realloc_vertex_buffer env' ptr bytes <> None) ->
   exists r',
     grow_vertex_buffer env' (result_of m) text = Some r' /\
     buffer_bytes r' = 576 * Z.of_nat (strlen text) /\
     required_size text <= buffer_bytes r' < buffer_bytes (result_of m)).
Proof.
  intros Hcreate Hinit.
  destruct (create_initialized _ _ _ _ _ _ _ _ _ _ Hcreate)
    as [H0 | (_ & _ & _ & _ & _ & Hsize & addr & Hbuf)]; [contradiction|].
  assert (Hbytes : buffer_bytes (result_of m) = 1179648).
  { unfold buffer_bytes. rewrite Hbuf. reflexivity. }
  split; [exact Hbytes|].
  assert (H32 : 2 ^ 32 = 4294967296) by reflexivity.
  assert (H64 : 2 ^ 64 = 18446744073709551616) by reflexivity.
  split.
  - intros Hlen. unfold grow_vertex_buffer.
    rewrite required_size_eq by lia. rewrite Hsize.
    destruct (Z.gtb_spec (288 * Z.of_nat (strlen text)) 294912); [lia | reflexivity].
  - intros Hlen Hre. unfold grow_vertex_buffer.
    rewrite required_size_eq by lia. rewrite Hsize.
    destruct (Z.gtb_spec (288 * Z.of_nat (strlen text)) 294912) as [_|]; [|lia].
    destruct (realloc_vertex_buffer env' _ _) as [a|] eqn:E; [|exfalso; exact (Hre _ _ E)].
    eexists. split; [reflexivity|].
    assert (Hmul : Size.mul (288 * Z.of_nat (strlen text)) 2 = 576 * Z.of_nat (strlen text)).
    { rewrite size_mul_small; [lia|]. rewrite H64. lia. }
    rewrite Hbytes. unfold buffer_bytes. cbn [rn_vertex_buffer block_bytes].
    rewrite Hmul. lia.
Qed.

Lemma first_growth_shrinks_the_vertex_buffer_witness :
  exists m,
    glyph_renderer_create (sample_host (sample_font 20 30) true true true) sample_env 8
      font_path (Float.of_int 32) (Some (list_byte_of_string "AB?")) GLYPH_ENCODING_ASCII None false
      = Some (Returns m) /\
    buffer_bytes (result_of m) = 1179648 /\
    grow_vertex_buffer sample_env (result_of m) (list_byte_of_string "AB")
      = Some (result_of m) /\
    exists r',
      grow_vertex_buffer sample_env (result_of m) (repeat x41 1100) = Some r' /\
      buffer_bytes r' = 633600.
Proof.
  eexists. split; [vm_compute; reflexivity|].
  destruct (first_growth_shrinks_the_vertex_buffer
              (sample_host (sample_font 20 30) true true true) sample_env sample_env 8
              font_path (Float.of_int 32) (Some (list_byte_of_string "AB?")) GLYPH_ENCODING_ASCII
              None false _ (list_byte_of_string "AB")
              ltac:(vm_compute; reflexivity) ltac:(vm_compute; discriminate))
    as (Hbytes & Hshort & _).
  destruct (first_growth_shrinks_the_vertex_buffer
              (sample_host (sample_font 20 30) true true true) sample_env sample_env 8
              font_path (Float.of_int 32) (Some (list_byte_of_string "AB?")) GLYPH_ENCODING_ASCII
              None false _ (repeat x41 1100)
              ltac:(vm_compute; reflexivity) ltac:(vm_compute; discriminate))
    as (_ & _ & Hlong).
  assert (Hlen : strlen (repeat x41 1100) = 1100%nat) by (vm_compute; reflexivity).
  split; [exact Hbytes|]. split; [apply Hshort; cbn; lia|].
  destruct Hlong as (r' & Hgrow & Hr' & _).
  - rewrite Hlen. lia.
  - intros ptr bytes. discriminate.
  - exists r'. split; [exact Hgrow|]. rewrite Hr', Hlen. reflexivity.
Defined.
